(** * ai-piano-roll: the tick timeline, the MIDI writer and the editor store

    A shallow embedding of
      - [src/lib/midi.ts]                (the single-track MIDI writer),
      - [src/components/PianoRoll.tsx]   (the canvas editor: note store,
        drag and drop, import scanner, playback cursor, export button),
      - the grid editor component        ([addNote], [removeNote], the
        click and playback handlers) and its music helpers ([lib/music]),
      - [src/src/lib/ai-suggestions.ts]  (the note suggester),
    followed by the properties of the tick model that the specification
    states about them, and by further properties of the same sources.

    Conventions.  JavaScript numbers that the program only ever uses as
    integers (ticks, pitches, bytes, clock readings) are values of [Z]; the
    32-bit behaviour of the bit operators is written out with [toInt32].
    Pixel coordinates, the zoom factor and transport seconds are rationals
    ([Q]), an exact idealisation of the doubles the browser hands over.
    Arrays are lists, strings are [string].

    The environment is explicit: a reading of [Date.now()], the text of
    [Math.random()], the content of an imported file and the transport time
    are arguments of the handler that consumes them.  A state update is
    applied when the handler runs; a closure keeps the bindings of the
    render that created it, which matters for the playback timer. *)

From Equations Require Import Equations.
From Stdlib Require Import ZArith List Lia Bool String Ascii.
From Stdlib Require Import QArith Qround DecimalString DecimalZ DecimalPos.
From Stdlib Require Import Permutation Sorted.
Import ListNotations.
Open Scope Z_scope.

(** ** JavaScript arithmetic used by the sources *)

Module JS.

(** [ToInt32] of an integral number: reduction into [-2^31, 2^31). *)
Definition toInt32 (n : Z) : Z := (n + 2 ^ 31) mod 2 ^ 32 - 2 ^ 31.

(** [a & b], [a | b] and [a >> k] on integral numbers. *)
Definition and (a b : Z) : Z := Z.land (toInt32 a) (toInt32 b).
Definition or (a b : Z) : Z := Z.lor (toInt32 a) (toInt32 b).
Definition shr (a k : Z) : Z := Z.shiftr (toInt32 a) (k mod 32).

(** Storing a number into a [Uint8Array] keeps it modulo 256. *)
Definition toUint8 (n : Z) : Z := n mod 256.
Definition Uint8Array (l : list Z) : list Z := map toUint8 l.

(** [Math.floor] and [Math.round] (halves go up). *)
Definition Math_floor (x : Q) : Z := Qfloor x.
Definition Math_round (x : Q) : Z := Qfloor (x + (1 # 2)).

(** [n.toString()] of an integral number: decimal digits, ["-"] in front of
    a negative one. *)
Definition toString (n : Z) : string := NilZero.string_of_int (Z.to_int n).

(** [new TextEncoder().encode(s)] on an ASCII string. *)
Definition encode (s : string) : list Z :=
  map (fun c => Z.of_nat (nat_of_ascii c)) (list_ascii_of_string s).

(** [a % b] on integral numbers: the remainder has the sign of [a]. *)
Definition rem (a b : Z) : Z := Z.rem a b.

(** [l[i]] for an integral index: [undefined] outside the array. *)
Definition at_ {A : Type} (l : list A) (i : Z) : option A :=
  if i <? 0 then None else nth_error l (Z.to_nat i).

(** A string-valued hole of a template literal; [undefined] prints as
    ["undefined"]. *)
Definition hole (s : option string) : string :=
  match s with Some s => s | None => "undefined" end.

(** [l.indexOf(x)] on an array of strings. *)
Fixpoint indexOfFrom (i : Z) (l : list string) (x : string) : Z :=
  match l with
  | [] => -1
  | y :: l' => if String.eqb y x then i else indexOfFrom (i + 1) l' x
  end.
Definition indexOf (l : list string) (x : string) : Z := indexOfFrom 0 l x.

(** [parseInt(s)] of a string that matched [\d+]: its decimal value (what
    [parseInt] returns while that value is below 2^53). *)
Definition parseDigits (s : string) : option Z :=
  match s with
  | EmptyString => None
  | _ => option_map Z.of_uint (NilEmpty.uint_of_string s)
  end.

(** The value of a test [e] together with the fact that it is that value;
    used when a loop condition has to reach a termination argument. *)
Definition inspect {A} (a : A) : {b | a = b} := exist _ a eq_refl.

End JS.

(** ** Notes as the canvas editor and the writer share them

    [type Note = { id: string; tick: number; length: number; midi: number;
    vel: number }] *)

Module Note.
Record t : Type := mk
  { id : string; tick : Z; length : Z; midi : Z; vel : Z }.
End Note.

(** ** src/lib/midi.ts *)

Module Midi.

Definition writeUint32BE (n : Z) : list Z :=
  JS.Uint8Array
    [ JS.and (JS.shr n 24) 0xff; JS.and (JS.shr n 16) 0xff;
      JS.and (JS.shr n 8) 0xff; JS.and n 0xff ].

Definition writeUint16BE (n : Z) : list Z :=
  JS.Uint8Array [ JS.and (JS.shr n 8) 0xff; JS.and n 0xff ].

Definition headerChunk (ppq : Z) : list Z :=
  JS.Uint8Array
    (JS.encode "MThd" ++ writeUint32BE 6 ++ writeUint16BE 0
       ++ writeUint16BE 1 ++ writeUint16BE ppq).

(** [{ tick: number; bytes: number[] }] *)
Record Event : Type := mkEvent { ev_tick : Z; ev_bytes : list Z }.

(** [Math.round(60000000 / bpm)] *)
Definition mpq (bpm : Z) : Z :=
  JS.Math_round (inject_Z 60000000 / inject_Z bpm).

Definition tempoEvent (bpm : Z) : Event :=
  mkEvent 0
    [ 0x00; 0xff; 0x51; 0x03;
      JS.and (JS.shr (mpq bpm) 16) 0xff;
      JS.and (JS.shr (mpq bpm) 8) 0xff;
      JS.and (mpq bpm) 0xff ].

(** The two events pushed for one note by the [notes.forEach] callback. *)
Definition noteEvents (n : Note.t) : list Event :=
  [ mkEvent (Note.tick n)
      [0x00; 0x90; JS.and (Note.midi n) 0x7f; JS.and (Note.vel n) 0x7f];
    mkEvent (Note.tick n + Note.length n)
      [0x00; 0x80; JS.and (Note.midi n) 0x7f; 0x40] ].

(** [events] just before the sort: the tempo event, then every note's
    note-on and note-off in array order. *)
Definition events (notes : list Note.t) (bpm : Z) : list Event :=
  tempoEvent bpm :: flat_map noteEvents notes.

(** [events.sort((a, b) => a.tick - b.tick)]: [Array.prototype.sort] is
    stable, so events of equal tick keep their insertion order. *)
Fixpoint insert (a : Event) (l : list Event) : list Event :=
  match l with
  | [] => [a]
  | b :: l' => if ev_tick a - ev_tick b <=? 0 then a :: b :: l'
               else b :: insert a l'
  end.

Fixpoint sort (l : list Event) : list Event :=
  match l with
  | [] => []
  | a :: l' => insert a (sort l')
  end.

(** The [do { vl.unshift(v & 0x7f); v = v >> 7 } while (v > 0)] loop.  Once
    [v >> 7] is positive it is a 32-bit value that lost seven bits, which
    is what the measure records. *)
Equations vlLoop (v : Z) (vl : list Z) : list Z
  by wf (Z.to_nat (Z.log2 (JS.toInt32 v))) lt :=
  vlLoop v vl with JS.inspect (0 <? JS.shr v 7) => {
    | exist _ true _ => vlLoop (JS.shr v 7) (JS.and v 0x7f :: vl);
    | exist _ false _ => JS.and v 0x7f :: vl }.
Next Obligation.
  match goal with E : (0 <? _) = true |- _ => rename E into H end.
  unfold JS.shr in *. change (7 mod 32) with 7 in *. apply Z.ltb_lt in H.
  assert (Hr : - 2 ^ 31 <= JS.toInt32 v < 2 ^ 31).
  { unfold JS.toInt32.
    pose proof (Z.mod_pos_bound (v + 2 ^ 31) (2 ^ 32)). lia. }
  set (w := JS.toInt32 v) in *.
  assert (Hw : 0 < w).
  { destruct (Z.ltb_spec 0 w); auto.
    rewrite Z.shiftr_div_pow2 in H by lia.
    assert (w / 2 ^ 7 <= 0) by (apply Z.div_le_upper_bound; lia). lia. }
  assert (Hlt : Z.shiftr w 7 < w).
  { rewrite Z.shiftr_div_pow2 by lia. apply Z.div_lt; lia. }
  assert (Hs : JS.toInt32 (Z.shiftr w 7) = Z.shiftr w 7).
  { unfold JS.toInt32. rewrite Z.mod_small; lia. }
  rewrite Hs. pose proof (Z.log2_shiftr w 7 Hw) as Hl.
  assert (7 <= Z.log2 w).
  { apply Z.log2_le_pow2; try lia.
    rewrite Z.shiftr_div_pow2 in H by lia.
    destruct (Z.ltb_spec w (2 ^ 7)); auto.
    rewrite Z.div_small in H; lia. }
  pose proof (Z.log2_nonneg (Z.shiftr w 7)). lia.
Qed.

(** The [for (let i = 0; i < vl.length; i++)] loop that pushes the groups,
    every one but the last with bit 7 set. *)
Definition pushGroups (vl : list Z) : list Z :=
  map (fun i => let val := nth i vl 0 in
                if negb (Nat.eqb i (List.length vl - 1))
                then JS.or val 0x80 else val)
      (seq 0 (List.length vl)).

(** The variable-length quantity written for one [delta]. *)
Definition variableLength (delta : Z) : list Z :=
  pushGroups (vlLoop delta []).

(** One round of [events.forEach]: the state is [(lastTick, outBytes)]. *)
Definition emit (acc : Z * list Z) (ev : Event) : Z * list Z :=
  let delta := ev_tick ev - fst acc in
  (ev_tick ev, snd acc ++ variableLength delta ++ tl (ev_bytes ev)).

Definition outBytes (notes : list Note.t) (bpm : Z) : list Z :=
  snd (fold_left emit (sort (events notes bpm)) (0, []))
    ++ [0x00; 0xff; 0x2f; 0x00].

Definition trackChunk (notes : list Note.t) (bpm : Z) : list Z :=
  JS.Uint8Array
    (JS.encode "MTrk"
       ++ writeUint32BE (Z.of_nat (List.length (outBytes notes bpm)))
       ++ outBytes notes bpm).

(** [writeMidi(notes, ppq = 480, bpm = 120)] *)
Definition writeMidi (notes : list Note.t) (ppq bpm : Z) : list Z :=
  JS.Uint8Array (headerChunk ppq ++ trackChunk notes bpm).

End Midi.

(** ** src/components/PianoRoll.tsx *)

Module Canvas.

Definition PPQ : Z := 480.
Definition BPM : Z := 120.

Definition visibleBeats : Z := 16.
Definition pianoWidth : Q := 100.
Definition canvasWidth : Q := 1200.
Definition canvasHeight : Q := 400.
Definition totalKeys : Z := 88.
Definition keyCount : Z := 36.

(** [dragInfo.current] *)
Record DragInfo : Type := mkDrag
  { isDragging : bool; isResizing : bool; noteId : string;
    startX : Q; startY : Q;
    originalTick : Z; originalMidi : Z; originalLength : Z }.

(** [Tone.Transport], as far as the component drives it: whether it runs
    and what [schedule] has queued (time in seconds, note to trigger). *)
Record Transport : Type := mkTransport
  { started : bool; scheduled : list (Q * Note.t) }.

(** The component's state hooks and refs.  [timelineRef] holds the interval
    installed by [playNotes]; what is kept of that closure is the value of
    the [isPlaying] binding it captured. *)
Record State : Type := mkState
  { notes : list Note.t;
    cursorTick : Q;
    isPlaying : bool;
    zoom : Q;
    scrollOffset : Z;
    selectedRef : option string;
    dragInfo : option DragInfo;
    transport : Transport;
    timelineRef : option bool }.

Definition initial : State :=
  mkState [] 0 false 1 24 None None (mkTransport false []) None.

Definition setNotes (ns : list Note.t) (st : State) : State :=
  mkState ns (cursorTick st) (isPlaying st) (zoom st) (scrollOffset st)
    (selectedRef st) (dragInfo st) (transport st) (timelineRef st).

Definition setSelected (sel : option string) (st : State) : State :=
  mkState (notes st) (cursorTick st) (isPlaying st) (zoom st)
    (scrollOffset st) sel (dragInfo st) (transport st) (timelineRef st).

Definition setDragInfo (d : option DragInfo) (st : State) : State :=
  mkState (notes st) (cursorTick st) (isPlaying st) (zoom st)
    (scrollOffset st) (selectedRef st) d (transport st) (timelineRef st).

Definition setZoom (z : Q) (st : State) : State :=
  mkState (notes st) (cursorTick st) (isPlaying st) z (scrollOffset st)
    (selectedRef st) (dragInfo st) (transport st) (timelineRef st).

Definition setScrollOffset (o : Z) (st : State) : State :=
  mkState (notes st) (cursorTick st) (isPlaying st) (zoom st) o
    (selectedRef st) (dragInfo st) (transport st) (timelineRef st).

Definition setCursorTick (c : Q) (st : State) : State :=
  mkState (notes st) c (isPlaying st) (zoom st) (scrollOffset st)
    (selectedRef st) (dragInfo st) (transport st) (timelineRef st).

(** [Transport.stop(); Transport.cancel(); setIsPlaying(false);
    setCursorTick(0); clearInterval(timelineRef.current)], the block shared
    by the stop button, the end of the timeline and [clearNotes]. *)
Definition stopAll (st : State) : State :=
  mkState (notes st) 0 false (zoom st) (scrollOffset st)
    (selectedRef st) (dragInfo st) (mkTransport false []) None.

Definition topMidi (st : State) : Z := 108 - scrollOffset st.

(** [PPQ * 4 * (visibleBeats / 4) / zoom] and
    [(canvasWidth - pianoWidth) / totalTicks] *)
Definition totalTicks (st : State) : Q :=
  (inject_Z (PPQ * 4 * (visibleBeats / 4)) / zoom st)%Q.
Definition pixelsPerTick (st : State) : Q :=
  ((canvasWidth - pianoWidth) / totalTicks st)%Q.
Definition keyHeight : Q := (canvasHeight / inject_Z keyCount)%Q.

(** [Math.floor(tick / (PPQ / gridDivision)) * (PPQ / gridDivision)]; both
    handlers inline it with grid division 4 (sixteenth notes). *)
Definition snapToGrid (tick gridDivision : Z) : Z :=
  tick / (PPQ / gridDivision) * (PPQ / gridDivision).

(** The predicate of [notes.find] in the click handlers. *)
Definition hit (st : State) (gridX y : Q) (note : Note.t) : bool :=
  let noteX := (inject_Z (Note.tick note) * pixelsPerTick st)%Q in
  let noteW := (inject_Z (Note.length note) * pixelsPerTick st)%Q in
  let noteIndex := topMidi st - Note.midi note in
  let noteY := (inject_Z noteIndex * keyHeight)%Q in
  let noteH := (keyHeight - 4)%Q in
  Qle_bool noteX gridX && Qle_bool gridX (noteX + noteW)
    && Qle_bool noteY y && Qle_bool y (noteY + noteH).

(** [x < pianoWidth] *)
Definition onPianoKeys (x : Q) : bool := negb (Qle_bool pianoWidth x).

(** The note built by a click on free grid space; [now] is [Date.now()]. *)
Definition newNote (st : State) (x y : Q) (now : Z) : Note.t :=
  let gridX := (x - pianoWidth)%Q in
  let tick := JS.Math_floor (gridX / pixelsPerTick st) in
  let keyIndex := JS.Math_floor (y / keyHeight) in
  let midi := topMidi st - keyIndex in
  let snappedTick := snapToGrid tick 4 in
  Note.mk (JS.toString now) snappedTick (PPQ / 4) midi 80.

(** A click on the keyboard strip only sounds the key; a click on a note
    selects it and starts a drag; a click on free grid space adds a note. *)
Definition handleCanvasMouseDown (x y : Q) (now : Z) (st : State) : State :=
  if onPianoKeys x then st
  else
    let gridX := (x - pianoWidth)%Q in
    match find (hit st gridX y) (notes st) with
    | Some clickedNote =>
        setDragInfo
          (Some (mkDrag true false (Note.id clickedNote) x y
                   (Note.tick clickedNote) (Note.midi clickedNote)
                   (Note.length clickedNote)))
          (setSelected (Some (Note.id clickedNote)) st)
    | None => setNotes (notes st ++ [newNote st x y now]) st
    end.

(** The updater handed to [setNotes] by a drag:
    [note.id === noteId ? { ...note, tick: snappedTick, midi: newMidi } : note] *)
Definition moveNote (noteId : string) (snappedTick newMidi : Z)
    (prevNotes : list Note.t) : list Note.t :=
  map (fun note =>
         if String.eqb (Note.id note) noteId
         then Note.mk (Note.id note) snappedTick (Note.length note)
                newMidi (Note.vel note)
         else note)
      prevNotes.

(** The pitch and the tick a drag asks for, before clamping and snapping. *)
Definition requestedMidi (d : DragInfo) (y : Q) : Z :=
  let deltaY := (y - startY d)%Q in
  let midiDelta := - JS.Math_floor (deltaY / keyHeight) in
  originalMidi d + midiDelta.

Definition requestedTick (st : State) (d : DragInfo) (x : Q) : Z :=
  let deltaX := (x - startX d)%Q in
  let tickDelta := JS.Math_floor (deltaX / pixelsPerTick st) in
  originalTick d + tickDelta.

(** [if (!dragInfo.current?.isDragging) return], then the clamped pitch, the
    clamped and snapped tick, and the update of the dragged note. *)
Definition handleCanvasMouseMove (x y : Q) (st : State) : State :=
  match dragInfo st with
  | None => st
  | Some d =>
      if negb (isDragging d) then st
      else
        let newTick := Z.max 0 (requestedTick st d x) in
        let newMidi := Z.max 21 (Z.min 108 (requestedMidi d y)) in
        let snappedTick := snapToGrid newTick 4 in
        setNotes (moveNote (noteId d) snappedTick newMidi (notes st)) st
  end.

Definition handleCanvasMouseUp (st : State) : State := setDragInfo None st.

(** [Math.sign(e.deltaY) * 3] *)
Definition scrollDelta (deltaY : Q) : Z :=
  match (deltaY ?= 0)%Q with Lt => -3 | Eq => 0 | Gt => 3 end.

Definition handleCanvasWheel (deltaY : Q) (st : State) : State :=
  setScrollOffset
    (Z.max 0 (Z.min (totalKeys - keyCount)
                (scrollOffset st + scrollDelta deltaY))) st.

(** The updater of both deletions: [note.id !== id]. *)
Definition removeNote (id : string) (prevNotes : list Note.t) : list Note.t :=
  filter (fun note => negb (String.eqb (Note.id note) id)) prevNotes.

Definition handleCanvasRightClick (x y : Q) (st : State) : State :=
  if onPianoKeys x then st
  else
    let gridX := (x - pianoWidth)%Q in
    match find (hit st gridX y) (notes st) with
    | Some clickedNote =>
        setSelected None (setNotes (removeNote (Note.id clickedNote) (notes st)) st)
    | None => st
    end.

(** [Delete] / [Backspace]: [selectedRef.current] has to be truthy, which
    for a string means non-empty. *)
Definition handleKeyDelete (st : State) : State :=
  match selectedRef st with
  | Some id =>
      if String.eqb id "" then st
      else setSelected None (setNotes (removeNote id (notes st)) st)
  | None => st
  end.

Definition handleKeyEscape (st : State) : State :=
  setDragInfo None (setSelected None st).

(** *** Import: the scan of [handleFileImport]

    The loop state is [(importedNotes, currentTick)]; [clock i] is the
    reading of [Date.now()] while index [i] is handled. *)
Definition scanByte (midiData : list Z) (clock : nat -> Z)
    (acc : list Note.t * Z) (i : nat) : list Note.t * Z :=
  let byte := nth i midiData 0 in
  if JS.and byte 0xF0 =? 0x90 then
    let note := nth (i + 1) midiData 0 in
    let velocity := nth (i + 2) midiData 0 in
    let importedNotes :=
      if (0 <? velocity) && (21 <=? note) && (note <=? 108)
      then fst acc
             ++ [Note.mk ("imported_" ++ JS.toString (clock i) ++ "_"
                            ++ JS.toString (Z.of_nat i))
                   (snd acc) (PPQ / 4) note velocity]
      else fst acc in
    (importedNotes, snd acc + PPQ / 8)
  else acc.

(** [for (let i = 0; i < midiData.length - 3; i++)] *)
Definition scanIndices (midiData : list Z) : list nat :=
  seq 0 (Z.to_nat (Z.of_nat (List.length midiData) - 3)).

Definition importedNotes (midiData : list Z) (clock : nat -> Z) : list Note.t :=
  fst (fold_left (scanByte midiData clock) (scanIndices midiData) ([], 0)).

Definition handleFileImport (midiData : list Z) (clock : nat -> Z)
    (st : State) : State :=
  match importedNotes midiData clock with
  | [] => st
  | ns => setNotes ns st
  end.

(** *** Playback *)

(** The callback given to [window.setInterval].  Its first parameter is the
    [isPlaying] binding of the render in which [playNotes] ran: the closure
    reads that binding, not the state hook's later value. *)
Definition intervalCallback (isPlaying : bool) (transportSeconds : Q)
    (st : State) : State :=
  if negb isPlaying then st
  else
    let maxTicks := inject_Z (PPQ * 16) in
    let currentTick :=
      (transportSeconds / 60 * inject_Z BPM * inject_Z PPQ)%Q in
    if Qle_bool currentTick maxTicks then setCursorTick currentTick st
    else stopAll st.

(** [(note.tick / PPQ) * (60 / BPM)] *)
Definition noteTime (note : Note.t) : Q :=
  (inject_Z (Note.tick note) / inject_Z PPQ * (60 / inject_Z BPM))%Q.

Definition playNotes (st : State) : State :=
  if isPlaying st then stopAll st
  else
    mkState (notes st) 0 true (zoom st) (scrollOffset st)
      (selectedRef st) (dragInfo st)
      (mkTransport true (map (fun note => (noteTime note, note)) (notes st)))
      (Some (isPlaying st)).

(** One firing of the installed interval, if there is one. *)
Definition timerFires (transportSeconds : Q) (st : State) : State :=
  match timelineRef st with
  | Some captured => intervalCallback captured transportSeconds st
  | None => st
  end.

Definition clearNotes (st : State) : State :=
  if isPlaying st then stopAll (setNotes [] st) else setNotes [] st.

(** [writeMidi(notes, BPM, PPQ)] *)
Definition exportMIDI (st : State) : list Z :=
  Midi.writeMidi (notes st) BPM PPQ.

(** *** The editing session as a sequence of events *)

Inductive Event : Type :=
| MouseDown (x y : Q) (now : Z)
| MouseMove (x y : Q)
| MouseUp
| RightClick (x y : Q)
| Wheel (deltaY : Q)
| KeyDelete
| KeyEscape
| ZoomSlider (z : Q)
| PlayButton
| TimerFires (transportSeconds : Q)
| ClearButton
| FileImport (midiData : list Z) (clock : nat -> Z).

Definition handle (e : Event) (st : State) : State :=
  match e with
  | MouseDown x y now => handleCanvasMouseDown x y now st
  | MouseMove x y => handleCanvasMouseMove x y st
  | MouseUp => handleCanvasMouseUp st
  | RightClick x y => handleCanvasRightClick x y st
  | Wheel deltaY => handleCanvasWheel deltaY st
  | KeyDelete => handleKeyDelete st
  | KeyEscape => handleKeyEscape st
  | ZoomSlider z => setZoom z st
  | PlayButton => playNotes st
  | TimerFires s => timerFires s st
  | ClearButton => clearNotes st
  | FileImport midiData clock => handleFileImport midiData clock st
  end.

Definition run (evs : list Event) (st : State) : State :=
  fold_left (fun s e => handle e s) evs st.

(** The zoom slider: [min 0.5, max 4, step 0.5]. *)
Definition sliderValues : list Q :=
  [1 # 2; 1; 3 # 2; 2; 5 # 2; 3; 7 # 2; 4]%Q.

(** What the browser can deliver: slider positions for the zoom, bytes for
    a file's content.  Everything else is unconstrained. *)
Definition deliverable (e : Event) : Prop :=
  match e with
  | ZoomSlider z => In z sliderValues
  | FileImport midiData _ => Forall (fun b => 0 <= b < 256) midiData
  | _ => True
  end.

(** The readings of [Date.now()] taken by the clicks of a session are
    strictly increasing from [t] on. *)
Fixpoint clockAdvances (t : Z) (evs : list Event) : Prop :=
  match evs with
  | [] => True
  | MouseDown _ _ now :: evs' => t < now /\ clockAdvances now evs'
  | _ :: evs' => clockAdvances t evs'
  end.

(** *** Key names and colours *)

(** The local table of [getNoteFromMidi]. *)
Definition noteNames : list string :=
  ["C"; "C#"; "D"; "D#"; "E"; "F"; "F#"; "G"; "G#"; "A"; "A#"; "B"]%string.

Definition getNoteFromMidi (midi : Z) : string :=
  let octave := midi / 12 - 1 in
  let noteName := JS.at_ noteNames (JS.rem midi 12) in
  (JS.hole noteName ++ JS.toString octave)%string.

(** [[1, 3, 6, 8, 10].includes(midi % 12)] *)
Definition isBlackKey (midi : Z) : bool :=
  let noteIndex := JS.rem midi 12 in
  existsb (Z.eqb noteIndex) [1; 3; 6; 8; 10].

End Canvas.

(** ** The music helpers of the grid editor ([lib/music]) *)

Module Music.

Definition NOTES : list string :=
  ["C"; "C#"; "D"; "D#"; "E"; "F"; "F#"; "G"; "G#"; "A"; "A#"; "B"]%string.

(** An entry of [PIANO_KEYS]: [{ note, type, midiNote }]. *)
Record BaseKey : Type := mkBase
  { base_note : string; base_type : string; base_midiNote : Z }.

Definition PIANO_KEYS : list BaseKey :=
  [ mkBase "C" "white" 60; mkBase "C#" "black" 61; mkBase "D" "white" 62;
    mkBase "D#" "black" 63; mkBase "E" "white" 64; mkBase "F" "white" 65;
    mkBase "F#" "black" 66; mkBase "G" "white" 67; mkBase "G#" "black" 68;
    mkBase "A" "white" 69; mkBase "A#" "black" 70; mkBase "B" "white" 71 ].

(** A generated key: [{ ...key, midiNote, octave, displayName }]. *)
Record Key : Type := mkKey
  { note : string; type : string; midiNote : Z; octave : Z;
    displayName : string }.

(** The body of the inner loop for one [octave]. *)
Definition keysOfOctave (octave : Z) : list Key :=
  map (fun key =>
         mkKey (base_note key) (base_type key)
           (base_midiNote key + (octave - 4) * 12) octave
           (base_note key ++ JS.toString octave))
      PIANO_KEYS.

(** [generatePianoKeys(startOctave = 3, numOctaves = 3)]: the octaves
    [startOctave, ..., startOctave + numOctaves - 1], then [keys.reverse()]. *)
Definition generatePianoKeys (startOctave numOctaves : Z) : list Key :=
  rev (flat_map keysOfOctave
         (map (fun i => startOctave + Z.of_nat i)
            (seq 0 (Z.to_nat numOctaves)))).

Definition midiNoteToNoteName (midiNote : Z) : string :=
  let noteIndex := JS.rem midiNote 12 in
  let octave := midiNote / 12 - 1 in
  (JS.hole (JS.at_ NOTES noteIndex) ++ JS.toString octave)%string.

(** The match of [/^([A-G]#?)(\d+)$/]: the two groups, if the name has a
    letter from A to G, an optional sharp and then digits to its end. *)
Definition isNoteLetter (c : ascii) : bool :=
  (65 <=? nat_of_ascii c)%nat && (nat_of_ascii c <=? 71)%nat.

Definition matchNoteName (noteName : string) : option (string * string) :=
  match noteName with
  | String c rest =>
      if isNoteLetter c then
        match rest with
        | String "#" rest' =>
            match JS.parseDigits rest' with
            | Some _ => Some (String c "#", rest')
            | None => None
            end
        | _ =>
            match JS.parseDigits rest with
            | Some _ => Some (String c "", rest)
            | None => None
            end
        end
      else None
  | EmptyString => None
  end.

Definition noteNameToMidiNote (noteName : string) : Z :=
  match matchNoteName noteName with
  | None => 60
  | Some (note, octaveStr) =>
      match JS.parseDigits octaveStr with
      | None => 60
      | Some octave =>
          let noteIndex := JS.indexOf NOTES note in
          (octave + 1) * 12 + noteIndex
      end
  end.

End Music.

(** ** The grid editor component ([addNote], [removeNote]) *)

Module Grid.

(** [interface Note] of [types/index.ts] *)
Record Note : Type := mkNote
  { id : string; pitch : Z; start : Z; duration : Z; velocity : Z }.

(** [addNote(pitch, start, duration = 1)]; [now] is [Date.now()] and [rnd]
    the text of [Math.random()] in the template string. *)
Definition addNote (pitch start duration : Z) (now : Z) (rnd : string)
    (notes : list Note) : list Note :=
  notes ++ [mkNote ("note-" ++ JS.toString now ++ "-" ++ rnd)
              pitch start duration 80].

Definition removeNote (noteId : string) (notes : list Note) : list Note :=
  filter (fun note => negb (String.eqb (id note) noteId)) notes.

(** [clearAll] *)
Definition clearAll (notes : list Note) : list Note := [].

(** The store operations a session of grid clicks performs. *)
Inductive Op : Type :=
| Add (pitch start duration now : Z) (rnd : string)
| Remove (noteId : string)
| ClearAll.

Definition apply (op : Op) (notes : list Note) : list Note :=
  match op with
  | Add pitch start duration now rnd =>
      addNote pitch start duration now rnd notes
  | Remove noteId => removeNote noteId notes
  | ClearAll => clearAll notes
  end.

Definition run (ops : list Op) (notes : list Note) : list Note :=
  fold_left (fun ns op => apply op ns) ops notes.

(** The readings of [Date.now()] taken by the adds are strictly increasing
    from [t] on. *)
Fixpoint clockAdvances (t : Z) (ops : list Op) : Prop :=
  match ops with
  | [] => True
  | Add _ _ _ now _ :: ops' => t < now /\ clockAdvances now ops'
  | _ :: ops' => clockAdvances t ops'
  end.

End Grid.

(** ** The grid editor component: clicks and playback

    The handlers of the grid editor on the fields of [PianoRollState] they
    read or write ([gridSize] and [selectedNotes] are never touched).  The
    state carries [playIntervalRef] and the browser's table of intervals
    that are set and not yet cleared, with the handle [setInterval] returns
    next.  A state updater passed to [setState] is applied once to the
    state it is given; the tone a handler hands to [playNote] is kept only
    for the interval callback. *)

Module Editor.

Definition GRID_WIDTH : Z := 32.

(** [generatePianoKeys(2, 3)] *)
Definition pianoKeys : list Music.Key := Music.generatePianoKeys 2 3.

(** A live interval: its handle and the [stepDuration] its callback
    captured. *)
Record Interval : Type := mkInterval { handle : Z; stepDuration : Q }.

Record State : Type := mkState
  { notes : list Grid.Note;
    isPlaying : bool;
    currentPosition : Z;
    bpm : Z;
    playIntervalRef : option Z;
    intervals : list Interval;
    nextHandle : Z }.

Definition initial : State := mkState [] false 0 120 None [] 1.

Definition setNotes (ns : list Grid.Note) (prev : State) : State :=
  mkState ns (isPlaying prev) (currentPosition prev) (bpm prev)
    (playIntervalRef prev) (intervals prev) (nextHandle prev).

Definition clearInterval (h : Z) (table : list Interval) : list Interval :=
  filter (fun iv => negb (handle iv =? h)) table.

(** A call [playNote(pitch, duration)]: the pitch and the seconds. *)
Definition Sound : Type := (Z * Q)%type.

(** The callback [togglePlayback] hands to [setInterval]. *)
Definition intervalCallback (step : Q) (current : State)
    : list Sound * State :=
  let nextPosition := JS.rem (currentPosition current + 1) GRID_WIDTH in
  let notesToPlay :=
    filter (fun note => Grid.start note =? currentPosition current)
      (notes current) in
  (map (fun note =>
          (Grid.pitch note,
           (inject_Z (Grid.duration note) * step / 1000)%Q)) notesToPlay,
   mkState (notes current) (isPlaying current) nextPosition (bpm current)
     (playIntervalRef current) (intervals current) (nextHandle current)).

Definition togglePlayback (prev : State) : State :=
  let newIsPlaying := negb (isPlaying prev) in
  if newIsPlaying then
    let step := (60 / inject_Z (bpm prev) / 4 * 1000)%Q in
    mkState (notes prev) newIsPlaying (currentPosition prev) (bpm prev)
      (Some (nextHandle prev))
      (intervals prev ++ [mkInterval (nextHandle prev) step])
      (nextHandle prev + 1)
  else
    match playIntervalRef prev with
    | Some h =>
        mkState (notes prev) newIsPlaying (currentPosition prev) (bpm prev)
          None (clearInterval h (intervals prev)) (nextHandle prev)
    | None =>
        mkState (notes prev) newIsPlaying (currentPosition prev) (bpm prev)
          None (intervals prev) (nextHandle prev)
    end.

Definition stopPlayback (prev : State) : State :=
  match playIntervalRef prev with
  | Some h =>
      mkState (notes prev) false 0 (bpm prev)
        None (clearInterval h (intervals prev)) (nextHandle prev)
  | None =>
      mkState (notes prev) false 0 (bpm prev)
        None (intervals prev) (nextHandle prev)
  end.

(** [handleGridClick(x, y)]; [now] and [rnd] are what [addNote] reads from
    [Date.now()] and [Math.random()] if it is called. *)
Definition handleGridClick (x y : Z) (now : Z) (rnd : string) (st : State)
    : State :=
  match option_map Music.midiNote (JS.at_ pianoKeys y) with
  | Some pitch =>
      if pitch =? 0 then st
      else
        match find (fun note =>
                      (Grid.pitch note =? pitch) && (Grid.start note =? x))
                (notes st) with
        | Some existingNote =>
            setNotes (Grid.removeNote (Grid.id existingNote) (notes st)) st
        | None => setNotes (Grid.addNote pitch x 1 now rnd (notes st)) st
        end
  | None => st
  end.

Definition applySuggestion (suggestion : list Grid.Note) (prev : State)
    : State :=
  setNotes (notes prev ++ suggestion) prev.

Definition clearAll (prev : State) : State :=
  setNotes (Grid.clearAll (notes prev)) prev.

(** One firing of the interval with handle [h], if it is still live. *)
Definition intervalFires (h : Z) (st : State) : list Sound * State :=
  match find (fun iv => handle iv =? h) (intervals st) with
  | Some iv => intervalCallback (stepDuration iv) st
  | None => ([], st)
  end.

Inductive Event : Type :=
| GridClick (x y now : Z) (rnd : string)
| TogglePlayback
| StopPlayback
| IntervalFires (h : Z)
| ClearAll
| ApplySuggestion (suggestion : list Grid.Note).

Definition handle_event (ev : Event) (st : State) : State :=
  match ev with
  | GridClick x y now rnd => handleGridClick x y now rnd st
  | TogglePlayback => togglePlayback st
  | StopPlayback => stopPlayback st
  | IntervalFires h => snd (intervalFires h st)
  | ClearAll => clearAll st
  | ApplySuggestion suggestion => applySuggestion suggestion st
  end.

Definition run (evs : list Event) (st : State) : State :=
  fold_left (fun s ev => handle_event ev s) evs st.

(** [k] firings of the interval callback in a row. *)
Fixpoint ticks (step : Q) (k : nat) (st : State)
    : list (list Sound) * State :=
  match k with
  | O => ([], st)
  | S k' =>
      let (sounds, st') := intervalCallback step st in
      let (rest, st'') := ticks step k' st' in
      (sounds :: rest, st'')
  end.

End Editor.

(** ** src/src/lib/ai-suggestions.ts

    [class AINoteSuggester].  Pitches, starts and durations are integers;
    the velocity of a suggested note need not be one.  The readings of
    [Date.now()] and [Math.random()] a loop takes are given per loop index
    ([now i], [rnd i]).  [Array.prototype.sort] works on the array it is
    called on, so [getLastNotes] and [generateSuggestions] also return the
    caller's array as they leave it. *)

Module Suggester.

(** [interface Note] *)
Record Note : Type := mkNote
  { id : string; pitch : Z; start : Z; duration : Z; velocity : Q }.

(** [interface AISuggestion] *)
Record AISuggestion : Type := mkSuggestion
  { notes : list Note; confidence : Q; style : string }.

Definition MAJOR_SCALE : list Z := [0; 2; 4; 5; 7; 9; 11].
Definition MINOR_SCALE : list Z := [0; 2; 3; 5; 7; 8; 10].

(** [Math.max(a, b)] *)
Definition Math_max (a b : Q) : Q := if Qle_bool a b then b else a.

(** [l.indexOf(x)] on an array of numbers. *)
Fixpoint indexOfFrom (i : Z) (l : list Z) (x : Z) : Z :=
  match l with
  | [] => -1
  | y :: l' => if y =? x then i else indexOfFrom (i + 1) l' x
  end.

Definition indexOf (l : list Z) (x : Z) : Z := indexOfFrom 0 l x.

(** [l[i]] where the code has made sure that [i] is an index of [l]. *)
Definition at_ (l : list Z) (i : Z) : Z := nth (Z.to_nat i) l 0.

(** The elements of an array with their indices, as [forEach] visits
    them. *)
Definition indexed {A : Type} (l : list A) : list (nat * A) :=
  combine (seq 0 (List.length l)) l.

(** [l.slice(from)] *)
Definition slice {A : Type} (from : Z) (l : list A) : list A :=
  let len := Z.of_nat (List.length l) in
  let k := if from <? 0 then Z.max (len + from) 0 else Z.min from len in
  skipn (Z.to_nat k) l.

(** [notes.sort((a, b) => a.start - b.start)]; the sort is stable. *)
Fixpoint insert (a : Note) (l : list Note) : list Note :=
  match l with
  | [] => [a]
  | b :: l' => if start a - start b <=? 0 then a :: b :: l'
               else b :: insert a l'
  end.

Fixpoint sort (l : list Note) : list Note :=
  match l with
  | [] => []
  | a :: l' => insert a (sort l')
  end.

(** [getLastNotes(notes, count)]: the slice, and [notes] after the call. *)
Definition getLastNotes (notes : list Note) (count : Z)
    : list Note * list Note :=
  let sorted := sort notes in
  (slice (- count) sorted, sorted).

(** *** The object [noteCounts]

    An object whose keys are numbers, as the list of its entries in the
    order [Object.entries] gives them: the keys that are array indices
    (here: not negative) in ascending order, then the other keys in the
    order they were created. *)
Definition Obj : Type := list (Z * Z).

Fixpoint get (o : Obj) (k : Z) : option Z :=
  match o with
  | [] => None
  | (k', v) :: o' => if k' =? k then Some v else get o' k
  end.

(** [o[k] = v] *)
Fixpoint set (k v : Z) (o : Obj) : Obj :=
  match o with
  | [] => [(k, v)]
  | (k', v') :: o' =>
      if k' =? k then (k, v) :: o'
      else if (0 <=? k) && ((k' <? 0) || (k <? k')) then (k, v) :: o
      else (k', v') :: set k v o'
  end.

(** [x || 0] for a count or [undefined]. *)
Definition orZero (x : option Z) : Z :=
  match x with
  | Some v => if v =? 0 then 0 else v
  | None => 0
  end.

(** [x > y]; a comparison with [undefined] is false. *)
Definition gt (x y : option Z) : bool :=
  match x, y with
  | Some a, Some b => b <? a
  | _, _ => false
  end.

(** [l.reduce(f)] without an initial value; it throws on an empty array. *)
Definition reduce {A : Type} (f : A -> A -> A) (l : list A) : option A :=
  match l with
  | [] => None
  | a :: l' => Some (fold_left f l' a)
  end.

(** The body of the [forEach] that counts. *)
Definition countNote (noteCounts : Obj) (note : Note) : Obj :=
  let pitchClass := JS.rem (pitch note) 12 in
  set pitchClass (orZero (get noteCounts pitchClass) + 1) noteCounts.

(** [analyzeKey(notes)]: [{ key, isMinor }], or [None] where the reduction
    throws. *)
Definition analyzeKey (notes : list Note) : option (Z * bool) :=
  if Z.of_nat (List.length notes) =? 0 then Some (60, false)
  else
    let noteCounts := fold_left countNote notes [] in
    match reduce (fun a b =>
                    if gt (get noteCounts (fst a)) (get noteCounts (fst b))
                    then a else b) noteCounts with
    | None => None
    | Some mostCommonNote =>
        let key := fst mostCommonNote in
        let minorThird := JS.rem (key + 3) 12 in
        let majorThird := JS.rem (key + 4) 12 in
        let isMinor :=
          orZero (get noteCounts majorThird)
          <? orZero (get noteCounts minorThird) in
        Some (key, isMinor)
    end.

Definition scaleOf (isMinor : bool) : list Z :=
  if isMinor then MINOR_SCALE else MAJOR_SCALE.

Definition generateMelodyPattern (lastNotes : list Note) (key : Z)
    (isMinor : bool) (nextPosition : Z) (now : nat -> Z) (rnd : nat -> Q)
    : list Note :=
  let scale := scaleOf isMinor in
  match rev lastNotes with
  | [] =>
      let rootNote := 60 + key in
      [mkNote ("ai-" ++ JS.toString (now 0%nat) ++ "-1") rootNote
         nextPosition 1 80]
  | lastNote :: _ =>
      let lastPitchClass := JS.rem (pitch lastNote) 12 in
      let currentScaleIndex :=
        indexOf scale (JS.rem (lastPitchClass - key + 12) 12) in
      let possibleMoves :=
        filter (fun index =>
                  (0 <=? index) && (index <? Z.of_nat (List.length scale)))
          [currentScaleIndex + 1; currentScaleIndex - 1;
           currentScaleIndex + 2; currentScaleIndex - 2; 0] in
      let suggestions :=
        flat_map
          (fun '(i, scaleIndex) =>
             let interval := at_ scale scaleIndex in
             let newPitch := pitch lastNote / 12 * 12 + key + interval in
             if (48 <=? newPitch) && (newPitch <=? 84) then
               [mkNote ("ai-" ++ JS.toString (now i) ++ "-"
                          ++ JS.toString (Z.of_nat i))
                  newPitch nextPosition 1
                  (Math_max 60 (velocity lastNote - 10 + rnd i * 20))]
             else [])
          (indexed possibleMoves) in
      firstn 3 suggestions
  end.

(** The notes that sound at [nextPosition]. *)
Definition soundsAt (nextPosition : Z) (note : Note) : bool :=
  (start note <=? nextPosition)
  && (nextPosition <? start note + duration note).

(** The body of the [forEach] of [generateHarmonyPattern]: what it pushes
    for the [i]-th current note. *)
Definition harmonyOf (scale : list Z) (key nextPosition : Z)
    (now : nat -> Z) (i : nat) (note : Note) : list Note :=
  let pitchClass := JS.rem (pitch note) 12 in
  let scaleIndex := indexOf scale (JS.rem (pitchClass - key + 12) 12) in
  if scaleIndex =? -1 then []
  else
    let thirdIndex := JS.rem (scaleIndex + 2) (Z.of_nat (List.length scale)) in
    let thirdPitch := pitch note / 12 * 12 + key + at_ scale thirdIndex in
    if negb (thirdPitch =? pitch note)
       && (48 <=? thirdPitch) && (thirdPitch <=? 84) then
      [mkNote ("ai-harmony-" ++ JS.toString (now i) ++ "-"
                 ++ JS.toString (Z.of_nat i))
         thirdPitch nextPosition (duration note)
         (Math_max 50 (velocity note - 20))]
    else [].

Definition generateHarmonyPattern (notes : list Note) (key : Z)
    (isMinor : bool) (nextPosition : Z) (now : nat -> Z) : list Note :=
  let scale := scaleOf isMinor in
  let currentNotes := filter (soundsAt nextPosition) notes in
  flat_map (fun '(i, note) => harmonyOf scale key nextPosition now i note)
    (indexed currentNotes).

(** [Math.max(...l)] of a non-empty array. *)
Definition maximum (l : list Z) : Z :=
  match l with
  | [] => 0
  | a :: l' => fold_left Z.max l' a
  end.

(** [generateSuggestions(notes, currentPosition)]: the suggestions and
    [notes] after the call, or [None] where the call throws. *)
Definition generateSuggestions (notes : list Note) (currentPosition : Z)
    (nowM : nat -> Z) (rnd : nat -> Q) (nowH : nat -> Z)
    : option (list AISuggestion * list Note) :=
  let (lastNotes, notes) := getLastNotes notes 4 in
  match analyzeKey notes with
  | None => None
  | Some (key, isMinor) =>
      let nextPosition :=
        Z.max (currentPosition + 1)
          (if 0 <? Z.of_nat (List.length notes)
           then maximum (map (fun n => start n + duration n) notes)
           else 0) in
      let melodySuggestions :=
        generateMelodyPattern lastNotes key isMinor nextPosition nowM rnd in
      let harmonySuggestions :=
        generateHarmonyPattern notes key isMinor currentPosition nowH in
      Some
        ((if 0 <? Z.of_nat (List.length melodySuggestions)
          then [mkSuggestion melodySuggestions (8 # 10) "melody"] else [])
         ++ (if 0 <? Z.of_nat (List.length harmonySuggestions)
             then [mkSuggestion harmonySuggestions (7 # 10) "harmony"]
             else []),
         notes)
  end.

End Suggester.

(** * Vocabulary of the properties *)

(** ** Variable-length quantities *)

(** [ds] are the base-128 digits of [v], most significant first, without a
    leading zero digit unless [v] has a single one. *)
Definition digitsOf (v : Z) (ds : list Z) : Prop :=
  let n := Z.of_nat (List.length ds) in
  1 <= n /\ v < 128 ^ n /\ (n = 1 \/ 128 ^ (n - 1) <= v) /\
  forall i : nat, (i < List.length ds)%nat ->
    nth i ds 0 = (v / 128 ^ (n - 1 - Z.of_nat i)) mod 128.

(** [bs] is the variable-length quantity of [delta]: one byte per 7-bit
    group, most significant group first, as many groups as [delta] needs and
    at least one, bit 7 set on every byte but the last. *)
Definition encodesVLQ (delta : Z) (bs : list Z) : Prop :=
  let n := Z.of_nat (List.length bs) in
  1 <= n /\ delta < 128 ^ n /\ (n = 1 \/ 128 ^ (n - 1) <= delta) /\
  forall i : nat, (i < List.length bs)%nat ->
    nth i bs 0 =
    (delta / 128 ^ (n - 1 - Z.of_nat i)) mod 128
    + (if Nat.eqb i (List.length bs - 1) then 0 else 128).

(** ** The import scan *)

(** Index [i] of the buffer carries a note-on status byte. *)
Definition noteOnAt (midiData : list Z) (i : nat) : bool :=
  JS.and (nth i midiData 0) 0xF0 =? 0x90.

(** Index [i] carries a note-on that the scanner accepts. *)
Definition acceptedAt (midiData : list Z) (i : nat) : bool :=
  noteOnAt midiData i
  && ((0 <? nth (i + 2) midiData 0) && (21 <=? nth (i + 1) midiData 0)
      && (nth (i + 1) midiData 0 <=? 108)).

(** Number of note-on status bytes in front of index [i]. *)
Definition noteOnsBefore (midiData : list Z) (i : nat) : nat :=
  List.length (filter (noteOnAt midiData) (seq 0 i)).

(** The note the scanner builds at an accepted index. *)
Definition noteAt (midiData : list Z) (clock : nat -> Z) (i : nat) : Note.t :=
  Note.mk ("imported_" ++ JS.toString (clock i) ++ "_"
             ++ JS.toString (Z.of_nat i))
    (Canvas.PPQ / 8 * Z.of_nat (noteOnsBefore midiData i)) (Canvas.PPQ / 4)
    (nth (i + 1) midiData 0) (nth (i + 2) midiData 0).

(** The k-th accepted event of a buffer starts at [k] times the advance. *)
Definition advancesPerAccepted (midiData : list Z) (clock : nat -> Z) : Prop :=
  forall (k : nat) (note : Note.t),
    nth_error (Canvas.importedNotes midiData clock) k = Some note ->
    Note.tick note = Z.of_nat k * (Canvas.PPQ / 8).

(** ** Pitches and ticks *)

(** [result] is [requested] clamped into [lo, hi]. *)
Definition clampedTo (lo hi requested result : Z) : Prop :=
  result = Z.max lo (Z.min hi requested)
  /\ (requested < lo -> result = lo)
  /\ (hi < requested -> result = hi)
  /\ (lo <= requested <= hi -> result = requested).

(** A session that scrolls to the top of the keyboard, draws a note on the
    highest key (pitch 108) and grabs it. *)
Definition grabbedTopNote : Canvas.State :=
  Canvas.run
    (repeat (Canvas.Wheel (-1)) 8
       ++ [Canvas.MouseDown 250 5 1000; Canvas.MouseDown 250 5 1001])
    Canvas.initial.

(** [t] is a nonnegative multiple of [g]. *)
Definition onGrid (g t : Z) : Prop := exists k, 0 <= k /\ t = k * g.

(** The invariant of a session: the zoom is positive and every stored
    note starts on the eighth-of-a-quarter grid. *)
Definition gridInvariant (st : Canvas.State) : Prop :=
  (0 < Canvas.zoom st)%Q
  /\ Forall (fun n => onGrid (Canvas.PPQ / 8) (Note.tick n)) (Canvas.notes st).

(** ** How one event changes the store *)

(** [StoreStep st e ns]: handling [e] in [st] may leave [ns] as the store.
    These are all the ways the handlers write [notes]. *)
Inductive StoreStep (st : Canvas.State) : Canvas.Event -> list Note.t -> Prop :=
| StoreKept (e : Canvas.Event) :
    StoreStep st e (Canvas.notes st)
| StoreAdded (x y : Q) (now : Z) :
    Canvas.onPianoKeys x = false ->
    StoreStep st (Canvas.MouseDown x y now)
      (Canvas.notes st ++ [Canvas.newNote st x y now])
| StoreMoved (x y : Q) (d : Canvas.DragInfo) :
    Canvas.dragInfo st = Some d ->
    Canvas.isDragging d = true ->
    StoreStep st (Canvas.MouseMove x y)
      (Canvas.moveNote (Canvas.noteId d)
         (Canvas.snapToGrid (Z.max 0 (Canvas.requestedTick st d x)) 4)
         (Z.max 21 (Z.min 108 (Canvas.requestedMidi d y)))
         (Canvas.notes st))
| StoreRemoved (e : Canvas.Event) (id : string) :
    StoreStep st e (Canvas.removeNote id (Canvas.notes st))
| StoreCleared :
    StoreStep st Canvas.ClearButton []
| StoreImported (midiData : list Z) (clock : nat -> Z) :
    StoreStep st (Canvas.FileImport midiData clock)
      (Canvas.importedNotes midiData clock).

(** ** Playback *)

(** The interval installed in a state, if any, captured [isPlaying = false]. *)
Definition staleInterval (st : Canvas.State) : Prop :=
  Canvas.timelineRef st = None \/ Canvas.timelineRef st = Some false.

(** ** Identifiers *)

(** No ["-"] occurs in [s]. *)
Fixpoint noDash (s : string) : bool :=
  match s with
  | EmptyString => true
  | String c s' => negb (Ascii.eqb c "-") && noDash s'
  end.

(** The id the grid editor builds. *)
Definition gridId (now : Z) (rnd : string) : string :=
  ("note-" ++ JS.toString now ++ "-" ++ rnd)%string.

(** An id the canvas store can hold once the clock has reached [t]: the
    reading of an earlier click, or an import id. *)
Definition storedId (t : Z) (s : string) : Prop :=
  (exists u, u <= t /\ s = JS.toString u)
  \/ (exists r, s = ("imported_" ++ r)%string).

Definition idsStored (t : Z) (st : Canvas.State) : Prop :=
  Forall (fun n => storedId t (Note.id n)) (Canvas.notes st).

(** The clock reading after the clicks of [evs], starting from [t]. *)
Fixpoint lastReading (t : Z) (evs : list Canvas.Event) : Z :=
  match evs with
  | [] => t
  | Canvas.MouseDown _ _ now :: evs' => lastReading now evs'
  | _ :: evs' => lastReading t evs'
  end.

(** The same for the grid store: ids are [gridId u r] of nonnegative earlier
    readings. *)
Definition storedGridId (t : Z) (s : string) : Prop :=
  exists u r, 0 <= u <= t /\ s = gridId u r.

Definition gridIdsStored (t : Z) (ns : list Grid.Note) : Prop :=
  Forall (fun n => storedGridId t (Grid.id n)) ns.

Fixpoint lastGridReading (t : Z) (ops : list Grid.Op) : Z :=
  match ops with
  | [] => t
  | Grid.Add _ _ _ now _ :: ops' => lastGridReading now ops'
  | _ :: ops' => lastGridReading t ops'
  end.

(** ** Reading the exported format back *)

(** The value of a big-endian byte string. *)
Definition beValue (bs : list Z) : Z :=
  fold_left (fun acc b => acc * 256 + b) bs 0.

(** A reader of variable-length quantities: seven bits per byte, the last
    byte is the one without bit 7. *)
Fixpoint readVarLen (acc : Z) (bs : list Z) : option (Z * list Z) :=
  match bs with
  | [] => None
  | b :: bs' =>
      if b <? 128 then Some (acc * 128 + b, bs')
      else readVarLen (acc * 128 + (b - 128)) bs'
  end.

(** A reader of one event body: a meta event [FF type len data...] or a
    channel event [8n/9n data data].  It returns the event's bytes and what
    follows them. *)
Definition readEvent (bs : list Z) : option (list Z * list Z) :=
  match bs with
  | status :: rest =>
      if status =? 0xFF then
        match rest with
        | type :: len :: data =>
            if Z.of_nat (List.length data) <? len then None
            else Some (status :: type :: len :: firstn (Z.to_nat len) data,
                       skipn (Z.to_nat len) data)
        | _ => None
        end
      else if (Z.land status 0xF0 =? 0x80) || (Z.land status 0xF0 =? 0x90) then
        match rest with
        | d1 :: d2 :: rest' => Some ([status; d1; d2], rest')
        | _ => None
        end
      else None
  | [] => None
  end.

(** A reader of a track's event stream: delta, event, delta, event, ...
    Every event comes out with its absolute tick, [tick] being the tick
    reached so far. *)
Fixpoint readTrack (fuel : nat) (tick : Z) (bs : list Z)
    : option (list (Z * list Z)) :=
  match bs with
  | [] => Some []
  | _ =>
      match fuel with
      | O => None
      | S fuel' =>
          match readVarLen 0 bs with
          | None => None
          | Some (delta, rest) =>
              match readEvent rest with
              | None => None
              | Some (ev, rest') =>
                  option_map (cons (tick + delta, ev))
                    (readTrack fuel' (tick + delta) rest')
              end
          end
      end
  end.

(** The order of the writer's sort. *)
Definition tickLe (a b : Midi.Event) : Prop := Midi.ev_tick a <= Midi.ev_tick b.

(** The bytes the [events.forEach] loop appends for the events [l] when the
    previous event was at tick [t]. *)
Fixpoint encodeAll (t : Z) (l : list Midi.Event) : list Z :=
  match l with
  | [] => []
  | ev :: l' =>
      Midi.variableLength (Midi.ev_tick ev - t) ++ tl (Midi.ev_bytes ev)
        ++ encodeAll (Midi.ev_tick ev) l'
  end.

(** An event as a reader sees it: absolute tick and bytes after the delta. *)
Definition timed (ev : Midi.Event) : Z * list Z :=
  (Midi.ev_tick ev, tl (Midi.ev_bytes ev)).

(** A note the writer can time: it starts at a nonnegative tick and ends
    below 2^31. *)
Definition timeable (n : Note.t) : Prop :=
  0 <= Note.tick n /\ 0 <= Note.length n
  /\ Note.tick n + Note.length n < 2 ^ 31.

(** An event whose bytes after the delta are bytes and are read back as one
    event, whatever follows. *)
Definition readableEvent (ev : Midi.Event) : Prop :=
  Forall (fun b => 0 <= b < 256) (tl (Midi.ev_bytes ev))
  /\ forall rest,
       readEvent (tl (Midi.ev_bytes ev) ++ rest)
       = Some (tl (Midi.ev_bytes ev), rest).

(** Events in writing order after tick [t]: readable, each at most 2^31 - 1
    ticks after the one before. *)
Fixpoint chained (t : Z) (l : list Midi.Event) : Prop :=
  match l with
  | [] => True
  | ev :: l' =>
      0 <= Midi.ev_tick ev - t < 2 ^ 31 /\ readableEvent ev
      /\ chained (Midi.ev_tick ev) l'
  end.

(** ** The canvas session *)

(** Pointer events carry a position inside the canvas element. *)
Definition insideCanvas (e : Canvas.Event) : Prop :=
  match e with
  | Canvas.MouseDown x y _ | Canvas.MouseMove x y | Canvas.RightClick x y =>
      (0 <= x)%Q /\ (x < Canvas.canvasWidth)%Q
      /\ (0 <= y)%Q /\ (y < Canvas.canvasHeight)%Q
  | _ => True
  end.

(** The scroll offset keeps the 36 visible keys inside the 88 keys. *)
Definition scrollInRange (st : Canvas.State) : Prop :=
  0 <= Canvas.scrollOffset st <= Canvas.totalKeys - Canvas.keyCount.

(** A note as the canvas editor makes them. *)
Definition editorNote (n : Note.t) : Prop :=
  21 <= Note.midi n <= 108
  /\ Note.length n = Canvas.PPQ / 4
  /\ 0 < Note.vel n < 256.


(** ** Rows of the grid editor *)

(** The keys pushed so far, after [n] rounds of the outer loop, reversed. *)
Definition keysAfter (startOctave : Z) (n : nat) : list Music.Key :=
  rev (flat_map Music.keysOfOctave
         (map (fun i => startOctave + Z.of_nat i) (seq 0 n))).

(** What one key record of the editor's rows says, against the pitch it
    carries. *)
Definition keyAgrees (k : Music.Key) : Prop :=
  Music.displayName k = Music.midiNoteToNoteName (Music.midiNote k)
  /\ Music.note k = JS.hole (JS.at_ Music.NOTES (Music.midiNote k mod 12))
  /\ Music.octave k = Music.midiNote k / 12 - 1
  /\ Canvas.getNoteFromMidi (Music.midiNote k) = Music.displayName k
  /\ (Music.type k = "black"%string <->
      Canvas.isBlackKey (Music.midiNote k) = true)
  /\ (Music.type k = "white"%string <->
      Canvas.isBlackKey (Music.midiNote k) = false).

(** ** The grid editor session *)

Definition cellOf (n : Grid.Note) : Z * Z := (Grid.pitch n, Grid.start n).

(** Some note of [ns] sits in the cell of [pitch] at step [x]. *)
Definition occupied (pitch x : Z) (ns : list Grid.Note) : bool :=
  existsb (fun note => (Grid.pitch note =? pitch) && (Grid.start note =? x))
    ns.

Definition oneNotePerCell (ns : list Grid.Note) : Prop :=
  NoDup (map cellOf ns).

(** A note as a click on the grid makes it. *)
Definition clickedNote (n : Grid.Note) : Prop :=
  36 <= Grid.pitch n <= 71 /\ Grid.duration n = 1 /\ Grid.velocity n = 80.

(** Every event but the application of a suggestion. *)
Definition userEdit (ev : Editor.Event) : Prop :=
  match ev with
  | Editor.ApplySuggestion _ => False
  | _ => True
  end.


(** The tones of the notes that start at step [pos]. *)
Definition soundsAt (step : Q) (pos : Z) (ns : list Grid.Note)
    : list Editor.Sound :=
  map (fun note =>
         (Grid.pitch note, (inject_Z (Grid.duration note) * step / 1000)%Q))
    (filter (fun note => Grid.start note =? pos) ns).

Definition setPosition (pos : Z) (st : Editor.State) : Editor.State :=
  Editor.mkState (Editor.notes st) (Editor.isPlaying st) pos (Editor.bpm st)
    (Editor.playIntervalRef st) (Editor.intervals st) (Editor.nextHandle st).

(** The test of [find] in [handleGridClick]. *)
Definition inCell (pitch x : Z) (note : Grid.Note) : bool :=
  (Grid.pitch note =? pitch) && (Grid.start note =? x).

(** ** The suggester *)

(** The pitch [p] lies on the major or minor scale of [key]. *)
Definition inScale (isMinor : bool) (key p : Z) : Prop :=
  In ((p - key) mod 12) (Suggester.scaleOf isMinor).

(** [s] is the harmony note of [n]: in the octave of [n] counted from
    [key], two scale degrees above the degree [d] of [n], wrapping round
    after the seventh. *)
Definition thirdAbove (isMinor : bool) (key : Z) (n s : Suggester.Note)
    : Prop :=
  exists d, 0 <= d < 7
    /\ Suggester.at_ (Suggester.scaleOf isMinor) d
       = JS.rem (JS.rem (Suggester.pitch n) 12 - key + 12) 12
    /\ Suggester.pitch s
       = Suggester.pitch n / 12 * 12 + key
         + Suggester.at_ (Suggester.scaleOf isMinor) ((d + 2) mod 7).

Definition harmonyId (now : nat -> Z) (i : nat) : string :=
  ("ai-harmony-" ++ JS.toString (now i) ++ "-"
     ++ JS.toString (Z.of_nat i))%string.

(** What [generateHarmonyPattern] says about a note [s] it returns. *)
Definition harmonyNote (notes : list Suggester.Note) (key : Z)
    (isMinor : bool) (nextPosition : Z) (s : Suggester.Note) : Prop :=
  Suggester.start s = nextPosition
  /\ 48 <= Suggester.pitch s <= 84
  /\ (50 <= Suggester.velocity s)%Q
  /\ inScale isMinor key (Suggester.pitch s)
  /\ exists n, In n notes
       /\ Suggester.start n <= nextPosition
          < Suggester.start n + Suggester.duration n
       /\ Suggester.duration s = Suggester.duration n
       /\ Suggester.pitch s <> Suggester.pitch n
       /\ Suggester.velocity s
          = Suggester.Math_max 50 (Suggester.velocity n - 20)
       /\ thirdAbove isMinor key n s.

(** How many notes of [notes] have pitch class [c] (as [%] computes
    it). *)
Definition occurrences (c : Z) (notes : list Suggester.Note) : Z :=
  Z.of_nat
    (List.length
       (filter (fun n => JS.rem (Suggester.pitch n) 12 =? c) notes)).

(** The order of two keys of an object, the first listed before the
    second. *)
Definition keyOrder (k k' : Z) : Prop :=
  k <> k' /\ (0 <= k' -> 0 <= k < k').

Definition ordered (o : Suggester.Obj) : Prop :=
  StronglySorted keyOrder (map fst o).

(** The object holds the counts of the notes [seen]. *)
Definition counts (o : Suggester.Obj) (seen : list Suggester.Note) : Prop :=
  forall c, Suggester.get o c
            = if occurrences c seen =? 0 then None
              else Some (occurrences c seen).

Definition startLe (a b : Suggester.Note) : Prop :=
  Suggester.start a <= Suggester.start b.

(** A note of a melody suggestion, against the store [notes] and the
    cursor [cur] the suggestion was asked for: it starts after the cursor
    and not before any stored note has ended. *)
Definition melodyNote (notes : list Suggester.Note) (cur : Z)
    (s : Suggester.Note) : Prop :=
  cur < Suggester.start s
  /\ Forall (fun n => Suggester.start n + Suggester.duration n
                      <= Suggester.start s) notes
  /\ Suggester.duration s = 1
  /\ (60 <= Suggester.velocity s)%Q.

Definition melodySuggestion (notes : list Suggester.Note) (cur : Z)
    (sg : Suggester.AISuggestion) : Prop :=
  Suggester.style sg = "melody"%string
  /\ Suggester.confidence sg = (8 # 10)%Q
  /\ Suggester.notes sg <> []
  /\ (List.length (Suggester.notes sg) <= 3)%nat
  /\ Forall (melodyNote notes cur) (Suggester.notes sg)
  /\ (notes <> [] ->
      Forall (fun s => 48 <= Suggester.pitch s <= 84) (Suggester.notes sg)).

Definition harmonySuggestion (notes : list Suggester.Note) (cur : Z)
    (sg : Suggester.AISuggestion) : Prop :=
  Suggester.style sg = "harmony"%string
  /\ Suggester.confidence sg = (7 # 10)%Q
  /\ Suggester.notes sg <> []
  /\ Forall (fun s => Suggester.start s = cur
                      /\ 48 <= Suggester.pitch s <= 84
                      /\ exists n, In n notes
                           /\ Suggester.start n <= cur
                              < Suggester.start n + Suggester.duration n
                           /\ Suggester.duration s = Suggester.duration n
                           /\ Suggester.pitch s <> Suggester.pitch n)
       (Suggester.notes sg).

(** The suggestion for an empty store. *)
Definition firstSuggestion (cur : Z) (nowM : nat -> Z)
    : Suggester.AISuggestion :=
  Suggester.mkSuggestion
    [Suggester.mkNote ("ai-" ++ JS.toString (nowM 0%nat) ++ "-1") 120
       (Z.max (cur + 1) 0) 1 80]
    (8 # 10) "melody".

(** * Properties *)

Example writeMidi_empty_480_120 :
  Midi.writeMidi [] 480 120 =
  [77; 84; 104; 100; 0; 0; 0; 6; 0; 0; 0; 1; 1; 224;
   77; 84; 114; 107; 0; 0; 0; 11;
   0; 255; 81; 3; 7; 161; 32; 0; 255; 47; 0].
Proof. vm_compute. reflexivity. Qed.

Example export_initial :
  Canvas.exportMIDI Canvas.initial =
  [77; 84; 104; 100; 0; 0; 0; 6; 0; 0; 0; 1; 0; 120;
   77; 84; 114; 107; 0; 0; 0; 11;
   0; 255; 81; 3; 1; 232; 72; 0; 255; 47; 0].
Proof. vm_compute. reflexivity. Qed.

Example click_adds_snapped_note :
  Canvas.notes (Canvas.handleCanvasMouseDown 250 100 1700000000000 Canvas.initial)
  = [Note.mk "1700000000000" 960 120 75 80].
Proof. vm_compute. reflexivity. Qed.

(** ** The bit operators on values that fit *)

Section JSFacts.

Lemma toInt32_range (n : Z) : - 2 ^ 31 <= JS.toInt32 n < 2 ^ 31.
Proof.
  unfold JS.toInt32.
  pose proof (Z.mod_pos_bound (n + 2 ^ 31) (2 ^ 32)). lia.
Qed.

Lemma toInt32_small (n : Z) : - 2 ^ 31 <= n < 2 ^ 31 -> JS.toInt32 n = n.
Proof. intros H. unfold JS.toInt32. rewrite Z.mod_small; lia. Qed.

Lemma and_0x7f (v : Z) : 0 <= v < 2 ^ 31 -> JS.and v 0x7f = v mod 128.
Proof.
  intros H. unfold JS.and. rewrite !toInt32_small by lia.
  change 0x7f with (Z.ones 7). rewrite Z.land_ones by lia. reflexivity.
Qed.

Lemma shr_7 (v : Z) : 0 <= v < 2 ^ 31 -> JS.shr v 7 = v / 128.
Proof.
  intros H. unfold JS.shr. rewrite toInt32_small by lia.
  change (7 mod 32) with 7. rewrite Z.shiftr_div_pow2 by lia. reflexivity.
Qed.

Lemma or_0x80 (g : Z) : 0 <= g < 128 -> JS.or g 0x80 = g + 128.
Proof.
  intros H. unfold JS.or. rewrite !toInt32_small by lia.
  pose proof (Z.add_lor_land g 128) as E.
  assert (L : Z.land g 128 = 0).
  { rewrite <- (Z.mod_small g (2 ^ 7)) by lia.
    rewrite <- Z.land_ones by lia.
    rewrite <- Z.land_assoc. change (Z.land (Z.ones 7) 128) with 0.
    apply Z.land_0_r. }
  lia.
Qed.

End JSFacts.

(** ** The variable-length quantity *)

Section VariableLength.

Lemma vlLoop_unfold (v : Z) (vl : list Z) :
  Midi.vlLoop v vl =
  if 0 <? JS.shr v 7
  then Midi.vlLoop (JS.shr v 7) (JS.and v 0x7f :: vl)
  else JS.and v 0x7f :: vl.
Proof.
  funelim (Midi.vlLoop v vl);
    match goal with E : (0 <? _) = _ |- _ => rewrite E end; reflexivity.
Qed.

Lemma pow128_succ (k : Z) : 0 <= k -> 128 ^ (k + 1) = 128 * 128 ^ k.
Proof.
  intros Hk. rewrite Z.pow_add_r by lia. change (128 ^ 1) with 128. lia.
Qed.

Lemma vlLoop_digits (v : Z) :
  0 <= v < 2 ^ 31 ->
  forall vl, exists ds, Midi.vlLoop v vl = ds ++ vl /\ digitsOf v ds.
Proof.
  pattern v. apply (well_founded_induction (Z.lt_wf 0)). clear v.
  intros v IH Hv vl.
  rewrite vlLoop_unfold, shr_7, and_0x7f by lia.
  destruct (Z.ltb_spec 0 (v / 128)) as [Hpos | Hzero].
  - assert (Hbig : 128 <= v).
    { destruct (Z.lt_ge_cases v 128); auto.
      rewrite Z.div_small in Hpos; lia. }
    assert (Hq : v / 128 < v) by (apply Z.div_lt; lia).
    assert (Hq0 : 0 <= v / 128) by lia.
    destruct (IH (v / 128) ltac:(lia) ltac:(lia) (v mod 128 :: vl))
      as (ds & E & Hn & Hup & Hlow & Hnth).
    exists (ds ++ [v mod 128]). split.
    { rewrite E, <- app_assoc. reflexivity. }
    unfold digitsOf. rewrite length_app. cbn [List.length].
    set (n := Z.of_nat (List.length ds)) in *.
    replace (Z.of_nat (List.length ds + 1)) with (n + 1) by lia.
    pose proof (Z.div_mod v 128 ltac:(lia)) as Edm.
    pose proof (Z.mod_pos_bound v 128 ltac:(lia)) as Hm.
    assert (Hpow : 128 ^ (n + 1) = 128 * 128 ^ n)
      by (apply pow128_succ; lia).
    repeat split.
    + lia.
    + rewrite Hpow. nia.
    + right. replace (n + 1 - 1) with n by lia.
      destruct Hlow as [-> | Hlow]; [change (128 ^ 1) with 128; lia |].
      replace n with (n - 1 + 1) at 1 by lia.
      rewrite pow128_succ by lia. nia.
    + intros i Hi.
      destruct (Nat.lt_ge_cases i (List.length ds)) as [Hlt | Hge].
      * rewrite app_nth1 by assumption. rewrite (Hnth i Hlt).
        rewrite Z.div_div by (try apply Z.pow_pos_nonneg; lia).
        f_equal. f_equal.
        replace (n + 1 - 1 - Z.of_nat i) with (n - 1 - Z.of_nat i + 1)
          by lia.
        rewrite pow128_succ by lia. reflexivity.
      * assert (i = List.length ds) by lia. subst i.
        rewrite app_nth2 by lia. rewrite Nat.sub_diag. cbn [nth].
        replace (n + 1 - 1 - Z.of_nat (List.length ds)) with 0 by lia.
        rewrite Z.pow_0_r, Z.div_1_r. reflexivity.
  - assert (Hsmall : v < 128).
    { destruct (Z.lt_ge_cases v 128); auto.
      assert (1 <= v / 128) by (apply Z.div_le_lower_bound; lia). lia. }
    exists [v mod 128]. split; [reflexivity |].
    unfold digitsOf. cbn [List.length]. change (Z.of_nat 1) with 1.
    split; [lia |]. split; [change (128 ^ 1) with 128; lia |].
    split; [left; reflexivity |].
    intros i Hi. assert (i = 0%nat) by lia. subst i. cbn [nth].
    change (1 - 1 - Z.of_nat 0) with 0.
    rewrite Z.pow_0_r, Z.div_1_r. reflexivity.
Qed.

Lemma pushGroups_length (vl : list Z) :
  List.length (Midi.pushGroups vl) = List.length vl.
Proof. unfold Midi.pushGroups. rewrite length_map, length_seq. reflexivity. Qed.

Lemma nth_map_seq {A : Type} (f : nat -> A) (n i : nat) (d : A) :
  (i < n)%nat -> nth i (map f (seq 0 n)) d = f i.
Proof.
  intros Hi.
  rewrite (nth_indep _ d (f 0%nat)) by (rewrite length_map, length_seq; lia).
  rewrite (map_nth f (seq 0 n) 0%nat i), seq_nth by lia. reflexivity.
Qed.

Lemma pushGroups_nth (vl : list Z) (i : nat) :
  (i < List.length vl)%nat ->
  nth i (Midi.pushGroups vl) 0 =
  if negb (Nat.eqb i (List.length vl - 1))
  then JS.or (nth i vl 0) 0x80 else nth i vl 0.
Proof.
  intros Hi. unfold Midi.pushGroups.
  rewrite nth_map_seq by exact Hi. reflexivity.
Qed.

End VariableLength.

(** C3, as amended.  For every delta with [0 <= delta < 2^31] the writer emits
    the delta's 7-bit groups most significant group first, one byte per
    group, with the continuation bit on every byte except the last and at
    least one byte; 0 gives [00], 127 gives [7F], 128 gives [81 00] and 16383
    gives [FF 7F]. *)
Theorem variableLength_encodes (delta : Z) (H : 0 <= delta < 2 ^ 31) :
  encodesVLQ delta (Midi.variableLength delta)
  /\ Midi.variableLength 0 = [0x00]
  /\ Midi.variableLength 127 = [0x7F]
  /\ Midi.variableLength 128 = [0x81; 0x00]
  /\ Midi.variableLength 16383 = [0xFF; 0x7F].
Proof.
  split; [| repeat split; reflexivity].
  unfold Midi.variableLength.
  destruct (vlLoop_digits delta H []) as (ds & E & Hn & Hup & Hlow & Hnth).
  rewrite E, app_nil_r. unfold encodesVLQ.
  rewrite pushGroups_length.
  split; [exact Hn |]. split; [exact Hup |]. split; [exact Hlow |].
  intros i Hi. rewrite pushGroups_nth by exact Hi. rewrite (Hnth i Hi).
  set (g := (delta / 128 ^ (Z.of_nat (List.length ds) - 1 - Z.of_nat i)) mod 128).
  assert (Hg : 0 <= g < 128) by (apply Z.mod_pos_bound; lia).
  destruct (Nat.eqb i (List.length ds - 1)); cbn [negb].
  - lia.
  - apply or_0x80; exact Hg.
Qed.

Lemma variableLength_encodes_witness :
  0 <= 300 < 2 ^ 31 /\ encodesVLQ 300 (Midi.variableLength 300).
Proof.
  split; [lia | apply (variableLength_encodes 300); lia].
Defined.

(** C3 as stated covers every nonnegative delta.  At [2^31] the 32-bit shift
    turns the value negative, the loop stops after one round and the single
    byte [00] is written, which is not the encoding of [2^31]. *)
Lemma variableLength_wraps_at_2pow31 :
  Midi.variableLength (2 ^ 31) = [0x00]
  /\ ~ encodesVLQ (2 ^ 31) (Midi.variableLength (2 ^ 31)).
Proof.
  split; [reflexivity |].
  change (Midi.variableLength (2 ^ 31)) with [0].
  unfold encodesVLQ. cbn [List.length]. intros (_ & Hup & _).
  change (Z.of_nat 1) with 1 in Hup. lia.
Qed.

(** ** Snapping to the grid *)

(** C4.  For a tick [t >= 0] and a grid division [d] that divides PPQ, the
    snapped tick is a multiple of PPQ/d, is at most [t], is at least every
    multiple of PPQ/d that is at most [t], and snapping it again changes
    nothing. *)
Theorem snapToGrid_floors (t d : Z)
    (Ht : 0 <= t) (Hd : 0 < d) (Hdiv : (d | Canvas.PPQ)) :
  (exists k, 0 <= k /\ Canvas.snapToGrid t d = k * (Canvas.PPQ / d))
  /\ Canvas.snapToGrid t d <= t
  /\ (forall k, k * (Canvas.PPQ / d) <= t ->
        k * (Canvas.PPQ / d) <= Canvas.snapToGrid t d)
  /\ Canvas.snapToGrid (Canvas.snapToGrid t d) d = Canvas.snapToGrid t d.
Proof.
  unfold Canvas.snapToGrid.
  assert (Hg : 0 < Canvas.PPQ / d).
  { destruct Hdiv as [q Hq]. rewrite Hq, Z.div_mul by lia.
    unfold Canvas.PPQ in Hq. nia. }
  set (g := Canvas.PPQ / d) in *.
  pose proof (Z.div_mod t g ltac:(lia)) as Edm.
  pose proof (Z.mod_pos_bound t g Hg) as Hm.
  assert (Hq0 : 0 <= t / g) by (apply Z.div_pos; lia).
  split; [exists (t / g); split; [exact Hq0 | reflexivity] |].
  split; [nia |].
  split.
  - intros k Hk.
    assert (k <= t / g) by (apply Z.div_le_lower_bound; lia). nia.
  - rewrite Z.div_mul by lia. reflexivity.
Qed.

Lemma snapToGrid_floors_witness :
  Canvas.snapToGrid 250 4 = 240
  /\ Canvas.snapToGrid (Canvas.snapToGrid 250 4) 4 = Canvas.snapToGrid 250 4.
Proof.
  split; [reflexivity |].
  apply (snapToGrid_floors 250 4); [lia | lia | exists 120; reflexivity].
Defined.

(** ** The import scanner *)

Section ImportScan.

Variable midiData : list Z.
Variable clock : nat -> Z.

Lemma noteOnsBefore_succ (i : nat) :
  noteOnsBefore midiData (S i) =
  (noteOnsBefore midiData i + if noteOnAt midiData i then 1 else 0)%nat.
Proof.
  unfold noteOnsBefore. rewrite seq_S, filter_app, length_app.
  cbn [filter Nat.add]. destruct (noteOnAt midiData i); reflexivity.
Qed.

Lemma scan_range (n a : nat) (acc : list Note.t) :
  fold_left (Canvas.scanByte midiData clock) (seq a n)
    (acc, Canvas.PPQ / 8 * Z.of_nat (noteOnsBefore midiData a))
  = (acc ++ map (noteAt midiData clock)
              (filter (acceptedAt midiData) (seq a n)),
     Canvas.PPQ / 8 * Z.of_nat (noteOnsBefore midiData (a + n))).
Proof.
  revert a acc. induction n as [| n IH]; intros a acc.
  - cbn [seq fold_left filter map]. rewrite app_nil_r, Nat.add_0_r.
    reflexivity.
  - cbn [seq fold_left filter].
    replace (a + S n)%nat with (S a + n)%nat by lia.
    unfold Canvas.scanByte at 2. cbn [fst snd].
    unfold acceptedAt at 1. fold (noteOnAt midiData a).
    pose proof (noteOnsBefore_succ a) as Hs.
    destruct (noteOnAt midiData a) eqn:Hon; cbn [andb].
    + replace (Canvas.PPQ / 8 * Z.of_nat (noteOnsBefore midiData a)
               + Canvas.PPQ / 8)
        with (Canvas.PPQ / 8 * Z.of_nat (noteOnsBefore midiData (S a)))
        by (rewrite Hs; lia).
      destruct ((0 <? nth (a + 2) midiData 0)
                && (21 <=? nth (a + 1) midiData 0)
                && (nth (a + 1) midiData 0 <=? 108)).
      * rewrite IH. cbn [map]. rewrite <- app_assoc. reflexivity.
      * rewrite IH. reflexivity.
    + replace (noteOnsBefore midiData a) with (noteOnsBefore midiData (S a))
        by (rewrite Hs; lia).
      rewrite IH. reflexivity.
Qed.

(** The scan in closed form. *)
Lemma importedNotes_closed_form :
  Canvas.importedNotes midiData clock =
  map (noteAt midiData clock)
    (filter (acceptedAt midiData) (Canvas.scanIndices midiData)).
Proof.
  unfold Canvas.importedNotes, Canvas.scanIndices.
  change (@nil Note.t, 0)
    with (@nil Note.t, Canvas.PPQ / 8 * Z.of_nat (noteOnsBefore midiData 0)).
  rewrite scan_range. reflexivity.
Qed.

End ImportScan.

(** C8, as amended.  The k-th accepted note-on event (0-based, in scan
    order) sits at some scan index [i]; its start tick is PPQ/8 times the
    number of note-on status bytes, accepted or not, in front of [i], and its
    length is PPQ/4. *)
Theorem import_ticks (midiData : list Z) (clock : nat -> Z)
    (k : nat) (note : Note.t)
    (H : nth_error (Canvas.importedNotes midiData clock) k = Some note) :
  exists i : nat,
    nth_error (filter (acceptedAt midiData) (Canvas.scanIndices midiData)) k
      = Some i
    /\ Note.tick note
       = Canvas.PPQ / 8 * Z.of_nat (noteOnsBefore midiData i)
    /\ Note.length note = Canvas.PPQ / 4
    /\ Note.midi note = nth (i + 1) midiData 0.
Proof.
  rewrite importedNotes_closed_form, nth_error_map in H.
  destruct (nth_error (filter (acceptedAt midiData)
                         (Canvas.scanIndices midiData)) k) as [i |] eqn:E;
    [| discriminate].
  cbn [option_map] in H. injection H as <-.
  exists i. repeat split; reflexivity.
Qed.

Lemma import_ticks_witness :
  exists i : nat,
    nth_error (filter (acceptedAt [0x90; 60; 0; 0x90; 64; 100; 0])
                 (Canvas.scanIndices [0x90; 60; 0; 0x90; 64; 100; 0])) 0
      = Some i
    /\ Note.tick (Note.mk "imported_7_3" 60 120 64 100)
       = Canvas.PPQ / 8
         * Z.of_nat (noteOnsBefore [0x90; 60; 0; 0x90; 64; 100; 0] i)
    /\ Note.length (Note.mk "imported_7_3" 60 120 64 100) = Canvas.PPQ / 4
    /\ Note.midi (Note.mk "imported_7_3" 60 120 64 100)
       = nth (i + 1) [0x90; 60; 0; 0x90; 64; 100; 0] 0.
Proof.
  apply (import_ticks [0x90; 60; 0; 0x90; 64; 100; 0] (fun _ => 7) 0).
  reflexivity.
Defined.

(** C8 as stated fails on a buffer whose first note-on has velocity 0: it is
    rejected but still advances the tick, so the first accepted note starts
    at 60, not at 0. *)
Lemma import_advances_on_rejected :
  map Note.tick
    (Canvas.importedNotes [0x90; 60; 0; 0x90; 64; 100; 0] (fun _ => 7)) = [60]
  /\ ~ advancesPerAccepted [0x90; 60; 0; 0x90; 64; 100; 0] (fun _ => 7).
Proof.
  split; [reflexivity |].
  intros Hc.
  specialize (Hc 0%nat (Note.mk "imported_7_3" 60 120 64 100) eq_refl).
  discriminate Hc.
Qed.

(** C2 on the code.  The loop bound [midiData.length - 3] leaves a buffer of
    exactly three bytes unscanned: [90 3C 64] gives no note and the store is
    left as it was, while the same event followed by one more byte is
    recovered with pitch 60.  [90 3C 00] gives no note. *)
Theorem import_three_bytes (clock : nat -> Z) (st : Canvas.State) :
  Canvas.importedNotes [0x90; 60; 100] clock = []
  /\ Canvas.handleFileImport [0x90; 60; 100] clock st = st
  /\ Canvas.importedNotes [0x90; 60; 0] clock = []
  /\ map Note.midi (Canvas.importedNotes [0x90; 60; 100; 0] clock) = [60]
  /\ Canvas.importedNotes [0x90; 60; 0; 0] clock = [].
Proof. repeat split; reflexivity. Qed.

(** ** Dragging and removing notes *)

Example grabbedTopNote_store :
  Canvas.notes grabbedTopNote = [Note.mk "1000" 960 120 108 80]
  /\ option_map Canvas.noteId (Canvas.dragInfo grabbedTopNote) = Some "1000"%string
  /\ option_map Canvas.originalMidi (Canvas.dragInfo grabbedTopNote) = Some 108.
Proof. repeat split; vm_compute; reflexivity. Qed.

Lemma moveNote_nth_error (noteId : string) (t m : Z) (ns : list Note.t)
    (k : nat) :
  nth_error (Canvas.moveNote noteId t m ns) k =
  option_map
    (fun note =>
       if String.eqb (Note.id note) noteId
       then Note.mk (Note.id note) t (Note.length note) m (Note.vel note)
       else note)
    (nth_error ns k).
Proof. unfold Canvas.moveNote. apply nth_error_map. Qed.

(** C7, as amended.  While a note is dragged, its pitch after a move is the
    requested pitch clamped to [21, 108]: below 21 gives 21, above 108 gives
    108, and a requested pitch within [21, 108] is kept exactly. *)
Theorem drag_clamps_pitch (st : Canvas.State) (d : Canvas.DragInfo)
    (x y : Q) (k : nat) (note : Note.t)
    (Hd : Canvas.dragInfo st = Some d)
    (Hdrag : Canvas.isDragging d = true)
    (Hk : nth_error (Canvas.notes st) k = Some note)
    (Hid : Note.id note = Canvas.noteId d) :
  exists note',
    nth_error (Canvas.notes (Canvas.handleCanvasMouseMove x y st)) k
      = Some note'
    /\ Note.id note' = Note.id note
    /\ clampedTo 21 108 (Canvas.requestedMidi d y) (Note.midi note').
Proof.
  unfold Canvas.handleCanvasMouseMove. rewrite Hd, Hdrag. cbn [negb].
  cbn [Canvas.setNotes Canvas.notes].
  rewrite moveNote_nth_error, Hk. cbn [option_map].
  rewrite Hid, String.eqb_refl.
  eexists. split; [reflexivity |]. split; [reflexivity |].
  cbn [Note.midi]. unfold clampedTo. repeat split; lia.
Qed.

Lemma drag_clamps_pitch_witness :
  exists note',
    nth_error
      (Canvas.notes (Canvas.handleCanvasMouseMove 250 0 grabbedTopNote)) 0
      = Some note'
    /\ Note.id note' = "1000"%string
    /\ clampedTo 21 108 109 (Note.midi note').
Proof.
  apply (drag_clamps_pitch grabbedTopNote
           (Canvas.mkDrag true false "1000" 250 5 960 108 120)
           250 0 0 (Note.mk "1000" 960 120 108 80));
    vm_compute; reflexivity.
Defined.

(** C7 as stated clamps to [0, 127].  Dragging the note on the highest key
    one row further up asks for pitch 109, which lies in [0, 127], and the
    note stays at 108. *)
Lemma drag_does_not_keep_109 :
  option_map (fun d => Canvas.requestedMidi d 0)
    (Canvas.dragInfo grabbedTopNote) = Some 109
  /\ map Note.midi
       (Canvas.notes (Canvas.handleCanvasMouseMove 250 0 grabbedTopNote))
     = [108]
  /\ ~ clampedTo 0 127 109 108.
Proof.
  split; [vm_compute; reflexivity |]. split; [vm_compute; reflexivity |].
  unfold clampedTo. intros (_ & _ & _ & Hkeep). specialize (Hkeep ltac:(lia)).
  discriminate Hkeep.
Qed.

Lemma removeNote_unknown (id : string) (ns : list Note.t) :
  (forall n, In n ns -> Note.id n <> id) -> Canvas.removeNote id ns = ns.
Proof.
  intros H. unfold Canvas.removeNote. induction ns as [| n ns IH].
  - reflexivity.
  - cbn [filter].
    destruct (String.eqb_spec (Note.id n) id) as [E | _].
    + exfalso. apply (H n); [left; reflexivity | exact E].
    + cbn [negb]. f_equal. apply IH. intros m Hm. apply H. right. exact Hm.
Qed.

Lemma moveNote_unknown (id : string) (t m : Z) (ns : list Note.t) :
  (forall n, In n ns -> Note.id n <> id) -> Canvas.moveNote id t m ns = ns.
Proof.
  intros H. unfold Canvas.moveNote. induction ns as [| n ns IH].
  - reflexivity.
  - cbn [map].
    destruct (String.eqb_spec (Note.id n) id) as [E | _].
    + exfalso. apply (H n); [left; reflexivity | exact E].
    + f_equal. apply IH. intros k Hk. apply H. right. exact Hk.
Qed.

Lemma grid_removeNote_unknown (id : string) (gs : list Grid.Note) :
  (forall g, In g gs -> Grid.id g <> id) -> Grid.removeNote id gs = gs.
Proof.
  intros H. unfold Grid.removeNote. induction gs as [| g gs IH].
  - reflexivity.
  - cbn [filter].
    destruct (String.eqb_spec (Grid.id g) id) as [E | _].
    + exfalso. apply (H g); [left; reflexivity | exact E].
    + cbn [negb]. f_equal. apply IH. intros k Hk. apply H. right. exact Hk.
Qed.

(** C9.  When no note of the store carries the id, removing it (the delete
    key, and the filter shared with the right click) and moving it (a drag
    step) leave the whole editor state as it was, up to the selection that
    the delete key clears; the store is the same list.  The grid editor's
    [removeNote] behaves the same way. *)
Theorem unknown_id_is_noop (id : string) (st : Canvas.State)
    (H : forall n, In n (Canvas.notes st) -> Note.id n <> id) :
  Canvas.removeNote id (Canvas.notes st) = Canvas.notes st
  /\ (forall t m, Canvas.moveNote id t m (Canvas.notes st) = Canvas.notes st)
  /\ (Canvas.selectedRef st = Some id ->
      Canvas.notes (Canvas.handleKeyDelete st) = Canvas.notes st)
  /\ (forall d x y, Canvas.dragInfo st = Some d -> Canvas.noteId d = id ->
      Canvas.handleCanvasMouseMove x y st = st)
  /\ (forall gs : list Grid.Note,
        (forall g, In g gs -> Grid.id g <> id) -> Grid.removeNote id gs = gs).
Proof.
  split; [apply removeNote_unknown; exact H |].
  split; [intros t m; apply moveNote_unknown; exact H |].
  split.
  - intros Hsel. unfold Canvas.handleKeyDelete. rewrite Hsel.
    destruct (String.eqb id ""); [reflexivity |].
    cbn [Canvas.setSelected Canvas.setNotes Canvas.notes].
    apply removeNote_unknown; exact H.
  - split; [| intros gs Hg; apply grid_removeNote_unknown; exact Hg].
    intros d x y Hd Hid. unfold Canvas.handleCanvasMouseMove. rewrite Hd.
    destruct (Canvas.isDragging d); cbn [negb]; [| reflexivity].
    rewrite Hid, moveNote_unknown by exact H.
    destruct st; reflexivity.
Qed.

Lemma unknown_id_is_noop_witness :
  Canvas.removeNote "42"
    (Canvas.notes
       (Canvas.setNotes [Note.mk "1000" 960 120 108 80] Canvas.initial))
  = [Note.mk "1000" 960 120 108 80].
Proof.
  refine (proj1 (unknown_id_is_noop "42"
                   (Canvas.setNotes [Note.mk "1000" 960 120 108 80]
                      Canvas.initial) _)).
  cbn [Canvas.setNotes Canvas.notes]. intros n [<- | []]. discriminate.
Defined.

(** ** The playback cursor *)

Lemma staleInterval_handle (e : Canvas.Event) (st : Canvas.State) :
  staleInterval st -> staleInterval (Canvas.handle e st).
Proof.
  unfold staleInterval. intros H.
  destruct e; cbn [Canvas.handle]; try exact H.
  - unfold Canvas.handleCanvasMouseDown.
    destruct (Canvas.onPianoKeys x); [exact H |].
    destruct (find _ _); exact H.
  - unfold Canvas.handleCanvasMouseMove.
    destruct (Canvas.dragInfo st) as [d |]; [| exact H].
    destruct (negb (Canvas.isDragging d)); exact H.
  - unfold Canvas.handleCanvasRightClick.
    destruct (Canvas.onPianoKeys x); [exact H |].
    destruct (find _ _); exact H.
  - unfold Canvas.handleKeyDelete.
    destruct (Canvas.selectedRef st) as [id |]; [| exact H].
    destruct (String.eqb id ""); exact H.
  - unfold Canvas.playNotes.
    destruct (Canvas.isPlaying st) eqn:E; [left; reflexivity |].
    right. reflexivity.
  - unfold Canvas.timerFires.
    destruct H as [E | E]; rewrite E; cbn [Canvas.intervalCallback negb];
      [left | right]; exact E.
  - unfold Canvas.clearNotes.
    destruct (Canvas.isPlaying st); [left; reflexivity | exact H].
  - unfold Canvas.handleFileImport.
    destruct (Canvas.importedNotes midiData clock); exact H.
Qed.

Lemma staleInterval_run (evs : list Canvas.Event) (st : Canvas.State) :
  staleInterval st -> staleInterval (Canvas.run evs st).
Proof.
  revert st. induction evs as [| e evs IH]; intros st H; [exact H |].
  apply IH, staleInterval_handle, H.
Qed.

(** C5 on the code.  In every session the interval callback returns at its
    [if (!isPlaying) return] line: the closure reads the [isPlaying] binding
    of the render in which Play was pressed, which is [false].  A firing of
    the timer therefore leaves the state as it is, whatever the transport
    time; after Play and nine seconds of transport time (tick 8640, past the
    end boundary 7680) the editor is still playing with the cursor at 0. *)
Theorem timer_callback_never_acts (evs : list Canvas.Event)
    (transportSeconds : Q) :
  Canvas.handle (Canvas.TimerFires transportSeconds)
    (Canvas.run evs Canvas.initial)
  = Canvas.run evs Canvas.initial
  /\ Canvas.isPlaying
       (Canvas.run [Canvas.PlayButton; Canvas.TimerFires 9] Canvas.initial)
     = true
  /\ Canvas.started
       (Canvas.transport
          (Canvas.run [Canvas.PlayButton; Canvas.TimerFires 9] Canvas.initial))
     = true
  /\ Canvas.cursorTick
       (Canvas.run [Canvas.PlayButton; Canvas.TimerFires 9] Canvas.initial)
     = 0%Q.
Proof.
  split; [| repeat split; reflexivity].
  cbn [Canvas.handle]. unfold Canvas.timerFires.
  destruct (staleInterval_run evs Canvas.initial (or_introl eq_refl))
    as [-> | ->]; reflexivity.
Qed.

(** The body of the callback, had the flag been [true]: up to and including
    the end boundary PPQ * 16 the cursor is set, beyond it playback stops. *)
Lemma intervalCallback_body (transportSeconds : Q) (st : Canvas.State) :
  Canvas.intervalCallback true transportSeconds st =
  if Qle_bool (transportSeconds / 60 * inject_Z Canvas.BPM
               * inject_Z Canvas.PPQ)
       (inject_Z (Canvas.PPQ * 16))
  then Canvas.setCursorTick
         (transportSeconds / 60 * inject_Z Canvas.BPM * inject_Z Canvas.PPQ) st
  else Canvas.stopAll st.
Proof. reflexivity. Qed.

Example intervalCallback_at_boundary :
  Canvas.isPlaying
    (Canvas.intervalCallback true 8 (Canvas.playNotes Canvas.initial)) = true
  /\ Canvas.isPlaying
       (Canvas.intervalCallback true (801 # 100)
          (Canvas.playNotes Canvas.initial)) = false.
Proof. split; vm_compute; reflexivity. Qed.

(** ** Every handler is one of the store steps *)

Section StoreSteps.

Import Canvas.

Lemma handle_StoreStep (e : Event) (st : State) :
  StoreStep st e (notes (handle e st)).
Proof.
  destruct e; cbn [handle]; try exact (StoreKept st _).
  - unfold handleCanvasMouseDown.
    destruct (onPianoKeys x) eqn:Hx; [exact (StoreKept st _) |].
    destruct (find _ _); [exact (StoreKept st _) |].
    apply StoreAdded, Hx.
  - unfold handleCanvasMouseMove.
    destruct (dragInfo st) as [d |] eqn:Hd; [| exact (StoreKept st _)].
    destruct (isDragging d) eqn:Hg; cbn [negb]; [| exact (StoreKept st _)].
    apply StoreMoved; assumption.
  - unfold handleCanvasRightClick.
    destruct (onPianoKeys x); [exact (StoreKept st _) |].
    destruct (find _ _); [exact (StoreRemoved st _ _) | exact (StoreKept st _)].
  - unfold handleKeyDelete.
    destruct (selectedRef st) as [id |]; [| exact (StoreKept st _)].
    destruct (String.eqb id ""); [exact (StoreKept st _) | exact (StoreRemoved st _ _)].
  - unfold playNotes. destruct (isPlaying st); exact (StoreKept st _).
  - unfold timerFires. destruct (timelineRef st) as [c |]; [| exact (StoreKept st _)].
    unfold intervalCallback. destruct (negb c); [exact (StoreKept st _) |].
    destruct (Qle_bool _ _); exact (StoreKept st _).
  - unfold clearNotes. destruct (isPlaying st); exact (StoreCleared st).
  - unfold handleFileImport.
    destruct (importedNotes midiData clock) as [| n ns] eqn:E;
      [exact (StoreKept st _) |].
    cbn [setNotes notes]. rewrite <- E. apply StoreImported.
Qed.

(** Only the slider writes the zoom. *)
Lemma handle_zoom (e : Event) (st : State) :
  zoom (handle e st) = zoom st
  \/ exists z, e = ZoomSlider z /\ zoom (handle e st) = z.
Proof.
  destruct e; cbn [handle]; try (left; reflexivity).
  - unfold handleCanvasMouseDown.
    destruct (onPianoKeys x); [left; reflexivity |].
    destruct (find _ _); left; reflexivity.
  - unfold handleCanvasMouseMove.
    destruct (dragInfo st) as [d |]; [| left; reflexivity].
    destruct (negb (isDragging d)); left; reflexivity.
  - unfold handleCanvasRightClick.
    destruct (onPianoKeys x); [left; reflexivity |].
    destruct (find _ _); left; reflexivity.
  - unfold handleKeyDelete.
    destruct (selectedRef st) as [id |]; [| left; reflexivity].
    destruct (String.eqb id ""); left; reflexivity.
  - right. exists z. split; reflexivity.
  - unfold playNotes. destruct (isPlaying st); left; reflexivity.
  - unfold timerFires. destruct (timelineRef st) as [c |]; [| left; reflexivity].
    unfold intervalCallback. destruct (negb c); [left; reflexivity |].
    destruct (Qle_bool _ _); left; reflexivity.
  - unfold clearNotes. destruct (isPlaying st); left; reflexivity.
  - unfold handleFileImport.
    destruct (importedNotes midiData clock); left; reflexivity.
Qed.

Lemma removeNote_Forall (P : Note.t -> Prop) (id : string) (ns : list Note.t) :
  Forall P ns -> Forall P (removeNote id ns).
Proof.
  intros H. apply Forall_forall. intros n Hn. unfold removeNote in Hn.
  apply filter_In in Hn. destruct Hn as [Hn _].
  revert n Hn. apply Forall_forall. exact H.
Qed.

End StoreSteps.

(** ** Start ticks stay on the grid *)

Section TickGrid.

Import Canvas.

Lemma onGrid_quarter_eighth (t : Z) : onGrid (PPQ / 4) t -> onGrid (PPQ / 8) t.
Proof.
  intros (k & Hk & ->). exists (2 * k). split; [lia |].
  change (PPQ / 4) with 120. change (PPQ / 8) with 60. lia.
Qed.

Lemma snapToGrid_onGrid (t : Z) : 0 <= t -> onGrid (PPQ / 4) (snapToGrid t 4).
Proof.
  intros Ht. exists (t / (PPQ / 4)). split; [| reflexivity].
  apply Z.div_pos; [exact Ht | reflexivity].
Qed.

Lemma pixelsPerTick_pos (st : State) : (0 < zoom st)%Q -> (0 < pixelsPerTick st)%Q.
Proof.
  intros Hz. unfold pixelsPerTick, totalTicks, Qdiv.
  apply Qmult_lt_0_compat; [reflexivity |].
  apply Qinv_lt_0_compat, Qmult_lt_0_compat; [reflexivity |].
  apply Qinv_lt_0_compat, Hz.
Qed.

Lemma floor_nonneg (q : Q) : (0 <= q)%Q -> 0 <= JS.Math_floor q.
Proof.
  intros Hq. unfold JS.Math_floor.
  change 0 with (Qfloor (inject_Z 0)). apply Qfloor_resp_le, Hq.
Qed.

Lemma newNote_onGrid (st : State) (x y : Q) (now : Z) :
  (0 < zoom st)%Q -> onPianoKeys x = false ->
  onGrid (PPQ / 4) (Note.tick (newNote st x y now)).
Proof.
  intros Hz Hx. unfold newNote. cbn [Note.tick].
  apply snapToGrid_onGrid, floor_nonneg.
  unfold Qdiv. apply Qmult_le_0_compat.
  - unfold onPianoKeys in Hx. apply negb_false_iff, Qle_bool_iff in Hx.
    apply (proj1 (Qle_minus_iff pianoWidth x)) in Hx. exact Hx.
  - apply Qinv_le_0_compat, Qlt_le_weak, pixelsPerTick_pos, Hz.
Qed.

Lemma imported_onGrid (midiData : list Z) (clock : nat -> Z) (n : Note.t) :
  In n (importedNotes midiData clock) -> onGrid (PPQ / 8) (Note.tick n).
Proof.
  rewrite importedNotes_closed_form. intros Hin.
  apply in_map_iff in Hin. destruct Hin as (i & <- & _).
  exists (Z.of_nat (noteOnsBefore midiData i)). cbn [Note.tick noteAt].
  split; lia.
Qed.

Lemma gridInvariant_handle (e : Event) (st : State) :
  deliverable e -> gridInvariant st -> gridInvariant (handle e st).
Proof.
  intros He [Hz Hns]. split.
  - destruct (handle_zoom e st) as [-> | (z & -> & ->)]; [exact Hz |].
    cbn [deliverable sliderValues In] in He.
    repeat (destruct He as [<- | He]; [reflexivity |]). destruct He.
  - clear He.
    destruct (handle_StoreStep e st)
      as [e | x y now Hx | x y d Hd Hg | e id | | midiData clock].
    + exact Hns.
    + apply Forall_app. split; [exact Hns |].
      constructor; [| constructor].
      apply onGrid_quarter_eighth, newNote_onGrid; assumption.
    + unfold moveNote. apply Forall_forall. intros n Hn.
      apply in_map_iff in Hn. destruct Hn as (m & <- & Hm).
      destruct (String.eqb (Note.id m) (noteId d)).
      * cbn [Note.tick]. apply onGrid_quarter_eighth, snapToGrid_onGrid. lia.
      * revert m Hm. apply Forall_forall. exact Hns.
    + apply removeNote_Forall, Hns.
    + constructor.
    + apply Forall_forall. intros m Hm.
      apply (imported_onGrid midiData clock), Hm.
Qed.

Lemma gridInvariant_run (evs : list Event) (st : State) :
  Forall deliverable evs -> gridInvariant st -> gridInvariant (run evs st).
Proof.
  revert st. induction evs as [| e evs IH]; intros st Hd Hst; [exact Hst |].
  inversion Hd; subst. apply IH; [assumption |].
  apply gridInvariant_handle; assumption.
Qed.

End TickGrid.

(** C10.  In every session of deliverable events each stored note starts at a
    nonnegative multiple of PPQ/8.  A click on free grid space starts the new
    note at a nonnegative multiple of PPQ/4 (its tick is nonnegative because
    the click lies right of the keyboard), a drag clamps the requested tick
    at 0 and floors it to a multiple of PPQ/4, and imported notes start at
    multiples of PPQ/8. *)
Theorem ticks_stay_on_grid (evs : list Canvas.Event)
    (H : Forall Canvas.deliverable evs) :
  Forall (fun n => onGrid (Canvas.PPQ / 8) (Note.tick n))
    (Canvas.notes (Canvas.run evs Canvas.initial))
  /\ (forall st x y now,
        (0 < Canvas.zoom st)%Q -> Canvas.onPianoKeys x = false ->
        onGrid (Canvas.PPQ / 4) (Note.tick (Canvas.newNote st x y now)))
  /\ (forall requested,
        onGrid (Canvas.PPQ / 4) (Canvas.snapToGrid (Z.max 0 requested) 4))
  /\ (forall midiData clock n,
        In n (Canvas.importedNotes midiData clock) ->
        onGrid (Canvas.PPQ / 8) (Note.tick n))
  /\ Canvas.PPQ / 8 = 60.
Proof.
  split.
  - apply (gridInvariant_run evs Canvas.initial H).
    split; [reflexivity | constructor].
  - split; [exact newNote_onGrid |].
    split; [intros r; apply snapToGrid_onGrid; lia |].
    split; [exact imported_onGrid | reflexivity].
Qed.

Lemma ticks_stay_on_grid_witness :
  Forall (fun n => onGrid (Canvas.PPQ / 8) (Note.tick n))
    (Canvas.notes
       (Canvas.run
          [Canvas.ZoomSlider (1 # 2); Canvas.MouseDown 250 5 1000;
           Canvas.FileImport [0x90; 60; 0; 0x90; 64; 100; 0] (fun _ => 7)]
          Canvas.initial)).
Proof.
  refine (proj1 (ticks_stay_on_grid
                   [Canvas.ZoomSlider (1 # 2); Canvas.MouseDown 250 5 1000;
                    Canvas.FileImport [0x90; 60; 0; 0x90; 64; 100; 0]
                      (fun _ => 7)] _)).
  repeat constructor; cbn; lia.
Defined.

(** ** Note identifiers *)

Section Identifiers.

Lemma to_int_proper (n : Z) :
  Z.to_int n <> Decimal.Pos Decimal.Nil /\ Z.to_int n <> Decimal.Neg Decimal.Nil.
Proof.
  destruct n as [| p | p]; cbn [Z.to_int]; split; try discriminate;
    intros [= E]; exact (Unsigned.to_uint_nonnil p E).
Qed.

Lemma int_of_toString (n : Z) :
  NilZero.int_of_string (JS.toString n) = Some (Z.to_int n).
Proof.
  unfold JS.toString. destruct (to_int_proper n) as [Hp Hn].
  apply NilZero.isi; assumption.
Qed.

Lemma toString_inj (a b : Z) : JS.toString a = JS.toString b -> a = b.
Proof.
  intros H. apply (f_equal NilZero.int_of_string) in H.
  rewrite !int_of_toString in H. injection H as H.
  apply DecimalZ.to_int_inj, H.
Qed.

Lemma toString_not_imported (n : Z) (r : string) :
  JS.toString n <> ("imported_" ++ r)%string.
Proof.
  intros H. apply (f_equal NilZero.int_of_string) in H.
  rewrite int_of_toString in H. cbn in H.
  destruct (NilEmpty.uint_of_string _) in H; discriminate H.
Qed.

Lemma string_of_uint_noDash (d : Decimal.uint) :
  noDash (NilEmpty.string_of_uint d) = true.
Proof. induction d; cbn; auto. Qed.

Lemma toString_noDash (n : Z) : 0 <= n -> noDash (JS.toString n) = true.
Proof.
  intros Hn. unfold JS.toString. destruct n as [| p | p]; [reflexivity | | lia].
  cbn [Z.to_int NilZero.string_of_int]. unfold NilZero.string_of_uint.
  destruct (Pos.to_uint p) eqn:E;
    [exfalso; exact (Unsigned.to_uint_nonnil p E) | ..];
    rewrite <- E; apply string_of_uint_noDash.
Qed.

Lemma split_at_dash (a b r1 r2 : string) :
  noDash a = true -> noDash b = true ->
  (a ++ "-" ++ r1 = b ++ "-" ++ r2)%string -> a = b.
Proof.
  revert b. induction a as [| c a IH]; intros [| c' b] Ha Hb H.
  - reflexivity.
  - cbn in H, Hb. injection H as Hc _. subst c'. discriminate Hb.
  - cbn in H, Ha. injection H as Hc _. subst c. discriminate Ha.
  - cbn in H, Ha, Hb. injection H as Hc H. subst c'.
    apply andb_true_iff in Ha, Hb. f_equal.
    apply IH; [apply Ha | apply Hb | exact H].
Qed.

Lemma gridId_reading (u u' : Z) (r r' : string) :
  0 <= u -> 0 <= u' -> gridId u r = gridId u' r' -> u = u'.
Proof.
  intros Hu Hu' H. unfold gridId in H. cbn in H. injection H as H.
  apply toString_inj.
  apply (split_at_dash _ _ r r'); auto using toString_noDash.
Qed.

End Identifiers.

Section Freshness.

Import Canvas.

Lemma storedId_mono (t t' : Z) (s : string) :
  t <= t' -> storedId t s -> storedId t' s.
Proof.
  intros Ht [(u & Hu & ->) | (r & ->)].
  - left. exists u. split; [lia | reflexivity].
  - right. exists r. reflexivity.
Qed.

Lemma storedId_fresh (t now : Z) (s : string) :
  t < now -> storedId t s -> s <> JS.toString now.
Proof.
  intros Ht [(u & Hu & ->) | (r & ->)] E.
  - apply toString_inj in E. lia.
  - symmetry in E. exact (toString_not_imported now r E).
Qed.

Lemma moveNote_ids (noteId : string) (t m : Z) (ns : list Note.t) :
  map Note.id (moveNote noteId t m ns) = map Note.id ns.
Proof.
  unfold moveNote. rewrite map_map. apply map_ext. intros n.
  destruct (String.eqb (Note.id n) noteId); reflexivity.
Qed.

Lemma imported_ids (midiData : list Z) (clock : nat -> Z) (t : Z) :
  Forall (fun n => storedId t (Note.id n)) (importedNotes midiData clock).
Proof.
  rewrite importedNotes_closed_form. apply Forall_forall. intros n Hn.
  apply in_map_iff in Hn. destruct Hn as (i & <- & _).
  right. eexists. reflexivity.
Qed.

Lemma lastReading_single (t : Z) (e : Event) :
  clockAdvances t [e] -> t <= lastReading t [e].
Proof. destruct e; cbn [clockAdvances lastReading]; lia. Qed.

Lemma idsStored_handle (e : Event) (t : Z) (st : State) :
  clockAdvances t [e] -> idsStored t st ->
  idsStored (lastReading t [e]) (handle e st).
Proof.
  intros Hc Hst. pose proof (lastReading_single t e Hc) as Hle.
  assert (Hst' : Forall (fun n => storedId (lastReading t [e]) (Note.id n))
                   (notes st)).
  { eapply Forall_impl; [| exact Hst]. intros n. apply storedId_mono, Hle. }
  clear Hc Hle Hst. unfold idsStored. revert Hst'.
  destruct (handle_StoreStep e st)
    as [e | x y now Hx | x y d Hd Hg | e id | | midiData clock]; intros Hst.
  - exact Hst.
  - apply Forall_app. split; [exact Hst |].
    constructor; [| constructor].
    left. exists now. split; [cbn [lastReading]; lia | reflexivity].
  - apply (proj1 (Forall_map Note.id (storedId _) _)).
    rewrite moveNote_ids.
    apply (proj2 (Forall_map Note.id (storedId _) _)). exact Hst.
  - apply removeNote_Forall, Hst.
  - constructor.
  - apply imported_ids.
Qed.

Lemma clockAdvances_cons (t : Z) (e : Event) (evs : list Event) :
  clockAdvances t (e :: evs) <->
  clockAdvances t [e] /\ clockAdvances (lastReading t [e]) evs.
Proof. destruct e; cbn [clockAdvances lastReading]; tauto. Qed.

Lemma lastReading_cons (t : Z) (e : Event) (evs : list Event) :
  lastReading t (e :: evs) = lastReading (lastReading t [e]) evs.
Proof. destruct e; reflexivity. Qed.

Lemma idsStored_run (evs rest : list Event) (t : Z) (st : State) :
  clockAdvances t (evs ++ rest) -> idsStored t st ->
  idsStored (lastReading t evs) (run evs st)
  /\ clockAdvances (lastReading t evs) rest.
Proof.
  revert t st. induction evs as [| e evs IH]; intros t st Hc Hst.
  - split; [exact Hst | exact Hc].
  - rewrite <- app_comm_cons in Hc. apply clockAdvances_cons in Hc.
    destruct Hc as [He Hc]. rewrite lastReading_cons. cbn [run fold_left].
    apply IH; [exact Hc |]. apply idsStored_handle; assumption.
Qed.

(** *** The grid store *)

Lemma storedGridId_fresh (t now : Z) (rnd s : string) :
  0 <= t < now -> storedGridId t s -> s <> gridId now rnd.
Proof.
  intros Ht (u & r & Hu & ->) E.
  apply gridId_reading in E; lia.
Qed.

Lemma gridIds_run (ops rest : list Grid.Op) (t : Z) (ns : list Grid.Note) :
  0 <= t -> Grid.clockAdvances t (ops ++ rest) -> gridIdsStored t ns ->
  gridIdsStored (lastGridReading t ops) (Grid.run ops ns)
  /\ Grid.clockAdvances (lastGridReading t ops) rest
  /\ 0 <= lastGridReading t ops.
Proof.
  revert t ns. induction ops as [| op ops IH]; intros t ns Ht Hc Hns.
  - repeat split; assumption.
  - rewrite <- app_comm_cons in Hc.
    destruct op; cbn [Grid.clockAdvances lastGridReading Grid.run fold_left
                      Grid.apply] in *.
    + destruct Hc as [Hlt Hc]. apply IH; [lia | exact Hc |].
      unfold Grid.addNote, gridIdsStored. apply Forall_app. split.
      * eapply Forall_impl; [| exact Hns].
        intros n (u & r & Hu & E). exists u, r. split; [lia | exact E].
      * constructor; [| constructor].
        exists now, rnd. split; [lia | reflexivity].
    + apply IH; [exact Ht | exact Hc |].
      unfold Grid.removeNote, gridIdsStored. apply Forall_forall.
      intros n Hn. apply filter_In in Hn. destruct Hn as [Hn _].
      revert n Hn. apply Forall_forall. exact Hns.
    + apply IH; [exact Ht | exact Hc | constructor].
Qed.

End Freshness.

(** C6, as amended.  When the readings of [Date.now()] taken by successive
    adds are strictly increasing, a click that adds a note gives it an id
    that no note already in the store has; the same holds for the grid
    editor's [addNote] (readings nonnegative).  A drag rewrites tick and
    pitch and keeps every id in place, and a removal keeps the remaining
    notes as they are, so an id stays with its note for as long as the note
    is in the store. *)
Theorem ids_fresh_when_clock_advances (evs : list Canvas.Event) (t0 : Z)
    (x y : Q) (now : Z)
    (H : Canvas.clockAdvances t0 (evs ++ [Canvas.MouseDown x y now])) :
  let st := Canvas.run evs Canvas.initial in
  (forall n, In n (Canvas.notes st) ->
     Note.id n <> Note.id (Canvas.newNote st x y now))
  /\ (Canvas.notes (Canvas.handle (Canvas.MouseDown x y now) st)
        = Canvas.notes st
      \/ Canvas.notes (Canvas.handle (Canvas.MouseDown x y now) st)
        = Canvas.notes st ++ [Canvas.newNote st x y now])
  /\ (forall x' y' st',
        map Note.id (Canvas.notes (Canvas.handleCanvasMouseMove x' y' st'))
        = map Note.id (Canvas.notes st'))
  /\ (forall id ns n, In n (Canvas.removeNote id ns) -> In n ns)
  /\ (forall ops u0 pitch start duration now' rnd,
        0 <= u0 ->
        Grid.clockAdvances u0
          (ops ++ [Grid.Add pitch start duration now' rnd]) ->
        Grid.run (ops ++ [Grid.Add pitch start duration now' rnd]) []
        = Grid.run ops []
            ++ [Grid.mkNote (gridId now' rnd) pitch start duration 80]
        /\ forall g, In g (Grid.run ops []) -> Grid.id g <> gridId now' rnd).
Proof.
  intros st. split; [| split; [| split; [| split]]].
  - destruct (idsStored_run evs [Canvas.MouseDown x y now] t0 Canvas.initial H)
      as [Hst Hc]; [constructor |].
    cbn [Canvas.clockAdvances] in Hc. destruct Hc as [Hlt _].
    intros n Hn. cbn [Canvas.newNote Note.id].
    apply (storedId_fresh (lastReading t0 evs)); [exact Hlt |].
    unfold idsStored in Hst. fold st in Hst.
    revert n Hn. apply Forall_forall. exact Hst.
  - cbn [Canvas.handle]. unfold Canvas.handleCanvasMouseDown.
    destruct (Canvas.onPianoKeys x); [left; reflexivity |].
    destruct (find _ _); [left | right]; reflexivity.
  - intros x' y' st'. unfold Canvas.handleCanvasMouseMove.
    destruct (Canvas.dragInfo st') as [d |]; [| reflexivity].
    destruct (negb (Canvas.isDragging d)); [reflexivity |].
    cbn [Canvas.setNotes Canvas.notes]. apply moveNote_ids.
  - intros id ns n Hn. unfold Canvas.removeNote in Hn.
    apply filter_In in Hn. apply Hn.
  - intros ops u0 pitch start duration now' rnd Hu Hc. split.
    + unfold Grid.run. rewrite fold_left_app. reflexivity.
    + destruct (gridIds_run ops [Grid.Add pitch start duration now' rnd]
                  u0 [] Hu Hc) as (Hst & Hc' & Hpos); [constructor |].
      cbn [Grid.clockAdvances] in Hc'. destruct Hc' as [Hlt _].
      intros g Hg.
      apply (storedGridId_fresh (lastGridReading u0 ops)); [lia |].
      revert g Hg. apply Forall_forall. exact Hst.
Qed.

Lemma ids_fresh_when_clock_advances_witness :
  Canvas.clockAdvances 0
    ([Canvas.MouseDown 250 5 1000] ++ [Canvas.MouseDown 400 5 1001])
  /\ Note.id (Note.mk "1000" 960 120 84 80)
     <> Note.id
          (Canvas.newNote
             (Canvas.run [Canvas.MouseDown 250 5 1000] Canvas.initial)
             400 5 1001).
Proof.
  assert (Hc : Canvas.clockAdvances 0
                 ([Canvas.MouseDown 250 5 1000]
                    ++ [Canvas.MouseDown 400 5 1001])) by (cbn; lia).
  split; [exact Hc |].
  apply (proj1 (ids_fresh_when_clock_advances
                  [Canvas.MouseDown 250 5 1000] 0 400 5 1001 Hc)).
  vm_compute. left. reflexivity.
Defined.

(** C6 as stated quantifies over every sequence of adds.  Two clicks on free
    cells within the same millisecond both add a note, and the second note
    gets the id the first already has. *)
Lemma same_reading_same_id :
  map Note.id
    (Canvas.notes
       (Canvas.run [Canvas.MouseDown 250 5 1000; Canvas.MouseDown 400 5 1000]
          Canvas.initial))
  = ["1000"; "1000"]%string
  /\ ~ (forall n,
          In n (Canvas.notes
                  (Canvas.run [Canvas.MouseDown 250 5 1000] Canvas.initial)) ->
          Note.id n
          <> Note.id
               (Canvas.newNote
                  (Canvas.run [Canvas.MouseDown 250 5 1000] Canvas.initial)
                  400 5 1000)).
Proof.
  split; [vm_compute; reflexivity |].
  intros Hfresh.
  apply (Hfresh (Note.mk "1000" 960 120 84 80)).
  - vm_compute. left. reflexivity.
  - reflexivity.
Qed.

(** ** The exported file *)

Section ExportLayout.

Import Midi.

Lemma insert_In (a b : Event) (l : list Event) :
  In b (insert a l) -> b = a \/ In b l.
Proof.
  induction l as [| c l IH]; cbn [insert].
  - intros [<- | []]. left. reflexivity.
  - destruct (ev_tick a - ev_tick c <=? 0).
    + intros [<- | Hin]; [left; reflexivity | right; exact Hin].
    + intros [<- | Hin]; [right; left; reflexivity |].
      destruct (IH Hin) as [-> | Hl]; [left; reflexivity | right; right; exact Hl].
Qed.

Lemma sort_In (b : Event) (l : list Event) : In b (sort l) -> In b l.
Proof.
  induction l as [| a l IH]; cbn [sort]; [exact (fun H => H) |].
  intros Hin. destruct (insert_In _ _ _ Hin) as [-> | Hl].
  - left. reflexivity.
  - right. apply IH, Hl.
Qed.

Lemma insert_first (a : Event) (l : list Event) :
  (forall b, In b l -> ev_tick a <= ev_tick b) -> insert a l = a :: l.
Proof.
  destruct l as [| c l]; [reflexivity |]. intros H. cbn [insert].
  specialize (H c (or_introl eq_refl)).
  destruct (Z.leb_spec (ev_tick a - ev_tick c) 0); [reflexivity | lia].
Qed.

Lemma noteEvents_ticks (notes : list Note.t) (b : Event) :
  Forall (fun n => 0 <= Note.tick n /\ 0 <= Note.length n) notes ->
  In b (flat_map noteEvents notes) -> 0 <= ev_tick b.
Proof.
  intros H Hin. apply in_flat_map in Hin. destruct Hin as (n & Hn & Hb).
  pose proof (proj1 (Forall_forall _ _) H n Hn) as [Ht Hl].
  destruct Hb as [<- | [<- | []]]; cbn [ev_tick]; lia.
Qed.

(** With no note before tick 0 the tempo event stays in front. *)
Lemma sort_events (notes : list Note.t) (bpm : Z) :
  Forall (fun n => 0 <= Note.tick n /\ 0 <= Note.length n) notes ->
  sort (events notes bpm)
  = tempoEvent bpm :: sort (flat_map noteEvents notes).
Proof.
  intros H. unfold events. cbn [sort]. apply insert_first.
  intros b Hb. apply sort_In in Hb. cbn [tempoEvent ev_tick].
  apply (noteEvents_ticks notes); assumption.
Qed.

Lemma emit_prefix (l : list Event) (t : Z) (acc : list Z) :
  exists rest, snd (fold_left emit l (t, acc)) = acc ++ rest.
Proof.
  revert t acc. induction l as [| ev l IH]; intros t acc.
  - exists []. cbn. rewrite app_nil_r. reflexivity.
  - cbn [fold_left]. unfold emit at 2. cbn [fst snd].
    destruct (IH (ev_tick ev)
                (acc ++ variableLength (ev_tick ev - t) ++ tl (ev_bytes ev)))
      as [rest E].
    exists ((variableLength (ev_tick ev - t) ++ tl (ev_bytes ev)) ++ rest).
    rewrite E, <- app_assoc. reflexivity.
Qed.

Lemma outBytes_layout (notes : list Note.t) (bpm : Z) :
  Forall (fun n => 0 <= Note.tick n /\ 0 <= Note.length n) notes ->
  exists rest,
    outBytes notes bpm
    = (variableLength 0 ++ tl (ev_bytes (tempoEvent bpm))) ++ rest.
Proof.
  intros H. unfold outBytes. rewrite (sort_events notes bpm H).
  cbn [fold_left].
  replace (emit (0, []) (tempoEvent bpm))
    with (0, variableLength 0 ++ tl (ev_bytes (tempoEvent bpm)))
    by reflexivity.
  destruct (emit_prefix (sort (flat_map noteEvents notes)) 0
              (variableLength 0 ++ tl (ev_bytes (tempoEvent bpm))))
    as [rest E].
  rewrite E. exists (rest ++ [0x00; 0xff; 0x2f; 0x00]).
  rewrite <- app_assoc. reflexivity.
Qed.

Lemma Uint8Array_app (a b : list Z) :
  JS.Uint8Array (a ++ b) = JS.Uint8Array a ++ JS.Uint8Array b.
Proof. apply map_app. Qed.

Lemma Uint8Array_idem (a : list Z) :
  JS.Uint8Array (JS.Uint8Array a) = JS.Uint8Array a.
Proof.
  unfold JS.Uint8Array. rewrite map_map. apply map_ext. intros b.
  unfold JS.toUint8. apply Z.mod_mod. lia.
Qed.

(** The layout of the file: header chunk, ["MTrk"], four length bytes, the
    tempo event with delta 0, then the rest of the track. *)
Lemma writeMidi_layout (notes : list Note.t) (ppq bpm : Z) :
  Forall (fun n => 0 <= Note.tick n /\ 0 <= Note.length n) notes ->
  exists len rest,
    List.length len = 4%nat
    /\ writeMidi notes ppq bpm
       = JS.Uint8Array (headerChunk ppq) ++ [77; 84; 114; 107] ++ len
           ++ JS.Uint8Array (variableLength 0 ++ tl (ev_bytes (tempoEvent bpm)))
           ++ rest.
Proof.
  intros H. unfold writeMidi, trackChunk.
  destruct (outBytes_layout notes bpm H) as [rest E]. rewrite E.
  set (body := (variableLength 0 ++ tl (ev_bytes (tempoEvent bpm))) ++ rest).
  exists (JS.Uint8Array (writeUint32BE (Z.of_nat (List.length body)))),
    (JS.Uint8Array rest).
  split; [reflexivity |].
  rewrite Uint8Array_app, Uint8Array_idem.
  rewrite !Uint8Array_app. unfold body. rewrite !Uint8Array_app.
  rewrite <- !app_assoc. reflexivity.
Qed.

End ExportLayout.

(** The writer called with its parameters in declared order, PPQ 480 and
    BPM 120: the division field is [01 E0] (480) and the first track event
    is [00 FF 51 03 07 A1 20] (500000 microseconds per quarter). *)
Lemma writeMidi_480_120 (notes : list Note.t)
    (H : Forall (fun n => 0 <= Note.tick n /\ 0 <= Note.length n) notes) :
  exists len rest,
    List.length len = 4%nat
    /\ Midi.writeMidi notes 480 120
       = [77; 84; 104; 100; 0; 0; 0; 6; 0; 0; 0; 1; 0x01; 0xE0]
           ++ [77; 84; 114; 107] ++ len
           ++ [0x00; 0xFF; 0x51; 0x03; 0x07; 0xA1; 0x20] ++ rest.
Proof.
  destruct (writeMidi_layout notes 480 120 H) as (len & rest & Hl & E).
  exists len, rest. split; [exact Hl |]. rewrite E. reflexivity.
Qed.

(** C1 on the code.  The export button calls [writeMidi(notes, BPM, PPQ)]
    while the writer's parameters are [(notes, ppq, bpm)], so the file is
    written with division 120 ([00 78]) and a tempo of
    round(60000000 / 480) = 125000 microseconds per quarter
    ([00 FF 51 03 01 E8 48]) instead of [01 E0] and [07 A1 20]. *)
Theorem exportMIDI_swaps_ppq_and_bpm (st : Canvas.State)
    (H : Forall (fun n => 0 <= Note.tick n /\ 0 <= Note.length n)
           (Canvas.notes st)) :
  exists len rest,
    List.length len = 4%nat
    /\ Canvas.exportMIDI st
       = [77; 84; 104; 100; 0; 0; 0; 6; 0; 0; 0; 1; 0x00; 0x78]
           ++ [77; 84; 114; 107] ++ len
           ++ [0x00; 0xFF; 0x51; 0x03; 0x01; 0xE8; 0x48] ++ rest.
Proof.
  unfold Canvas.exportMIDI.
  destruct (writeMidi_layout (Canvas.notes st) Canvas.BPM Canvas.PPQ H)
    as (len & rest & Hl & E).
  exists len, rest. split; [exact Hl |]. rewrite E. reflexivity.
Qed.

Lemma exportMIDI_swaps_ppq_and_bpm_witness :
  exists len rest,
    List.length len = 4%nat
    /\ Canvas.exportMIDI
         (Canvas.setNotes [Note.mk "1000" 960 120 84 80] Canvas.initial)
       = [77; 84; 104; 100; 0; 0; 0; 6; 0; 0; 0; 1; 0x00; 0x78]
           ++ [77; 84; 114; 107] ++ len
           ++ [0x00; 0xFF; 0x51; 0x03; 0x01; 0xE8; 0x48] ++ rest.
Proof.
  apply (exportMIDI_swaps_ppq_and_bpm
           (Canvas.setNotes [Note.mk "1000" 960 120 84 80] Canvas.initial)).
  cbn [Canvas.setNotes Canvas.notes].
  constructor; [cbn; lia | constructor].
Defined.

(** Every note a session can hold has the default length. *)
Lemma session_lengths (evs : list Canvas.Event) (st : Canvas.State) :
  Forall (fun n => Note.length n = Canvas.PPQ / 4) (Canvas.notes st) ->
  Forall (fun n => Note.length n = Canvas.PPQ / 4)
    (Canvas.notes (Canvas.run evs st)).
Proof.
  revert st. induction evs as [| e evs IH]; intros st Hst; [exact Hst |].
  cbn [Canvas.run fold_left]. apply IH.
  destruct (handle_StoreStep e st)
    as [e | x y now Hx | x y d Hd Hg | e id | | midiData clock].
  - exact Hst.
  - apply Forall_app. split; [exact Hst |]. repeat constructor.
  - unfold Canvas.moveNote. apply Forall_forall. intros n Hn.
    apply in_map_iff in Hn. destruct Hn as (m & <- & Hm).
    pose proof (proj1 (Forall_forall _ _) Hst m Hm) as Hl.
    destruct (String.eqb (Note.id m) (Canvas.noteId d)); exact Hl.
  - apply removeNote_Forall, Hst.
  - constructor.
  - rewrite importedNotes_closed_form. apply Forall_forall. intros n Hn.
    apply in_map_iff in Hn. destruct Hn as (i & <- & _). reflexivity.
Qed.

(** The export of any session carries the swapped division and tempo. *)
Lemma exportMIDI_in_every_session (evs : list Canvas.Event) :
  Forall Canvas.deliverable evs ->
  exists len rest,
    List.length len = 4%nat
    /\ Canvas.exportMIDI (Canvas.run evs Canvas.initial)
       = [77; 84; 104; 100; 0; 0; 0; 6; 0; 0; 0; 1; 0x00; 0x78]
           ++ [77; 84; 114; 107] ++ len
           ++ [0x00; 0xFF; 0x51; 0x03; 0x01; 0xE8; 0x48] ++ rest.
Proof.
  intros Hd. unfold Canvas.exportMIDI.
  destruct (writeMidi_layout (Canvas.notes (Canvas.run evs Canvas.initial))
              Canvas.BPM Canvas.PPQ)
    as (len & rest & Hl & E).
  - destruct (gridInvariant_run evs Canvas.initial Hd) as [_ Hticks];
      [split; [reflexivity | constructor] |].
    pose proof (session_lengths evs Canvas.initial (Forall_nil _)) as Hlen.
    apply Forall_forall. intros n Hn.
    pose proof (proj1 (Forall_forall _ _) Hticks n Hn) as (k & Hk & Ek).
    pose proof (proj1 (Forall_forall _ _) Hlen n Hn) as El.
    rewrite Ek, El. change (Canvas.PPQ / 8) with 60.
    change (Canvas.PPQ / 4) with 120. lia.
  - exists len, rest. split; [exact Hl |]. rewrite E. reflexivity.
Qed.

Example export_one_note :
  Canvas.exportMIDI
    (Canvas.setNotes [Note.mk "1000" 960 120 84 80] Canvas.initial)
  = [77; 84; 104; 100; 0; 0; 0; 6; 0; 0; 0; 1; 0; 120;
     77; 84; 114; 107; 0; 0; 0; 20;
     0; 255; 81; 3; 1; 232; 72;
     135; 64; 144; 84; 80;
     120; 128; 84; 64;
     0; 255; 47; 0].
Proof. vm_compute. reflexivity. Qed.

(** * Further properties of the sources *)

(** ** Big-endian fields of the writer *)

Section BigEndian.

Lemma toInt32_congruent (n : Z) :
  exists q, JS.toInt32 n = n - 2 ^ 32 * q.
Proof.
  unfold JS.toInt32. exists ((n + 2 ^ 31) / 2 ^ 32).
  pose proof (Z.div_mod (n + 2 ^ 31) (2 ^ 32) ltac:(lia)). lia.
Qed.

(** Byte [k / 8] of a number, as the writer extracts it. *)
Lemma byte_of_shifted (n k : Z) :
  0 <= k <= 24 ->
  JS.and (JS.shr n k) 0xff = (n / 2 ^ k) mod 256.
Proof.
  intros Hk. unfold JS.and, JS.shr.
  rewrite (Z.mod_small k 32) by lia.
  pose proof (toInt32_range n) as Hr.
  destruct (toInt32_congruent n) as [q Hq].
  set (w := JS.toInt32 n) in *.
  rewrite Z.shiftr_div_pow2 by lia.
  assert (Hp : 0 < 2 ^ k) by (apply Z.pow_pos_nonneg; lia).
  assert (Hlo : - 2 ^ 31 <= w / 2 ^ k).
  { apply Z.div_le_lower_bound; [exact Hp |].
    assert (1 <= 2 ^ k) by lia. nia. }
  assert (Hhi : w / 2 ^ k < 2 ^ 31).
  { apply Z.div_lt_upper_bound; [exact Hp |].
    assert (1 <= 2 ^ k) by lia. nia. }
  rewrite (toInt32_small (w / 2 ^ k)) by lia.
  rewrite (toInt32_small 0xff) by lia.
  change 0xff with (Z.ones 8). rewrite Z.land_ones by lia.
  rewrite Hq.
  replace (n - 2 ^ 32 * q) with (n + (- q * 2 ^ (32 - k)) * 2 ^ k).
  2:{ replace (2 ^ 32) with (2 ^ (32 - k) * 2 ^ k)
        by (rewrite <- Z.pow_add_r by lia; f_equal; lia).
      lia. }
  rewrite Z.div_add by lia.
  replace (2 ^ (32 - k)) with (2 ^ (24 - k) * 2 ^ 8)
    by (rewrite <- Z.pow_add_r by lia; f_equal; lia).
  replace (n / 2 ^ k + - q * (2 ^ (24 - k) * 2 ^ 8))
    with (n / 2 ^ k + (- q * 2 ^ (24 - k)) * 2 ^ 8) by lia.
  rewrite Z.mod_add by lia. reflexivity.
Qed.

Lemma byte_of_low (n : Z) : JS.and n 0xff = n mod 256.
Proof.
  unfold JS.and. rewrite (toInt32_small 0xff) by lia.
  change 0xff with (Z.ones 8). rewrite Z.land_ones by lia.
  destruct (toInt32_congruent n) as [q ->].
  replace (n - 2 ^ 32 * q) with (n + (- q * 2 ^ 24) * 2 ^ 8) by lia.
  rewrite Z.mod_add by lia. reflexivity.
Qed.

Lemma toUint8_mod (n : Z) : JS.toUint8 (n mod 256) = n mod 256.
Proof. unfold JS.toUint8. apply Z.mod_mod. lia. Qed.

Lemma writeUint32BE_bytes (n : Z) :
  Midi.writeUint32BE n
  = [(n / 2 ^ 24) mod 256; (n / 2 ^ 16) mod 256; (n / 2 ^ 8) mod 256;
     n mod 256].
Proof.
  unfold Midi.writeUint32BE, JS.Uint8Array. cbn [map].
  rewrite !byte_of_shifted by lia. rewrite byte_of_low, !toUint8_mod.
  reflexivity.
Qed.

Lemma writeUint16BE_bytes (n : Z) :
  Midi.writeUint16BE n = [(n / 2 ^ 8) mod 256; n mod 256].
Proof.
  unfold Midi.writeUint16BE, JS.Uint8Array. cbn [map].
  rewrite byte_of_shifted by lia. rewrite byte_of_low, !toUint8_mod.
  reflexivity.
Qed.

End BigEndian.

Lemma beValue_bytes32 (n : Z) :
  beValue [(n / 2 ^ 24) mod 256; (n / 2 ^ 16) mod 256; (n / 2 ^ 8) mod 256;
           n mod 256] = n mod 2 ^ 32.
Proof.
  unfold beValue. cbn [fold_left].
  pose proof (Z.div_mod n (2 ^ 32) ltac:(lia)).
  pose proof (Z.mod_pos_bound n (2 ^ 32) ltac:(lia)).
  pose proof (Z.div_mod n 256 ltac:(lia)).
  pose proof (Z.mod_pos_bound n 256 ltac:(lia)).
  pose proof (Z.div_mod (n / 2 ^ 8) 256 ltac:(lia)).
  pose proof (Z.mod_pos_bound (n / 2 ^ 8) 256 ltac:(lia)).
  pose proof (Z.div_mod (n / 2 ^ 16) 256 ltac:(lia)).
  pose proof (Z.mod_pos_bound (n / 2 ^ 16) 256 ltac:(lia)).
  pose proof (Z.div_mod (n / 2 ^ 24) 256 ltac:(lia)).
  pose proof (Z.mod_pos_bound (n / 2 ^ 24) 256 ltac:(lia)).
  assert (n / 2 ^ 16 = n / 2 ^ 8 / 256)
    by (rewrite Z.div_div by lia; reflexivity).
  assert (n / 2 ^ 24 = n / 2 ^ 16 / 256)
    by (rewrite Z.div_div by lia; reflexivity).
  assert (n / 2 ^ 32 = n / 2 ^ 24 / 256)
    by (rewrite Z.div_div by lia; reflexivity).
  change (2 ^ 8) with 256 in *. lia.
Qed.

Lemma writeUintBE_value_32 (n : Z) :
  beValue (Midi.writeUint32BE n) = n mod 2 ^ 32.
Proof. rewrite writeUint32BE_bytes. apply beValue_bytes32. Qed.

(** X1.  For every number [n] the four bytes of [writeUint32BE n] are bytes
    and, read big-endian, give [n] modulo 2^32; the two bytes of
    [writeUint16BE n] give [n] modulo 2^16.  So a field in range reads back
    as [n] itself, and a PPQ of 65536 or more is written truncated. *)
Theorem writeUintBE_value (n : Z) :
  Forall (fun b => 0 <= b < 256) (Midi.writeUint32BE n)
  /\ beValue (Midi.writeUint32BE n) = n mod 2 ^ 32
  /\ Forall (fun b => 0 <= b < 256) (Midi.writeUint16BE n)
  /\ beValue (Midi.writeUint16BE n) = n mod 2 ^ 16.
Proof.
  rewrite writeUint32BE_bytes, writeUint16BE_bytes.
  pose proof (beValue_bytes32 n) as E32.
  assert (E16 : beValue [(n / 2 ^ 8) mod 256; n mod 256] = n mod 2 ^ 16).
  { unfold beValue. cbn [fold_left].
    pose proof (Z.div_mod n (2 ^ 16) ltac:(lia)).
    pose proof (Z.mod_pos_bound n (2 ^ 16) ltac:(lia)).
    pose proof (Z.div_mod n 256 ltac:(lia)).
    pose proof (Z.mod_pos_bound n 256 ltac:(lia)).
    pose proof (Z.div_mod (n / 2 ^ 8) 256 ltac:(lia)).
    pose proof (Z.mod_pos_bound (n / 2 ^ 8) 256 ltac:(lia)).
    assert (n / 2 ^ 16 = n / 2 ^ 8 / 256)
      by (rewrite Z.div_div by lia; reflexivity).
    change (2 ^ 8) with 256 in *. lia. }
  split; [repeat constructor; apply Z.mod_pos_bound; lia |].
  split; [exact E32 |].
  split; [repeat constructor; apply Z.mod_pos_bound; lia |].
  exact E16.
Qed.

(** ** The sort of the events *)

Section EventSort.

Import Midi.

Lemma insert_perm (a : Event) (l : list Event) :
  Permutation (a :: l) (insert a l).
Proof.
  induction l as [| b l IH]; cbn [insert]; [apply Permutation_refl |].
  destruct (ev_tick a - ev_tick b <=? 0); [apply Permutation_refl |].
  eapply perm_trans; [apply perm_swap |].
  apply perm_skip, IH.
Qed.

Lemma sort_perm (l : list Event) : Permutation l (sort l).
Proof.
  induction l as [| a l IH]; cbn [sort]; [constructor |].
  eapply perm_trans; [apply perm_skip, IH |].
  apply insert_perm.
Qed.

Lemma insert_sorted (a : Event) (l : list Event) :
  StronglySorted tickLe l -> StronglySorted tickLe (insert a l).
Proof.
  induction 1 as [| b l Hs IH Hb]; cbn [insert].
  - repeat constructor.
  - destruct (Z.leb_spec (ev_tick a - ev_tick b) 0) as [Hle | Hgt].
    + constructor; [constructor; assumption |].
      constructor; [unfold tickLe; lia |].
      eapply Forall_impl; [| exact Hb]. unfold tickLe. intros c Hc. lia.
    + constructor; [exact IH |].
      apply Forall_forall. intros c Hc.
      destruct (insert_In _ _ _ Hc) as [-> | Hl].
      * unfold tickLe. lia.
      * exact (proj1 (Forall_forall _ _) Hb c Hl).
Qed.

Lemma sort_sorted (l : list Event) : StronglySorted tickLe (sort l).
Proof.
  induction l as [| a l IH]; cbn [sort]; [constructor |].
  apply insert_sorted, IH.
Qed.

Lemma insert_stable (t : Z) (a : Event) (l : list Event) :
  filter (fun e => ev_tick e =? t) (insert a l)
  = filter (fun e => ev_tick e =? t) (a :: l).
Proof.
  induction l as [| b l IH]; cbn [insert]; [reflexivity |].
  destruct (Z.leb_spec (ev_tick a - ev_tick b) 0) as [Hle | Hgt];
    [reflexivity |].
  cbn [filter] in *. rewrite IH.
  destruct (Z.eqb_spec (ev_tick a) t) as [Ea | Ea];
    destruct (Z.eqb_spec (ev_tick b) t) as [Eb | Eb];
    try reflexivity.
  lia.
Qed.

Lemma sort_stable (t : Z) (l : list Event) :
  filter (fun e => ev_tick e =? t) (sort l)
  = filter (fun e => ev_tick e =? t) l.
Proof.
  induction l as [| a l IH]; cbn [sort]; [reflexivity |].
  rewrite insert_stable. cbn [filter]. rewrite IH. reflexivity.
Qed.

End EventSort.

(** X2.  The writer's sort puts any list of events in ascending tick order,
    keeps exactly the events it was given, and keeps the events of one tick
    in the order they were pushed (tempo, then each note's on and off in
    array order). *)
Theorem sort_ascending_stable (l : list Midi.Event) (t : Z) :
  StronglySorted (fun a b => Midi.ev_tick a <= Midi.ev_tick b)
    (Midi.sort l)
  /\ Permutation l (Midi.sort l)
  /\ filter (fun e => Midi.ev_tick e =? t) (Midi.sort l)
     = filter (fun e => Midi.ev_tick e =? t) l.
Proof.
  split; [exact (sort_sorted l) |].
  split; [exact (sort_perm l) | exact (sort_stable t l)].
Qed.

(** ** The framing of the file *)

Section Framing.

Import Midi.

Lemma outBytes_ends (notes : list Note.t) (bpm : Z) :
  exists front, outBytes notes bpm = front ++ [0x00; 0xff; 0x2f; 0x00].
Proof. unfold outBytes. eexists. reflexivity. Qed.

Lemma headerChunk_bytes (ppq : Z) :
  JS.Uint8Array (headerChunk ppq)
  = [77; 84; 104; 100; 0; 0; 0; 6; 0; 0; 0; 1] ++ writeUint16BE ppq.
Proof.
  unfold headerChunk. rewrite Uint8Array_idem, !Uint8Array_app.
  rewrite (writeUint16BE_bytes ppq).
  cbn [JS.Uint8Array map]. rewrite !toUint8_mod. reflexivity.
Qed.

End Framing.

(** X3.  Whatever the notes, the file is the 14-byte header chunk (magic,
    length 6, format 0, one track, then PPQ as a 16-bit field), the magic
    ["MTrk"], a four-byte field and the track body; the field holds the
    number of body bytes (modulo 2^32), which is the number of bytes up to
    the end of the file, and the body ends with the end-of-track event
    [00 FF 2F 00]. *)
Theorem writeMidi_framing (notes : list Note.t) (ppq bpm : Z) :
  let body := JS.Uint8Array (Midi.outBytes notes bpm) in
  let field := Midi.writeUint32BE (Z.of_nat (List.length body)) in
  Midi.writeMidi notes ppq bpm
  = ([77; 84; 104; 100; 0; 0; 0; 6; 0; 0; 0; 1] ++ Midi.writeUint16BE ppq)
      ++ [77; 84; 114; 107] ++ field ++ body
  /\ beValue field = Z.of_nat (List.length body) mod 2 ^ 32
  /\ List.length (Midi.writeMidi notes ppq bpm) = (22 + List.length body)%nat
  /\ exists front, body = front ++ [0x00; 0xFF; 0x2F; 0x00].
Proof.
  intros body field.
  assert (E : Midi.writeMidi notes ppq bpm
              = ([77; 84; 104; 100; 0; 0; 0; 6; 0; 0; 0; 1]
                   ++ Midi.writeUint16BE ppq)
                  ++ [77; 84; 114; 107] ++ field ++ body).
  { unfold Midi.writeMidi, Midi.trackChunk.
    rewrite Uint8Array_app, Uint8Array_idem, headerChunk_bytes.
    rewrite !Uint8Array_app. f_equal. f_equal.
    unfold field, body. f_equal.
    - unfold JS.Uint8Array at 1. rewrite writeUint32BE_bytes. cbn [map].
      rewrite !toUint8_mod. rewrite writeUint32BE_bytes.
      unfold JS.Uint8Array. rewrite length_map. reflexivity. }
  split; [exact E |].
  split; [apply writeUintBE_value_32 |].
  split.
  - rewrite E. rewrite !length_app. unfold field.
    rewrite writeUint32BE_bytes, writeUint16BE_bytes. cbn [List.length]. lia.
  - unfold body. destruct (outBytes_ends notes bpm) as [front ->].
    exists (JS.Uint8Array front). rewrite Uint8Array_app. reflexivity.
Qed.

(** ** The tempo event *)

Section Tempo.

Import Midi.

Lemma mpq_value (bpm : Z) :
  0 < bpm -> mpq bpm = (2 * 60000000 + bpm) / (2 * bpm).
Proof.
  intros Hb. destruct bpm as [| p | p]; try lia.
  unfold mpq, JS.Math_round, Qfloor, Qplus, Qdiv, Qmult, Qinv, inject_Z.
  cbn [Qnum Qden]. rewrite Pos.mul_1_l, Pos2Z.inj_mul. f_equal; lia.
Qed.

Lemma beValue_bytes24 (n : Z) :
  0 <= n < 2 ^ 24 ->
  beValue [(n / 2 ^ 16) mod 256; (n / 2 ^ 8) mod 256; n mod 256] = n.
Proof.
  intros Hn. unfold beValue. cbn [fold_left].
  pose proof (Z.div_mod n 256 ltac:(lia)).
  pose proof (Z.mod_pos_bound n 256 ltac:(lia)).
  pose proof (Z.div_mod (n / 2 ^ 8) 256 ltac:(lia)).
  pose proof (Z.mod_pos_bound (n / 2 ^ 8) 256 ltac:(lia)).
  assert (E : n / 2 ^ 16 = n / 2 ^ 8 / 256)
    by (rewrite Z.div_div by lia; reflexivity).
  assert (0 <= n / 2 ^ 16 < 256).
  { split; [apply Z.div_pos; lia | apply Z.div_lt_upper_bound; lia]. }
  rewrite (Z.mod_small (n / 2 ^ 16) 256) by lia.
  change (2 ^ 8) with 256 in *. lia.
Qed.

End Tempo.

(** X4.  For a tempo of at least 4 BPM the tempo event is
    [00 FF 51 03 b1 b2 b3] where [b1 b2 b3], read big-endian, is the number
    of microseconds per quarter note: the integer nearest to 60000000 / bpm,
    which fits the 24-bit field. *)
Theorem tempoEvent_bytes (bpm : Z) (H : 4 <= bpm) :
  exists b1 b2 b3,
    Midi.ev_bytes (Midi.tempoEvent bpm) = [0x00; 0xFF; 0x51; 0x03; b1; b2; b3]
    /\ Midi.ev_tick (Midi.tempoEvent bpm) = 0
    /\ beValue [b1; b2; b3] = Midi.mpq bpm
    /\ 0 <= Midi.mpq bpm < 2 ^ 24
    /\ - bpm <= 2 * (60000000 - Midi.mpq bpm * bpm) < bpm.
Proof.
  assert (Hm : Midi.mpq bpm = (2 * 60000000 + bpm) / (2 * bpm))
    by (apply mpq_value; lia).
  pose proof (Z.div_mod (2 * 60000000 + bpm) (2 * bpm) ltac:(lia)) as Hdm.
  pose proof (Z.mod_pos_bound (2 * 60000000 + bpm) (2 * bpm) ltac:(lia)) as Hmb.
  rewrite <- Hm in Hdm.
  assert (Hr : 0 <= Midi.mpq bpm < 2 ^ 24).
  { split.
    - rewrite Hm. apply Z.div_pos; lia.
    - rewrite Hm. apply Z.div_lt_upper_bound; lia. }
  exists ((Midi.mpq bpm / 2 ^ 16) mod 256), ((Midi.mpq bpm / 2 ^ 8) mod 256),
    (Midi.mpq bpm mod 256).
  split.
  { unfold Midi.tempoEvent. cbn [Midi.ev_bytes].
    rewrite !byte_of_shifted by lia. rewrite byte_of_low. reflexivity. }
  split; [reflexivity |].
  split; [apply beValue_bytes24; lia |].
  split; [exact Hr | nia].
Qed.

Lemma tempoEvent_bytes_witness :
  4 <= 120
  /\ exists b1 b2 b3,
       Midi.ev_bytes (Midi.tempoEvent 120)
       = [0x00; 0xFF; 0x51; 0x03; b1; b2; b3]
       /\ Midi.ev_tick (Midi.tempoEvent 120) = 0
       /\ beValue [b1; b2; b3] = Midi.mpq 120
       /\ 0 <= Midi.mpq 120 < 2 ^ 24
       /\ - 120 <= 2 * (60000000 - Midi.mpq 120 * 120) < 120.
Proof.
  split; [lia | apply (tempoEvent_bytes 120); lia].
Defined.

(** ** Reading the track back *)

Lemma vlLoop_groups (v : Z) :
  0 <= v < 2 ^ 31 ->
  forall vl, exists ds,
    Midi.vlLoop v vl = ds ++ vl /\ ds <> []
    /\ Forall (fun g => 0 <= g < 128) ds
    /\ fold_left (fun a g => a * 128 + g) ds 0 = v.
Proof.
  pattern v. apply (well_founded_induction (Z.lt_wf 0)). clear v.
  intros v IH Hv vl.
  rewrite vlLoop_unfold, shr_7, and_0x7f by lia.
  pose proof (Z.div_mod v 128 ltac:(lia)) as Edm.
  pose proof (Z.mod_pos_bound v 128 ltac:(lia)) as Hm.
  destruct (Z.ltb_spec 0 (v / 128)) as [Hpos | Hzero].
  - assert (Hbig : 128 <= v).
    { destruct (Z.lt_ge_cases v 128); auto.
      rewrite Z.div_small in Hpos; lia. }
    assert (Hq : v / 128 < v) by (apply Z.div_lt; lia).
    destruct (IH (v / 128) ltac:(lia) ltac:(lia) (v mod 128 :: vl))
      as (ds & E & Hne & Hr & Hval).
    exists (ds ++ [v mod 128]). split.
    { rewrite E, <- app_assoc. reflexivity. }
    split; [destruct ds; discriminate |].
    split; [apply Forall_app; split; [exact Hr | repeat constructor; lia] |].
    rewrite fold_left_app. cbn [fold_left]. rewrite Hval. lia.
  - assert (Hsmall : v / 128 = 0).
    { assert (0 <= v / 128) by (apply Z.div_pos; lia). lia. }
    exists [v mod 128]. split; [reflexivity |].
    split; [discriminate |].
    split; [repeat constructor; lia |].
    cbn [fold_left]. lia.
Qed.

Section ReadBack.

Import Midi.

Lemma pushGroups_one (g : Z) : pushGroups [g] = [g].
Proof. reflexivity. Qed.

Lemma pushGroups_cons (g g' : Z) (l : list Z) :
  pushGroups (g :: g' :: l) = JS.or g 0x80 :: pushGroups (g' :: l).
Proof.
  unfold pushGroups. set (n := List.length (g' :: l)).
  change (List.length (g :: g' :: l)) with (S n).
  rewrite <- cons_seq. cbn [map]. f_equal.
  rewrite <- seq_shift, map_map. apply map_ext. intros i. cbn [nth].
  replace (S n - 1)%nat with (S (n - 1)) by (subst n; cbn [List.length]; lia).
  reflexivity.
Qed.

Lemma readVarLen_pushGroups (ds : list Z) :
  ds <> [] -> Forall (fun g => 0 <= g < 128) ds ->
  forall acc rest,
    readVarLen acc (pushGroups ds ++ rest)
    = Some (fold_left (fun a g => a * 128 + g) ds acc, rest).
Proof.
  induction ds as [| g ds IH]; [intros H; contradiction |].
  intros _ Hr acc rest. inversion Hr as [| ? ? Hg Hr']; subst.
  destruct ds as [| g' ds].
  - rewrite pushGroups_one. cbn [app readVarLen fold_left].
    destruct (Z.ltb_spec g 128); [reflexivity | lia].
  - rewrite pushGroups_cons, or_0x80 by exact Hg.
    cbn [app readVarLen fold_left].
    destruct (Z.ltb_spec (g + 128) 128); [lia |].
    replace (g + 128 - 128) with g by lia.
    apply IH; [discriminate | exact Hr'].
Qed.

Lemma pushGroups_bytes (ds : list Z) :
  Forall (fun g => 0 <= g < 128) ds ->
  Forall (fun b => 0 <= b < 256) (pushGroups ds).
Proof.
  induction ds as [| g ds IH]; intros Hr; [constructor |].
  inversion Hr as [| ? ? Hg Hr']; subst.
  destruct ds as [| g' ds].
  - rewrite pushGroups_one. repeat constructor; lia.
  - rewrite pushGroups_cons, or_0x80 by exact Hg.
    constructor; [lia | apply IH, Hr'].
Qed.

Lemma readVarLen_variableLength (d : Z) (rest : list Z) :
  0 <= d < 2 ^ 31 ->
  readVarLen 0 (variableLength d ++ rest) = Some (d, rest)
  /\ Forall (fun b => 0 <= b < 256) (variableLength d)
  /\ variableLength d <> [].
Proof.
  intros Hd. unfold variableLength.
  destruct (vlLoop_groups d Hd []) as (ds & E & Hne & Hr & Hval).
  rewrite E, app_nil_r. split; [| split].
  - rewrite readVarLen_pushGroups by assumption. rewrite Hval. reflexivity.
  - apply pushGroups_bytes, Hr.
  - destruct ds as [| g [| g' ds]]; [contradiction | discriminate |].
    rewrite pushGroups_cons. discriminate.
Qed.

Lemma last_cons_default {A : Type} (l : list A) (a d : A) :
  last (a :: l) d = last l a.
Proof.
  revert a d. induction l as [| b l IH]; intros a d; [reflexivity |].
  change (last (a :: b :: l) d) with (last (b :: l) d).
  rewrite (IH b d), (IH b a). reflexivity.
Qed.

Lemma fold_emit (l : list Event) (t : Z) (acc : list Z) :
  fold_left emit l (t, acc)
  = (last (map ev_tick l) t, acc ++ encodeAll t l).
Proof.
  revert t acc. induction l as [| ev l IH]; intros t acc.
  - cbn. rewrite app_nil_r. reflexivity.
  - cbn [fold_left]. unfold emit at 2. cbn [fst snd]. rewrite IH.
    cbn [encodeAll map]. rewrite <- !app_assoc, last_cons_default.
    reflexivity.
Qed.

Lemma encodeAll_bytes (l : list Event) (t : Z) :
  chained t l ->
  Forall (fun b => 0 <= b < 256) (encodeAll t l)
  /\ (List.length l <= List.length (encodeAll t l))%nat.
Proof.
  revert t. induction l as [| ev l IH]; intros t Hc.
  - split; [constructor | apply Nat.le_refl].
  - cbn [chained] in Hc. destruct Hc as (Hd & [Hb _] & Hc).
    destruct (readVarLen_variableLength (ev_tick ev - t) [] Hd)
      as (_ & Hvb & Hvn).
    destruct (IH _ Hc) as [IHb IHl]. cbn [encodeAll]. split.
    + apply Forall_app. split; [exact Hvb |].
      apply Forall_app. split; assumption.
    + rewrite !length_app. cbn [List.length].
      destruct (variableLength (ev_tick ev - t)); [contradiction |].
      cbn [List.length]. lia.
Qed.

Lemma readTrack_encodeAll (l : list Event) :
  forall t fuel,
    chained t l -> (List.length l < fuel)%nat ->
    readTrack fuel t (encodeAll t l ++ [0x00; 0xff; 0x2f; 0x00])
    = Some (map timed l ++ [(last (map ev_tick l) t, [0xff; 0x2f; 0x00])]).
Proof.
  induction l as [| ev l IH]; intros t fuel Hc Hf.
  - destruct fuel as [| fuel]; [lia |].
    cbn [encodeAll app map last]. cbn. rewrite Z.add_0_r.
    destruct fuel; reflexivity.
  - destruct fuel as [| fuel]; [cbn in Hf; lia |].
    cbn [chained] in Hc. destruct Hc as (Hd & [_ Hread] & Hc).
    cbn [encodeAll]. rewrite <- !app_assoc.
    destruct (readVarLen_variableLength (ev_tick ev - t)
                (tl (ev_bytes ev)
                   ++ encodeAll (ev_tick ev) l ++ [0x00; 0xff; 0x2f; 0x00]) Hd)
      as (Hv & _ & Hvn).
    remember (variableLength (ev_tick ev - t)) as vq eqn:Evq.
    destruct vq as [| b vq]; [contradiction |].
    cbn [readTrack app]. change (b :: vq ++ ?x) with ((b :: vq) ++ x).
    rewrite Hv, Hread.
    replace (t + (ev_tick ev - t)) with (ev_tick ev) by lia.
    rewrite IH by (assumption || (cbn in Hf; lia)).
    cbn [option_map map app]. rewrite last_cons_default. reflexivity.
Qed.

Lemma tempoEvent_readable (bpm : Z) : readableEvent (tempoEvent bpm).
Proof.
  unfold readableEvent, tempoEvent. cbn [ev_bytes tl].
  rewrite !byte_of_shifted by lia. rewrite byte_of_low. split.
  - repeat constructor; try lia; apply Z.mod_pos_bound; lia.
  - intros rest. cbn [app readEvent]. cbn [Z.eqb Pos.eqb].
    cbn [List.length].
    destruct (Z.ltb_spec (Z.of_nat (S (S (S (List.length rest))))) 3);
      [lia | reflexivity].
Qed.

Lemma and_0x7f_range (a : Z) : 0 <= JS.and a 0x7f < 128.
Proof.
  unfold JS.and. rewrite (toInt32_small 0x7f) by lia.
  change 0x7f with (Z.ones 7). rewrite Z.land_ones by lia.
  apply Z.mod_pos_bound. lia.
Qed.

Lemma noteEvents_readable (n : Note.t) (ev : Event) :
  In ev (noteEvents n) -> readableEvent ev.
Proof.
  pose proof (and_0x7f_range (Note.midi n)).
  pose proof (and_0x7f_range (Note.vel n)).
  intros [<- | [<- | []]]; unfold readableEvent; cbn [ev_bytes tl]; split;
    try (repeat constructor; lia); intros rest; reflexivity.
Qed.

Lemma chained_of_sorted (l : list Event) :
  forall t,
    StronglySorted tickLe l ->
    Forall (fun ev => t <= ev_tick ev < 2 ^ 31 /\ readableEvent ev) l ->
    0 <= t ->
    chained t l.
Proof.
  induction l as [| ev l IH]; intros t Hs Hf Ht; [exact I |].
  inversion Hs as [| ? ? Hs' Hle]; subst.
  inversion Hf as [| ? ? [Hr Hread] Hf']; subst.
  cbn [chained]. split; [lia |]. split; [exact Hread |].
  apply IH; [exact Hs' | | lia].
  apply Forall_forall. intros e He.
  pose proof (proj1 (Forall_forall _ _) Hf' e He) as [He1 He2].
  pose proof (proj1 (Forall_forall _ _) Hle e He) as He3.
  unfold tickLe in He3. split; [lia | exact He2].
Qed.

Lemma events_chained (notes : list Note.t) (bpm : Z) :
  Forall timeable notes -> chained 0 (sort (events notes bpm)).
Proof.
  intros H. apply chained_of_sorted; [apply sort_sorted | | lia].
  apply Forall_forall. intros ev Hev. apply sort_In in Hev.
  destruct Hev as [<- | Hev].
  - split; [cbn; lia | apply tempoEvent_readable].
  - apply in_flat_map in Hev. destruct Hev as (n & Hn & Hev).
    pose proof (proj1 (Forall_forall _ _) H n Hn) as (Ht & Hl & Hs).
    split; [| exact (noteEvents_readable n ev Hev)].
    destruct Hev as [<- | [<- | []]]; cbn [ev_tick]; lia.
Qed.

Lemma Uint8Array_bytes (l : list Z) :
  Forall (fun b => 0 <= b < 256) l -> JS.Uint8Array l = l.
Proof.
  induction 1 as [| b l Hb _ IH]; [reflexivity |].
  cbn [JS.Uint8Array map]. unfold JS.toUint8 at 1.
  rewrite Z.mod_small by exact Hb. f_equal. exact IH.
Qed.

End ReadBack.

(** X5.  When every note starts at a nonnegative tick and ends below 2^31,
    the track body of the file reads back, delta by delta, as the sorted
    events -- each with its absolute tick and its status and data bytes --
    followed by the end-of-track event at the tick of the last event. *)
Theorem track_reads_back (notes : list Note.t) (bpm : Z)
    (H : Forall timeable notes) :
  let body := JS.Uint8Array (Midi.outBytes notes bpm) in
  let evs := Midi.sort (Midi.events notes bpm) in
  readTrack (List.length body) 0 body
  = Some (map timed evs
            ++ [(last (map Midi.ev_tick evs) 0, [0xFF; 0x2F; 0x00])]).
Proof.
  intros body evs.
  pose proof (events_chained notes bpm H) as Hc. fold evs in Hc.
  destruct (encodeAll_bytes evs 0 Hc) as [Hb Hl].
  assert (E : Midi.outBytes notes bpm
              = encodeAll 0 evs ++ [0x00; 0xff; 0x2f; 0x00]).
  { unfold Midi.outBytes. fold evs. rewrite fold_emit. reflexivity. }
  assert (Eb : body = encodeAll 0 evs ++ [0x00; 0xff; 0x2f; 0x00]).
  { unfold body. rewrite E. apply Uint8Array_bytes.
    apply Forall_app. split; [exact Hb | repeat constructor; lia]. }
  rewrite Eb. apply readTrack_encodeAll; [exact Hc |].
  rewrite length_app. cbn [List.length]. lia.
Qed.

Lemma track_reads_back_witness :
  readTrack 20 0
    (JS.Uint8Array (Midi.outBytes [Note.mk "1000" 960 120 84 80] 480))
  = Some [(0, [255; 81; 3; 1; 232; 72]); (960, [144; 84; 80]);
          (1080, [128; 84; 64]); (1080, [255; 47; 0])].
Proof.
  apply (track_reads_back [Note.mk "1000" 960 120 84 80] 480).
  repeat constructor; cbn; lia.
Defined.

(** ** What an import can put into the store *)

Section ImportedNotes.

Variable midiData : list Z.
Variable clock : nat -> Z.

Lemma noteOnsBefore_mono (i j : nat) :
  (i <= j)%nat -> (noteOnsBefore midiData i <= noteOnsBefore midiData j)%nat.
Proof.
  induction 1 as [| j _ IH]; [apply Nat.le_refl |].
  rewrite noteOnsBefore_succ. lia.
Qed.

Lemma accepted_then_later (i j : nat) :
  acceptedAt midiData i = true -> (i < j)%nat ->
  (noteOnsBefore midiData i < noteOnsBefore midiData j)%nat.
Proof.
  intros Hi Hij. unfold acceptedAt in Hi. apply andb_true_iff in Hi.
  destruct Hi as [Hon _].
  pose proof (noteOnsBefore_succ midiData i) as Hs. rewrite Hon in Hs.
  pose proof (noteOnsBefore_mono (S i) j Hij). lia.
Qed.

Lemma seq_increasing (n a : nat) : StronglySorted lt (seq a n).
Proof.
  revert a. induction n as [| n IH]; intros a; cbn [seq]; constructor.
  - apply IH.
  - apply Forall_forall. intros i Hi. apply in_seq in Hi. lia.
Qed.

Lemma filter_increasing (p : nat -> bool) (l : list nat) :
  StronglySorted lt l -> StronglySorted lt (filter p l).
Proof.
  induction 1 as [| i l Hs IH Hi]; cbn [filter]; [constructor |].
  destruct (p i); [| exact IH].
  constructor; [exact IH |].
  apply Forall_forall. intros j Hj. apply filter_In in Hj.
  exact (proj1 (Forall_forall _ _) Hi j (proj1 Hj)).
Qed.

Lemma imported_ticks_increase (l : list nat) :
  StronglySorted lt l -> Forall (fun i => acceptedAt midiData i = true) l ->
  StronglySorted (fun a b => Note.tick a < Note.tick b)
    (map (noteAt midiData clock) l).
Proof.
  induction 1 as [| i l Hs IH Hi]; intros Ha; cbn [map]; [constructor |].
  inversion Ha as [| ? ? Hai Hal]; subst.
  constructor; [apply IH, Hal |].
  apply Forall_forall. intros n Hn. apply in_map_iff in Hn.
  destruct Hn as (j & <- & Hj).
  pose proof (proj1 (Forall_forall _ _) Hi j Hj) as Hij.
  pose proof (accepted_then_later i j Hai Hij).
  cbn [noteAt Note.tick]. change (Canvas.PPQ / 8) with 60. lia.
Qed.

End ImportedNotes.

(** X6.  Whatever the buffer, the notes an import recovers have a pitch in
    21..108, a positive velocity taken from the buffer and the length PPQ/4,
    their start ticks strictly increase in scan order, and there are at most
    [length - 3] of them: a buffer of fewer than four bytes gives none. *)
Theorem importedNotes_shape (midiData : list Z) (clock : nat -> Z) :
  Forall (fun n => 21 <= Note.midi n <= 108
                   /\ 0 < Note.vel n /\ In (Note.vel n) midiData
                   /\ Note.length n = Canvas.PPQ / 4)
    (Canvas.importedNotes midiData clock)
  /\ StronglySorted (fun a b => Note.tick a < Note.tick b)
       (Canvas.importedNotes midiData clock)
  /\ (List.length (Canvas.importedNotes midiData clock)
      <= List.length midiData - 3)%nat.
Proof.
  rewrite importedNotes_closed_form. split; [| split].
  - apply Forall_forall. intros n Hn. apply in_map_iff in Hn.
    destruct Hn as (i & <- & Hi). apply filter_In in Hi.
    destruct Hi as [Hrange Hacc]. unfold acceptedAt in Hacc.
    apply andb_true_iff in Hacc. destruct Hacc as [_ Hacc].
    apply andb_true_iff in Hacc. destruct Hacc as [Hacc H108].
    apply andb_true_iff in Hacc. destruct Hacc as [Hvel H21].
    apply Z.ltb_lt in Hvel. apply Z.leb_le in H21, H108.
    cbn [noteAt Note.midi Note.vel Note.length].
    split; [lia |]. split; [exact Hvel |]. split; [| reflexivity].
    apply nth_In. unfold Canvas.scanIndices in Hrange.
    apply in_seq in Hrange. lia.
  - apply imported_ticks_increase.
    + apply filter_increasing, seq_increasing.
    + apply Forall_forall. intros i Hi. apply filter_In in Hi. apply Hi.
  - rewrite length_map.
    eapply Nat.le_trans; [apply filter_length_le |].
    unfold Canvas.scanIndices. rewrite length_seq. lia.
Qed.

(** ** The visible keys and the shape of stored notes *)

Section CanvasSession.

Import Canvas.

(** Only the wheel writes the scroll offset. *)
Lemma handle_scroll (e : Event) (st : State) :
  scrollOffset (handle e st) = scrollOffset st
  \/ exists deltaY,
       e = Wheel deltaY
       /\ scrollOffset (handle e st)
          = Z.max 0 (Z.min (totalKeys - keyCount)
                       (scrollOffset st + scrollDelta deltaY)).
Proof.
  destruct e; cbn [handle]; try (left; reflexivity).
  - unfold handleCanvasMouseDown.
    destruct (onPianoKeys x); [left; reflexivity |].
    destruct (find _ _); left; reflexivity.
  - unfold handleCanvasMouseMove.
    destruct (dragInfo st) as [d |]; [| left; reflexivity].
    destruct (negb (isDragging d)); left; reflexivity.
  - unfold handleCanvasRightClick.
    destruct (onPianoKeys x); [left; reflexivity |].
    destruct (find _ _); left; reflexivity.
  - right. exists deltaY. split; reflexivity.
  - unfold handleKeyDelete.
    destruct (selectedRef st) as [id |]; [| left; reflexivity].
    destruct (String.eqb id ""); left; reflexivity.
  - unfold playNotes. destruct (isPlaying st); left; reflexivity.
  - unfold timerFires. destruct (timelineRef st) as [c |]; [| left; reflexivity].
    unfold intervalCallback. destruct (negb c); [left; reflexivity |].
    destruct (Qle_bool _ _); left; reflexivity.
  - unfold clearNotes. destruct (isPlaying st); left; reflexivity.
  - unfold handleFileImport.
    destruct (importedNotes midiData clock); left; reflexivity.
Qed.

Lemma scrollInRange_handle (e : Event) (st : State) :
  scrollInRange st -> scrollInRange (handle e st).
Proof.
  unfold scrollInRange. intros H.
  destruct (handle_scroll e st) as [-> | (d & _ & ->)]; [exact H |].
  change (totalKeys - keyCount) with 52 in *. lia.
Qed.

Lemma scrollInRange_run (evs : list Event) (st : State) :
  scrollInRange st -> scrollInRange (run evs st).
Proof.
  revert st. induction evs as [| e evs IH]; intros st H; [exact H |].
  apply IH, scrollInRange_handle, H.
Qed.

(** The row of a pointer position inside the canvas. *)
Lemma keyIndex_range (y : Q) :
  (0 <= y)%Q -> (y < canvasHeight)%Q ->
  0 <= JS.Math_floor (y / keyHeight) <= keyCount - 1.
Proof.
  intros H0 H1. split.
  - apply floor_nonneg. unfold Qdiv. apply Qmult_le_0_compat; [exact H0 |].
    apply Qinv_le_0_compat. discriminate.
  - unfold JS.Math_floor.
    assert (Hq : (y / keyHeight < inject_Z keyCount)%Q).
    { apply Qlt_shift_div_r; [reflexivity |].
      eapply Qlt_le_trans; [exact H1 |]. discriminate. }
    pose proof (Qfloor_le (y / keyHeight)) as Hf.
    assert (Hlt : (inject_Z (Qfloor (y / keyHeight)) < inject_Z keyCount)%Q)
      by (eapply Qle_lt_trans; eassumption).
    rewrite <- Zlt_Qlt in Hlt. lia.
Qed.

Lemma newNote_editorNote (st : State) (x y : Q) (now : Z) :
  scrollInRange st -> (0 <= y)%Q -> (y < canvasHeight)%Q ->
  editorNote (newNote st x y now).
Proof.
  intros Hs H0 H1. pose proof (keyIndex_range y H0 H1) as Hk.
  unfold scrollInRange in Hs. unfold editorNote, newNote, topMidi.
  cbn [Note.midi Note.length Note.vel].
  change (totalKeys - keyCount) with 52 in Hs.
  change (keyCount - 1) with 35 in Hk.
  repeat split; lia.
Qed.

Lemma imported_editorNote (midiData : list Z) (clock : nat -> Z) (n : Note.t) :
  Forall (fun b => 0 <= b < 256) midiData ->
  In n (importedNotes midiData clock) -> editorNote n.
Proof.
  intros Hb Hn. rewrite importedNotes_closed_form in Hn.
  apply in_map_iff in Hn. destruct Hn as (i & <- & Hi).
  apply filter_In in Hi. destruct Hi as [Hrange Hacc].
  unfold acceptedAt in Hacc.
  apply andb_true_iff in Hacc. destruct Hacc as [_ Hacc].
  apply andb_true_iff in Hacc. destruct Hacc as [Hacc H108].
  apply andb_true_iff in Hacc. destruct Hacc as [Hvel H21].
  apply Z.ltb_lt in Hvel. apply Z.leb_le in H21, H108.
  unfold editorNote. cbn [noteAt Note.midi Note.vel Note.length].
  split; [lia |]. split; [reflexivity |]. split; [exact Hvel |].
  unfold scanIndices in Hrange. apply in_seq in Hrange.
  assert (Hin : In (nth (i + 2) midiData 0) midiData) by (apply nth_In; lia).
  pose proof (proj1 (Forall_forall _ _) Hb _ Hin) as Hbyte.
  cbn beta in Hbyte. lia.
Qed.

Lemma editorNotes_handle (e : Event) (st : State) :
  deliverable e -> insideCanvas e -> scrollInRange st ->
  Forall editorNote (notes st) -> Forall editorNote (notes (handle e st)).
Proof.
  intros Hd Hi Hs Hns.
  destruct (handle_StoreStep e st)
    as [e | x y now Hx | x y d Hdr Hg | e id | | midiData clock].
  - exact Hns.
  - apply Forall_app. split; [exact Hns |].
    constructor; [| constructor].
    cbn [insideCanvas] in Hi. destruct Hi as (_ & _ & H0 & H1).
    apply newNote_editorNote; assumption.
  - unfold moveNote. apply Forall_forall. intros n Hn.
    apply in_map_iff in Hn. destruct Hn as (m & <- & Hm).
    pose proof (proj1 (Forall_forall _ _) Hns m Hm) as Hed.
    destruct (String.eqb (Note.id m) (noteId d)); [| exact Hed].
    destruct Hed as (Hp & Hl & Hv).
    unfold editorNote. cbn [Note.midi Note.length Note.vel].
    split; [lia |]. split; [exact Hl | exact Hv].
  - apply removeNote_Forall, Hns.
  - constructor.
  - apply Forall_forall. intros m Hm.
    apply (imported_editorNote midiData clock); [exact Hd | exact Hm].
Qed.

Lemma editorNotes_run (evs : list Event) (st : State) :
  Forall deliverable evs -> Forall insideCanvas evs -> scrollInRange st ->
  Forall editorNote (notes st) -> Forall editorNote (notes (run evs st)).
Proof.
  revert st. induction evs as [| e evs IH]; intros st Hd Hi Hs Hns;
    [exact Hns |].
  inversion Hd; subst. inversion Hi; subst. cbn [run fold_left].
  apply IH; try assumption.
  - apply scrollInRange_handle, Hs.
  - apply editorNotes_handle; assumption.
Qed.

End CanvasSession.

(** X7.  In every session the scroll offset stays within 0..52, however the
    wheel is turned: the top visible key is a pitch in 56..108 and the
    lowest of the 36 visible keys is a pitch in 21..73, so the visible rows
    never leave the 88-key range. *)
Theorem scroll_stays_on_keyboard (evs : list Canvas.Event) :
  let st := Canvas.run evs Canvas.initial in
  0 <= Canvas.scrollOffset st <= 52
  /\ 56 <= Canvas.topMidi st <= 108
  /\ 21 <= Canvas.topMidi st - (Canvas.keyCount - 1) <= 73.
Proof.
  intros st.
  assert (H : scrollInRange st).
  { apply scrollInRange_run. unfold scrollInRange. cbn. lia. }
  unfold scrollInRange in H. change (Canvas.totalKeys - Canvas.keyCount) with 52 in H.
  unfold Canvas.topMidi. change (Canvas.keyCount - 1) with 35. lia.
Qed.

(** X8.  In every session whose pointer events lie inside the canvas and
    whose imported files are byte buffers, each stored note has a pitch in
    21..108, the length PPQ/4 and a velocity in 1..255. *)
Theorem stored_notes_shape (evs : list Canvas.Event)
    (Hd : Forall Canvas.deliverable evs) (Hi : Forall insideCanvas evs) :
  Forall (fun n => 21 <= Note.midi n <= 108
                   /\ Note.length n = Canvas.PPQ / 4
                   /\ 0 < Note.vel n < 256)
    (Canvas.notes (Canvas.run evs Canvas.initial)).
Proof.
  apply (editorNotes_run evs Canvas.initial Hd Hi).
  - unfold scrollInRange. cbn. lia.
  - constructor.
Qed.

Lemma stored_notes_shape_witness :
  Forall (fun n => 21 <= Note.midi n <= 108
                   /\ Note.length n = Canvas.PPQ / 4
                   /\ 0 < Note.vel n < 256)
    (Canvas.notes
       (Canvas.run
          [Canvas.Wheel 1; Canvas.MouseDown 250 395 1000;
           Canvas.FileImport [0x90; 60; 200; 0x90; 64; 100; 0] (fun _ => 7)]
          Canvas.initial)).
Proof.
  apply (stored_notes_shape
           [Canvas.Wheel 1; Canvas.MouseDown 250 395 1000;
            Canvas.FileImport [0x90; 60; 200; 0x90; 64; 100; 0] (fun _ => 7)]).
  - repeat constructor; cbn; lia.
  - repeat constructor; cbn; discriminate.
Defined.

(** ** Play and stop *)

Section Playback.

Import Canvas.





End Playback.




(** ** Selecting, deleting and dragging *)

Section SelectDrag.

Import Canvas.


Lemma moveNote_twice (id : string) (t1 m1 t2 m2 : Z) (ns : list Note.t) :
  moveNote id t2 m2 (moveNote id t1 m1 ns) = moveNote id t2 m2 ns.
Proof.
  unfold moveNote. rewrite map_map. apply map_ext. intros n.
  destruct (String.eqb (Note.id n) id) eqn:E; cbn [Note.id]; rewrite E;
    reflexivity.
Qed.




Lemma mouseMove_idle (x y : Q) (st : State) :
  dragInfo st = None
  \/ (exists d, dragInfo st = Some d /\ isDragging d = false) ->
  handleCanvasMouseMove x y st = st.
Proof.
  unfold handleCanvasMouseMove. intros [-> | (d & -> & ->)]; reflexivity.
Qed.

Lemma mouseMove_dragging (x y : Q) (st : State) (d : DragInfo) :
  dragInfo st = Some d -> isDragging d = true ->
  handleCanvasMouseMove x y st
  = setNotes
      (moveNote (noteId d)
         (snapToGrid (Z.max 0 (requestedTick st d x)) 4)
         (Z.max 21 (Z.min 108 (requestedMidi d y)))
         (notes st))
      st.
Proof.
  unfold handleCanvasMouseMove. intros -> ->. reflexivity.
Qed.


End SelectDrag.





(** X13.  A drag is absolute: the state after two mouse moves is the state
    after the second move alone.  A move keeps every note's id, length and
    velocity in place, and keeps the notes whose id is not the dragged one
    as they are. *)
Theorem drag_is_absolute (st : Canvas.State) (x1 y1 x2 y2 : Q) :
  Canvas.handle (Canvas.MouseMove x2 y2)
    (Canvas.handle (Canvas.MouseMove x1 y1) st)
  = Canvas.handle (Canvas.MouseMove x2 y2) st
  /\ map (fun n => (Note.id n, Note.length n, Note.vel n))
       (Canvas.notes (Canvas.handle (Canvas.MouseMove x1 y1) st))
     = map (fun n => (Note.id n, Note.length n, Note.vel n)) (Canvas.notes st)
  /\ forall d k n,
       Canvas.dragInfo st = Some d ->
       nth_error (Canvas.notes st) k = Some n ->
       Note.id n <> Canvas.noteId d ->
       nth_error (Canvas.notes (Canvas.handle (Canvas.MouseMove x1 y1) st)) k
       = Some n.
Proof.
  cbn [Canvas.handle].
  destruct (Canvas.dragInfo st) as [d |] eqn:Hd.
  2:{ rewrite (mouseMove_idle x1 y1 st) by (left; exact Hd).
      repeat split; try reflexivity. intros; discriminate. }
  destruct (Canvas.isDragging d) eqn:Hg.
  2:{ rewrite (mouseMove_idle x1 y1 st) by (right; exists d; split; assumption).
      repeat split; try reflexivity. intros d' k n _ Hk _. exact Hk. }
  rewrite (mouseMove_dragging x1 y1 st d Hd Hg).
  rewrite (mouseMove_dragging x2 y2 st d Hd Hg).
  rewrite (mouseMove_dragging x2 y2 (Canvas.setNotes _ st) d Hd Hg).
  cbn [Canvas.setNotes Canvas.notes].
  split; [| split].
  - unfold Canvas.setNotes. cbn [Canvas.notes Canvas.cursorTick
      Canvas.isPlaying Canvas.zoom Canvas.scrollOffset Canvas.selectedRef
      Canvas.dragInfo Canvas.transport Canvas.timelineRef].
    rewrite moveNote_twice. reflexivity.
  - unfold Canvas.moveNote. rewrite map_map. apply map_ext. intros n.
    destruct (String.eqb (Note.id n) (Canvas.noteId d)); reflexivity.
  - intros d' k n [= <-] Hk Hid.
    rewrite moveNote_nth_error, Hk. cbn [option_map].
    destruct (String.eqb_spec (Note.id n) (Canvas.noteId d));
      [contradiction | reflexivity].
Qed.

(** ** Key names *)

Example names_and_keys :
  Music.midiNoteToNoteName 60 = "C4"%string
  /\ Music.midiNoteToNoteName 5 = "F-1"%string
  /\ Music.noteNameToMidiNote "A#10" = 142
  /\ Music.noteNameToMidiNote "E#4" = 59
  /\ Canvas.getNoteFromMidi 108 = "C8"%string.
Proof. repeat split; vm_compute; reflexivity. Qed.

Section NoteNames.

Lemma of_uint_to_uint (p : positive) : Z.of_uint (Pos.to_uint p) = Z.pos p.
Proof. exact (DecimalZ.of_to (Z.pos p)). Qed.

Lemma string_of_uint_nonempty (u : Decimal.uint) :
  u <> Decimal.Nil -> NilEmpty.string_of_uint u <> EmptyString.
Proof. destruct u; cbn; try discriminate. intros H; contradiction. Qed.

Lemma parseDigits_toString (o : Z) :
  0 <= o -> JS.parseDigits (JS.toString o) = Some o.
Proof.
  intros Ho. destruct o as [| p | p]; [reflexivity | | lia].
  unfold JS.toString. cbn [Z.to_int NilZero.string_of_int].
  pose proof (Unsigned.to_uint_nonnil p) as Hnn.
  unfold NilZero.string_of_uint.
  destruct (Pos.to_uint p) eqn:E; [contradiction | ..];
    rewrite <- E in *;
    (unfold JS.parseDigits;
     destruct (NilEmpty.string_of_uint (Pos.to_uint p)) eqn:Es;
     [exfalso; exact (string_of_uint_nonempty _ Hnn Es) |];
     rewrite <- Es, NilEmpty.usu; cbn [option_map];
     rewrite of_uint_to_uint; reflexivity).
Qed.

Lemma parsed_starts_with_digit (s : string) (v : Z) :
  JS.parseDigits s = Some v ->
  exists c s', s = String c s' /\ c <> "#"%char.
Proof.
  destruct s as [| c s']; [discriminate |].
  intros H. exists c, s'. split; [reflexivity |].
  intros ->. unfold JS.parseDigits in H. cbn in H.
  destruct (NilEmpty.uint_of_string s'); discriminate H.
Qed.

Lemma matchNoteName_natural (c : ascii) (o : Z) :
  Music.isNoteLetter c = true -> 0 <= o ->
  Music.matchNoteName (String c (JS.toString o))
  = Some (String c "", JS.toString o).
Proof.
  intros Hc Ho. pose proof (parseDigits_toString o Ho) as Hp.
  destruct (parsed_starts_with_digit _ _ Hp) as (d & s' & E & Hd).
  unfold Music.matchNoteName. rewrite Hc, E in *. rewrite Hp.
  destruct d as [[] [] [] [] [] [] [] []]; try reflexivity.
  contradiction Hd. reflexivity.
Qed.

Lemma matchNoteName_sharp (c : ascii) (o : Z) :
  Music.isNoteLetter c = true -> 0 <= o ->
  Music.matchNoteName (String c (String "#" (JS.toString o)))
  = Some (String c "#", JS.toString o).
Proof.
  intros Hc Ho. unfold Music.matchNoteName.
  rewrite Hc, (parseDigits_toString o Ho). reflexivity.
Qed.

(** Pitch [m >= 0] split into octave and pitch class. *)
Lemma pitch_split (m : Z) :
  0 <= m ->
  JS.rem m 12 = m mod 12 /\ 0 <= m mod 12 < 12
  /\ m = 12 * (m / 12) + m mod 12 /\ 0 <= m / 12.
Proof.
  intros Hm. unfold JS.rem. rewrite Z.rem_mod_nonneg by lia.
  split; [reflexivity |]. split; [apply Z.mod_pos_bound; lia |].
  split; [apply Z.div_mod; lia | apply Z.div_pos; lia].
Qed.

Lemma pitch_class_cases (r : Z) :
  0 <= r < 12 ->
  r = 0 \/ r = 1 \/ r = 2 \/ r = 3 \/ r = 4 \/ r = 5 \/ r = 6 \/ r = 7
  \/ r = 8 \/ r = 9 \/ r = 10 \/ r = 11.
Proof. lia. Qed.

End NoteNames.

(** X14.  For an integer pitch of 12 or more (within the exactly
    represented integers) the name built by [midiNoteToNoteName] is read
    back by [noteNameToMidiNote] as the same pitch.  Pitches 0..11 are named
    with octave -1, which the pattern does not accept, so they read back as
    the default 60. *)
Theorem note_name_round_trip (m : Z) (Hm : 0 <= m < 2 ^ 53) :
  Music.noteNameToMidiNote (Music.midiNoteToNoteName m)
  = if m <? 12 then 60 else m.
Proof.
  destruct Hm as [H _].
  destruct (Z.ltb_spec m 12) as [Hlow | Hhigh].
  - assert (Hc : m = 0 \/ m = 1 \/ m = 2 \/ m = 3 \/ m = 4 \/ m = 5 \/ m = 6
                 \/ m = 7 \/ m = 8 \/ m = 9 \/ m = 10 \/ m = 11) by lia.
    repeat (destruct Hc as [-> | Hc]; [vm_compute; reflexivity |]).
    subst m. vm_compute. reflexivity.
  - destruct (pitch_split m H) as (Hrem & Hr & Hm & Hq).
    assert (Ho : 0 <= m / 12 - 1).
    { assert (1 <= m / 12) by (apply Z.div_le_lower_bound; lia). lia. }
    unfold Music.midiNoteToNoteName, Music.noteNameToMidiNote.
    rewrite Hrem.
    destruct (pitch_class_cases _ Hr)
      as [E | [E | [E | [E | [E | [E | [E | [E | [E | [E | [E | E]]]]]]]]]]];
      rewrite E;
      match goal with
      | |- context [JS.hole ?x] =>
          let v := eval vm_compute in (JS.hole x) in change (JS.hole x) with v
      end;
      cbn [String.append];
      rewrite ?matchNoteName_natural, ?matchNoteName_sharp
        by (reflexivity || exact Ho);
      rewrite (parseDigits_toString _ Ho);
      match goal with
      | |- context [JS.indexOf ?l ?x] =>
          let v := eval vm_compute in (JS.indexOf l x) in
          change (JS.indexOf l x) with v
      end;
      lia.
Qed.

Lemma note_name_round_trip_witness :
  0 <= 61 < 2 ^ 53
  /\ Music.noteNameToMidiNote (Music.midiNoteToNoteName 61)
     = if 61 <? 12 then 60 else 61.
Proof.
  split; [lia | apply (note_name_round_trip 61); lia].
Defined.


(** ** The rows of the grid editor *)

Section PianoKeys.

Lemma map_seq_offset {A} (f : nat -> A) (a k : nat) :
  map f (seq a k) = map (fun i => f (a + i)%nat) (seq 0 k).
Proof.
  revert f a. induction k as [| k IH]; intros f a; [reflexivity |].
  cbn [seq map]. rewrite Nat.add_0_r. f_equal.
  rewrite <- !seq_shift, !map_map.
  rewrite (IH (fun i => f (S i)) a).
  apply map_ext. intros i. f_equal. lia.
Qed.

Lemma keysAfter_S (s : Z) (n : nat) :
  keysAfter s (S n)
  = rev (Music.keysOfOctave (s + Z.of_nat n)) ++ keysAfter s n.
Proof.
  unfold keysAfter. rewrite seq_S, map_app, flat_map_app, rev_app_distr.
  cbn [map flat_map Nat.add]. rewrite app_nil_r. reflexivity.
Qed.

Lemma keysOfOctave_midi (o : Z) :
  map Music.midiNote (rev (Music.keysOfOctave o))
  = map (fun i => 12 * (o + 1) + 11 - Z.of_nat i) (seq 0 12).
Proof.
  unfold Music.keysOfOctave, Music.PIANO_KEYS.
  cbn [map rev app seq Music.midiNote Music.base_midiNote].
  repeat (f_equal; [lia |]). f_equal. lia.
Qed.

Lemma keysAfter_midi (s : Z) (n : nat) :
  map Music.midiNote (keysAfter s n)
  = map (fun i => 12 * (s + Z.of_nat n) + 11 - Z.of_nat i) (seq 0 (12 * n)).
Proof.
  induction n as [| n IH]; [reflexivity |].
  rewrite keysAfter_S, map_app, keysOfOctave_midi, IH.
  replace (12 * S n)%nat with (12 + 12 * n)%nat by lia.
  rewrite seq_app, map_app. f_equal.
  - apply map_ext. intros i. lia.
  - cbn [Nat.add]. rewrite (map_seq_offset _ 12).
    apply map_ext. intros i. lia.
Qed.

Lemma octave_of_key (o b : Z) :
  -1 <= o -> 60 <= b < 72 ->
  JS.rem (b + (o - 4) * 12) 12 = b - 60
  /\ (b + (o - 4) * 12) / 12 - 1 = o
  /\ 0 <= b + (o - 4) * 12.
Proof.
  intros Ho Hb.
  assert (E : b + (o - 4) * 12 = (b - 60) + (o + 1) * 12) by lia.
  assert (Hnn : 0 <= b + (o - 4) * 12) by lia.
  unfold JS.rem. rewrite Z.rem_mod_nonneg by lia.
  rewrite E, Z.mod_add, Z.div_add, Z.mod_small, Z.div_small by lia.
  repeat split; lia.
Qed.

End PianoKeys.

Lemma keysOfOctave_agree (o : Z) :
  -1 <= o -> Forall keyAgrees (Music.keysOfOctave o).
Proof.
  intros Ho. unfold Music.keysOfOctave, Music.PIANO_KEYS. cbn [map].
  repeat constructor; cbn [Music.base_note Music.base_type Music.base_midiNote];
    unfold keyAgrees; cbn [Music.displayName Music.note Music.octave
                             Music.midiNote Music.type];
    match goal with
    | |- context [?b + (o - 4) * 12] =>
        destruct (octave_of_key o b Ho ltac:(lia)) as (Hr & Hq & Hnn);
        pose proof Hr as Hmod; unfold JS.rem in Hmod;
        rewrite Z.rem_mod_nonneg in Hmod by lia
    end;
    unfold Music.midiNoteToNoteName, Canvas.getNoteFromMidi, Canvas.isBlackKey;
    rewrite ?Hr, ?Hq, ?Hmod;
    repeat split; try reflexivity; try discriminate;
    cbn; intros; congruence.
Qed.

(** X15.  [generatePianoKeys] from octave [startOctave >= -1] returns twelve
    keys per octave, highest pitch first and descending by one semitone per
    row down to the C of the first octave; every key's name, octave and
    colour are those of its pitch, also as the canvas editor computes them.
    For the grid editor's rows ([generatePianoKeys(2, 3)]) this gives the
    pitches [71 - row] for rows 0..35. *)
Theorem generatePianoKeys_rows (startOctave numOctaves : Z)
  (Hs : -1 <= startOctave) (Hn : 0 <= numOctaves) :
  let keys := Music.generatePianoKeys startOctave numOctaves in
  Z.of_nat (List.length keys) = 12 * numOctaves
  /\ map Music.midiNote keys
     = map (fun row => 12 * (startOctave + numOctaves) + 11 - Z.of_nat row)
         (seq 0 (Z.to_nat (12 * numOctaves)))
  /\ Forall keyAgrees keys.
Proof.
  intros keys.
  assert (Hmidi : map Music.midiNote keys
     = map (fun row => 12 * (startOctave + numOctaves) + 11 - Z.of_nat row)
         (seq 0 (Z.to_nat (12 * numOctaves)))).
  { subst keys. unfold Music.generatePianoKeys.
    fold (keysAfter startOctave (Z.to_nat numOctaves)).
    rewrite keysAfter_midi.
    replace (Z.to_nat (12 * numOctaves)) with (12 * Z.to_nat numOctaves)%nat
      by lia.
    apply map_ext. intros i. lia. }
  split; [| split].
  - rewrite <- (length_map Music.midiNote), Hmidi, length_map, length_seq. lia.
  - exact Hmidi.
  - subst keys. unfold Music.generatePianoKeys.
    apply Forall_rev. apply Forall_flat_map.
    apply Forall_forall. intros o Ho. apply in_map_iff in Ho.
    destruct Ho as (i & <- & _). apply keysOfOctave_agree. lia.
Qed.

Lemma generatePianoKeys_rows_witness :
  map Music.midiNote (Music.generatePianoKeys 2 3)
  = map (fun row => 71 - Z.of_nat row) (seq 0 36).
Proof.
  refine (proj1 (proj2 (generatePianoKeys_rows 2 3 _ _))); lia.
Defined.

(** ** The grid editor: clicks *)

Section GridClicks.

Import Editor.

Lemma pianoKeys_row (y : Z) :
  0 <= y < 36 ->
  option_map Music.midiNote (JS.at_ pianoKeys y) = Some (71 - y).
Proof.
  intros Hy. unfold JS.at_.
  destruct (Z.ltb_spec y 0) as [Hneg | _]; [lia |].
  assert (Hk : (Z.to_nat y < 36)%nat) by lia.
  replace (71 - y) with (71 - Z.of_nat (Z.to_nat y)) by lia.
  generalize dependent (Z.to_nat y). intros k Hk.
  do 36 (destruct k as [| k]; [vm_compute; reflexivity |]). lia.
Qed.

Lemma pianoKeys_outside (y : Z) :
  y < 0 \/ 36 <= y -> JS.at_ pianoKeys y = None.
Proof.
  intros Hy. unfold JS.at_.
  destruct (Z.ltb_spec y 0) as [Hneg | Hpos]; [reflexivity |].
  apply nth_error_None.
  change (List.length pianoKeys) with 36%nat. lia.
Qed.

Lemma inCell_cellOf (pitch x : Z) (n : Grid.Note) :
  inCell pitch x n = true <-> cellOf n = (pitch, x).
Proof.
  unfold inCell, cellOf. rewrite andb_true_iff, !Z.eqb_eq. split.
  - intros [-> ->]. reflexivity.
  - intros E. injection E as -> ->. split; reflexivity.
Qed.

Lemma find_none_occupied (pitch x : Z) (ns : list Grid.Note) :
  find (inCell pitch x) ns = None -> occupied pitch x ns = false.
Proof.
  intros H. unfold occupied. fold (inCell pitch x).
  induction ns as [| n ns IH]; [reflexivity |].
  cbn [find existsb] in *. destruct (inCell pitch x n); [discriminate |].
  exact (IH H).
Qed.

Lemma find_some_occupied (pitch x : Z) (ns : list Grid.Note) (e : Grid.Note) :
  find (inCell pitch x) ns = Some e -> occupied pitch x ns = true.
Proof.
  intros H. apply find_some in H. destruct H as [Hin Hc].
  unfold occupied. fold (inCell pitch x).
  apply existsb_exists. exists e. split; assumption.
Qed.

Lemma occupied_false_cell (pitch x : Z) (ns : list Grid.Note) :
  occupied pitch x ns = false -> ~ In (pitch, x) (map cellOf ns).
Proof.
  intros H Hin. apply in_map_iff in Hin. destruct Hin as (n & Hc & Hn).
  assert (Ht : occupied pitch x ns = true).
  { apply existsb_exists. exists n. split; [exact Hn |].
    apply (inCell_cellOf pitch x n), Hc. }
  congruence.
Qed.

Lemma handleGridClick_row (x y now : Z) (rnd : string) (st : State) :
  0 <= y < 36 ->
  handleGridClick x y now rnd st
  = match find (inCell (71 - y) x) (notes st) with
    | Some existingNote =>
        setNotes (Grid.removeNote (Grid.id existingNote) (notes st)) st
    | None => setNotes (Grid.addNote (71 - y) x 1 now rnd (notes st)) st
    end.
Proof.
  intros Hy. unfold handleGridClick. rewrite (pianoKeys_row y Hy).
  destruct (Z.eqb_spec (71 - y) 0) as [E | _]; [lia |]. reflexivity.
Qed.

Lemma handleGridClick_outside (x y now : Z) (rnd : string) (st : State) :
  y < 0 \/ 36 <= y -> handleGridClick x y now rnd st = st.
Proof.
  intros Hy. unfold handleGridClick. rewrite (pianoKeys_outside y Hy).
  reflexivity.
Qed.

Lemma setNotes_same (st : State) : setNotes (notes st) st = st.
Proof. destruct st; reflexivity. Qed.

(** A click leaves everything but the notes alone. *)
Lemma handleGridClick_setNotes (x y now : Z) (rnd : string) (st : State) :
  handleGridClick x y now rnd st
  = setNotes (notes (handleGridClick x y now rnd st)) st.
Proof.
  unfold handleGridClick.
  destruct (option_map Music.midiNote (JS.at_ pianoKeys y)) as [pitch |];
    [| symmetry; apply setNotes_same].
  destruct (pitch =? 0); [symmetry; apply setNotes_same |].
  destruct (find _ (notes st)); reflexivity.
Qed.

Lemma NoDup_map_inj {A B} (f : A -> B) (l : list A) (a b : A) :
  NoDup (map f l) -> In a l -> In b l -> f a = f b -> a = b.
Proof.
  induction l as [| c l IH]; intros Hnd Ha Hb E; [contradiction |].
  cbn [map] in Hnd. inversion Hnd as [| ? ? Hnotin Hnd']; subst.
  destruct Ha as [-> | Ha], Hb as [-> | Hb].
  - reflexivity.
  - exfalso. apply Hnotin. rewrite E. apply in_map, Hb.
  - exfalso. apply Hnotin. rewrite <- E. apply in_map, Ha.
  - apply IH; assumption.
Qed.

Lemma NoDup_map_filter {A B} (keep : A -> bool) (f : A -> B) (l : list A)
    (Hnd : NoDup (map f l)) :
  NoDup (map f (filter keep l)).
Proof.
  revert Hnd. induction l as [| c l IH]; intros Hnd; [constructor |].
  cbn [map] in Hnd. inversion Hnd as [| ? ? Hnotin Hnd']; subst.
  cbn [filter]. destruct (keep c); [| apply IH, Hnd'].
  cbn [map]. constructor; [| apply IH, Hnd'].
  intros Hin. apply Hnotin. apply in_map_iff in Hin.
  destruct Hin as (n & E & Hn). apply filter_In in Hn.
  rewrite <- E. apply in_map, Hn.
Qed.

Lemma NoDup_map_snoc {A B} (f : A -> B) (l : list A) (a : A) :
  NoDup (map f l) -> ~ In (f a) (map f l) -> NoDup (map f (l ++ [a])).
Proof.
  intros Hnd Hnotin. rewrite map_app. cbn [map].
  induction (map f l) as [| c m IH].
  - constructor; [intros [] | constructor].
  - inversion Hnd as [| ? ? Hc Hnd']; subst. cbn [app]. constructor.
    + rewrite in_app_iff. intros [Hin | [E | []]]; [exact (Hc Hin) |].
      apply Hnotin. left. symmetry. exact E.
    + apply IH; [exact Hnd' |]. intros Hin. apply Hnotin. right. exact Hin.
Qed.

Lemma removed_cell_is_free (e : Grid.Note) (ns : list Grid.Note) :
  oneNotePerCell ns -> In e ns ->
  occupied (Grid.pitch e) (Grid.start e) (Grid.removeNote (Grid.id e) ns)
  = false.
Proof.
  intros Hu He.
  destruct (occupied _ _ _) eqn:Ho; [exfalso | reflexivity].
  apply existsb_exists in Ho. destruct Ho as (n & Hn & Hc).
  unfold Grid.removeNote in Hn. apply filter_In in Hn.
  destruct Hn as [Hn Hid].
  apply (inCell_cellOf (Grid.pitch e) (Grid.start e) n) in Hc.
  assert (E : n = e) by (apply (NoDup_map_inj cellOf ns); assumption).
  subst n. rewrite String.eqb_refl in Hid. discriminate.
Qed.

Lemma click_keeps_cells (x y now : Z) (rnd : string) (st : State) :
  oneNotePerCell (notes st) /\ Forall clickedNote (notes st) ->
  oneNotePerCell (notes (handleGridClick x y now rnd st))
  /\ Forall clickedNote (notes (handleGridClick x y now rnd st)).
Proof.
  intros [Hu Hc].
  destruct (Z_lt_ge_dec y 0) as [Hneg | Hnn];
    [rewrite handleGridClick_outside by lia; split; assumption |].
  destruct (Z_lt_ge_dec y 36) as [Hin | Hout];
    [| rewrite handleGridClick_outside by lia; split; assumption].
  rewrite handleGridClick_row by lia.
  destruct (find _ (notes st)) as [e |] eqn:Ef; cbn [setNotes notes].
  - split.
    + apply NoDup_map_filter, Hu.
    + apply Forall_forall. intros n Hn. apply filter_In in Hn.
      exact (proj1 (Forall_forall _ _) Hc n (proj1 Hn)).
  - split.
    + apply NoDup_map_snoc; [exact Hu |].
      apply occupied_false_cell, find_none_occupied, Ef.
    + apply Forall_app. split; [exact Hc |].
      constructor; [| constructor]. unfold clickedNote.
      cbn [Grid.pitch Grid.duration Grid.velocity]. lia.
Qed.

End GridClicks.

(** X16.  A click on row [y] of the 36 rows and step [x] of a grid that
    holds at most one note per cell toggles that cell: an empty cell gets
    one note of pitch [71 - y], one step long, velocity 80, appended to the
    store; an occupied cell loses its note (and every note that shares its
    id).  The grid still holds at most one note per cell, and nothing but
    the notes changes. *)
Theorem grid_click_toggles_cell (st : Editor.State) (x y now : Z)
  (rnd : string)
  (Hy : 0 <= y < 36) (Hu : oneNotePerCell (Editor.notes st)) :
  let st' := Editor.handleGridClick x y now rnd st in
  occupied (71 - y) x (Editor.notes st')
  = negb (occupied (71 - y) x (Editor.notes st))
  /\ oneNotePerCell (Editor.notes st')
  /\ (occupied (71 - y) x (Editor.notes st) = false ->
      Editor.notes st'
      = Editor.notes st ++ [Grid.mkNote (gridId now rnd) (71 - y) x 1 80])
  /\ (occupied (71 - y) x (Editor.notes st) = true ->
      exists e, In e (Editor.notes st) /\ cellOf e = (71 - y, x)
        /\ Editor.notes st'
           = filter (fun n => negb (String.eqb (Grid.id n) (Grid.id e)))
               (Editor.notes st))
  /\ st' = Editor.setNotes (Editor.notes st') st.
Proof.
  intros st'.
  assert (Hset : st' = Editor.setNotes (Editor.notes st') st)
    by apply handleGridClick_setNotes.
  subst st'. rewrite handleGridClick_row in * by exact Hy.
  destruct (find _ (Editor.notes st)) as [e |] eqn:Ef;
    cbn [Editor.setNotes Editor.notes] in *.
  - pose proof (find_some_occupied (71 - y) x _ e Ef) as Ho.
    apply find_some in Ef. destruct Ef as [He Hc].
    pose proof (removed_cell_is_free e _ Hu He) as Hfree.
    unfold inCell in Hc. apply andb_true_iff in Hc.
    rewrite !Z.eqb_eq in Hc. destruct Hc as [Hp Hs].
    rewrite Hp, Hs in Hfree.
    rewrite Ho, Hfree. repeat split.
    + apply NoDup_map_filter, Hu.
    + intros Habs. discriminate Habs.
    + intros _. exists e. repeat split; try assumption.
      unfold cellOf. rewrite Hp, Hs. reflexivity.
  - pose proof (find_none_occupied (71 - y) x _ Ef) as Ho. rewrite Ho.
    repeat split.
    + unfold Grid.addNote, occupied. rewrite existsb_app. cbn [existsb].
      cbn [Grid.pitch Grid.start]. rewrite !Z.eqb_refl.
      apply orb_true_iff. right. reflexivity.
    + apply NoDup_map_snoc; [exact Hu |]. apply occupied_false_cell, Ho.
    + intros Habs. discriminate Habs.
Qed.

Lemma grid_click_toggles_cell_witness :
  Editor.notes (Editor.handleGridClick 5 11 1700000000000 "0.25"
                  Editor.initial)
  = [Grid.mkNote "note-1700000000000-0.25" 60 5 1 80].
Proof.
  refine (proj1 (proj2 (proj2
    (grid_click_toggles_cell Editor.initial 5 11 1700000000000 "0.25" _ _)))
    _).
  - lia.
  - constructor.
  - reflexivity.
Defined.

(** X17.  In a session of clicks, playback controls, interval firings and
    clear-all from the initial state (no suggestion applied), no cell of the
    grid ever holds two notes, and every stored note has a pitch of the 36
    rows (36..71), is one step long and has velocity 80. *)
Theorem grid_session_cells (evs : list Editor.Event)
  (H : Forall userEdit evs) :
  oneNotePerCell (Editor.notes (Editor.run evs Editor.initial))
  /\ Forall clickedNote (Editor.notes (Editor.run evs Editor.initial)).
Proof.
  unfold Editor.run.
  assert (Hinit : oneNotePerCell (Editor.notes Editor.initial)
                  /\ Forall clickedNote (Editor.notes Editor.initial))
    by (split; constructor).
  revert Hinit. generalize Editor.initial.
  induction H as [| ev evs Hev _ IH]; intros st Hst; [exact Hst |].
  cbn [fold_left]. apply IH.
  destruct ev as [x y now rnd | | | h | | sug]; cbn [Editor.handle_event].
  - apply click_keeps_cells, Hst.
  - unfold Editor.togglePlayback.
    destruct (negb (Editor.isPlaying st)); [exact Hst |].
    destruct (Editor.playIntervalRef st); exact Hst.
  - unfold Editor.stopPlayback.
    destruct (Editor.playIntervalRef st); exact Hst.
  - unfold Editor.intervalFires.
    destruct (find _ (Editor.intervals st)); exact Hst.
  - split; constructor.
  - contradiction Hev.
Qed.

Lemma grid_session_cells_witness :
  Forall clickedNote
    (Editor.notes
       (Editor.run [Editor.GridClick 0 0 10 "0.5"; Editor.TogglePlayback;
                    Editor.GridClick 3 35 11 "0.5"; Editor.IntervalFires 1;
                    Editor.GridClick 0 0 12 "0.5"]
          Editor.initial)).
Proof.
  refine (proj2 (grid_session_cells _ _)).
  repeat constructor.
Defined.

(** ** The grid editor: playback *)

Section GridPlayback.

Import Editor.

Lemma next_position (pos : Z) :
  0 <= pos < GRID_WIDTH ->
  JS.rem (pos + 1) GRID_WIDTH = (pos + 1) mod GRID_WIDTH
  /\ 0 <= (pos + 1) mod GRID_WIDTH < GRID_WIDTH.
Proof.
  unfold GRID_WIDTH, JS.rem. intros H.
  rewrite Z.rem_mod_nonneg by lia. split; [reflexivity |].
  apply Z.mod_pos_bound. lia.
Qed.







Lemma ticks_positions (step : Q) (k : nat) (st : State) :
  0 <= currentPosition st < GRID_WIDTH ->
  ticks step k st
  = (map (fun i =>
            soundsAt step ((currentPosition st + Z.of_nat i) mod GRID_WIDTH)
              (notes st))
       (seq 0 k),
     setPosition ((currentPosition st + Z.of_nat k) mod GRID_WIDTH) st).
Proof.
  revert st. induction k as [| k IH]; intros st Hp.
  - cbn [ticks seq map Z.of_nat]. rewrite Z.add_0_r, Z.mod_small by exact Hp.
    destruct st; reflexivity.
  - cbn [ticks]. unfold intervalCallback.
    destruct (next_position _ Hp) as [-> Hnext].
    rewrite IH by exact Hnext.
    cbn [notes currentPosition]. unfold setPosition.
    cbn [notes isPlaying bpm playIntervalRef intervals nextHandle].
    f_equal.
    + cbn [seq map]. f_equal.
      * unfold soundsAt. cbn [Z.of_nat].
        rewrite Z.add_0_r, Z.mod_small by exact Hp. reflexivity.
      * rewrite <- seq_shift, map_map. apply map_ext. intros i.
        f_equal. unfold GRID_WIDTH. rewrite Zplus_mod_idemp_l.
        f_equal. lia.
    + f_equal. unfold GRID_WIDTH. rewrite Zplus_mod_idemp_l.
      f_equal. lia.
Qed.

End GridPlayback.


(** X19.  From a cursor on the grid, 32 firings of the interval callback
    bring the cursor back to where it was; firing [i] plays the notes that
    start at step [(cursor + i) mod 32], each for its duration in steps; so
    within the 32 firings a note that starts at a step 0..31 is played at
    exactly one firing, and a note that starts elsewhere at none. *)
Theorem grid_loop_plays_each_note_once (step : Q) (st : Editor.State)
  (Hp : 0 <= Editor.currentPosition st < 32) :
  let p := Editor.currentPosition st in
  snd (Editor.ticks step 32 st) = st
  /\ (forall i : nat, (i < 32)%nat ->
      nth i (fst (Editor.ticks step 32 st)) []
      = soundsAt step ((p + Z.of_nat i) mod 32) (Editor.notes st))
  /\ (forall (n : Grid.Note) (i : nat), (i < 32)%nat ->
      In n (filter (fun note => Grid.start note =? (p + Z.of_nat i) mod 32)
              (Editor.notes st))
      <-> In n (Editor.notes st)
          /\ 0 <= Grid.start n < 32
          /\ Z.of_nat i = (Grid.start n - p) mod 32).
Proof.
  intros p. rewrite ticks_positions by exact Hp. cbn [fst snd].
  split; [| split].
  - fold p. unfold Editor.GRID_WIDTH.
    replace ((p + Z.of_nat 32) mod 32) with p.
    + subst p. destruct st; reflexivity.
    + change (Z.of_nat 32) with (1 * 32).
      rewrite Z.mod_add, Z.mod_small by lia. reflexivity.
  - intros i Hi. fold p.
    rewrite (nth_indep _ []
               (soundsAt step ((p + Z.of_nat 0) mod Editor.GRID_WIDTH)
                  (Editor.notes st)))
      by (rewrite length_map, length_seq; exact Hi).
    rewrite (map_nth (fun i => soundsAt step
                       ((p + Z.of_nat i) mod Editor.GRID_WIDTH)
                       (Editor.notes st))).
    rewrite seq_nth by exact Hi. reflexivity.
  - intros n i Hi. rewrite filter_In, Z.eqb_eq.
    assert (Hq : 0 <= (p + Z.of_nat i) mod 32 < 32)
      by (apply Z.mod_pos_bound; lia).
    split.
    + intros [Hin E]. split; [exact Hin |]. split; [lia |].
      rewrite E. rewrite Zminus_mod_idemp_l.
      replace (p + Z.of_nat i - p) with (Z.of_nat i) by lia.
      rewrite Z.mod_small by lia. reflexivity.
    + intros (Hin & Hs & E). split; [exact Hin |].
      rewrite E, Zplus_mod_idemp_r.
      replace (p + (Grid.start n - p)) with (Grid.start n) by lia.
      rewrite Z.mod_small by lia. reflexivity.
Qed.

Lemma grid_loop_plays_each_note_once_witness :
  snd (Editor.ticks 125 32 (setPosition 7 Editor.initial))
  = setPosition 7 Editor.initial.
Proof.
  refine (proj1 (grid_loop_plays_each_note_once 125
                   (setPosition 7 Editor.initial) _)).
  cbn. lia.
Defined.

Lemma find_snoc_none {A} (f : A -> bool) (l : list A) (a : A) :
  find f l = None -> f a = true -> find f (l ++ [a]) = Some a.
Proof.
  intros Hl Ha. induction l as [| c l IH].
  - cbn [app find]. rewrite Ha. reflexivity.
  - cbn [app find] in *. destruct (f c); [discriminate |]. exact (IH Hl).
Qed.

(** X20.  Clicking an empty cell and then clicking it again leaves the
    editor as it was, provided the id the first click made is not the id of
    a note already stored. *)
Theorem grid_double_click_restores (st : Editor.State) (x y now now' : Z)
  (rnd rnd' : string)
  (Hy : 0 <= y < 36)
  (Hempty : occupied (71 - y) x (Editor.notes st) = false)
  (Hfresh : ~ In (gridId now rnd) (map Grid.id (Editor.notes st))) :
  Editor.handleGridClick x y now' rnd'
    (Editor.handleGridClick x y now rnd st) = st.
Proof.
  rewrite !handleGridClick_row by exact Hy.
  assert (Ef : find (inCell (71 - y) x) (Editor.notes st) = None).
  { destruct (find _ _) as [e |] eqn:Ef; [| reflexivity].
    rewrite (find_some_occupied (71 - y) x _ e Ef) in Hempty.
    discriminate. }
  rewrite Ef. cbn [Editor.setNotes Editor.notes].
  assert (Ef' : find (inCell (71 - y) x)
                  (Grid.addNote (71 - y) x 1 now rnd (Editor.notes st))
                = Some (Grid.mkNote (gridId now rnd) (71 - y) x 1 80)).
  { unfold Grid.addNote. apply find_snoc_none; [exact Ef |].
    unfold inCell. cbn [Grid.pitch Grid.start].
    rewrite !Z.eqb_refl. reflexivity. }
  rewrite Ef'. cbn [Editor.setNotes Editor.notes Grid.id
                    Editor.isPlaying Editor.currentPosition Editor.bpm
                    Editor.playIntervalRef Editor.intervals
                    Editor.nextHandle].
  replace (Grid.removeNote (gridId now rnd)
             (Grid.addNote (71 - y) x 1 now rnd (Editor.notes st)))
    with (Editor.notes st); [destruct st; reflexivity |].
  unfold Grid.removeNote, Grid.addNote. rewrite filter_app. cbn [filter].
  cbn [Grid.id]. fold (gridId now rnd). rewrite String.eqb_refl.
  cbn [negb]. rewrite app_nil_r. symmetry.
  apply forallb_filter_id. apply forallb_forall. intros n Hn.
  apply negb_true_iff. apply String.eqb_neq. intros E.
  apply Hfresh. rewrite <- E. apply in_map, Hn.
Qed.

Lemma grid_double_click_restores_witness :
  Editor.handleGridClick 5 11 1700000000001 "0.75"
    (Editor.handleGridClick 5 11 1700000000000 "0.25" Editor.initial)
  = Editor.initial.
Proof.
  apply (grid_double_click_restores Editor.initial 5 11).
  - lia.
  - reflexivity.
  - intros [].
Defined.

(** ** The suggester: harmony *)

Section Harmony.

Import Suggester.

Lemma indexOfFrom_found (l : list Z) (x i d : Z) :
  indexOfFrom i l x = d -> d <> -1 -> 0 <= i ->
  i <= d < i + Z.of_nat (List.length l)
  /\ nth (Z.to_nat (d - i)) l 0 = x.
Proof.
  revert i. induction l as [| y l IH]; intros i Hd Hne Hi; cbn [indexOfFrom] in Hd.
  - congruence.
  - destruct (Z.eqb_spec y x) as [E | E].
    + subst d. rewrite Z.sub_diag. cbn [List.length nth Z.to_nat].
      split; [lia | exact E].
    + destruct (IH (i + 1) Hd Hne ltac:(lia)) as [Hr Hn].
      cbn [List.length]. split; [lia |].
      replace (Z.to_nat (d - i)) with (S (Z.to_nat (d - (i + 1)))) by lia.
      exact Hn.
Qed.

Lemma indexOf_found (l : list Z) (x d : Z) :
  indexOf l x = d -> d <> -1 ->
  0 <= d < Z.of_nat (List.length l) /\ at_ l d = x.
Proof.
  intros Hd Hne. destruct (indexOfFrom_found l x 0 d Hd Hne ltac:(lia))
    as [Hr Hn].
  split; [lia |]. unfold at_. rewrite Z.sub_0_r in Hn. exact Hn.
Qed.

Lemma scale_length (isMinor : bool) :
  Z.of_nat (List.length (scaleOf isMinor)) = 7.
Proof. destruct isMinor; reflexivity. Qed.

Lemma scale_entry (isMinor : bool) (d : Z) :
  0 <= d < 7 ->
  In (at_ (scaleOf isMinor) d) (scaleOf isMinor)
  /\ 0 <= at_ (scaleOf isMinor) d < 12.
Proof.
  intros Hd.
  assert (Hc : d = 0 \/ d = 1 \/ d = 2 \/ d = 3 \/ d = 4 \/ d = 5 \/ d = 6)
    by lia.
  destruct isMinor;
    destruct Hc as [-> | [-> | [-> | [-> | [-> | [-> | ->]]]]]];
    (split; [vm_compute; auto 10 |]);
    match goal with
    | |- context [at_ ?l ?i] =>
        let v := eval vm_compute in (at_ l i) in change (at_ l i) with v
    end; lia.
Qed.

Lemma Math_max_le_l (a b : Q) : (a <= Math_max a b)%Q.
Proof.
  unfold Math_max. destruct (Qle_bool a b) eqn:E.
  - apply Qle_bool_iff, E.
  - apply Qle_refl.
Qed.

Lemma harmonyOf_cases (isMinor : bool) (key pos : Z) (now : nat -> Z)
    (i : nat) (n : Note) :
  harmonyOf (scaleOf isMinor) key pos now i n = []
  \/ exists s, harmonyOf (scaleOf isMinor) key pos now i n = [s]
       /\ id s = harmonyId now i
       /\ start s = pos
       /\ 48 <= pitch s <= 84
       /\ (50 <= velocity s)%Q
       /\ inScale isMinor key (pitch s)
       /\ duration s = duration n
       /\ pitch s <> pitch n
       /\ velocity s = Math_max 50 (velocity n - 20)
       /\ thirdAbove isMinor key n s.
Proof.
  unfold harmonyOf.
  set (scale := scaleOf isMinor).
  set (deg := JS.rem (JS.rem (pitch n) 12 - key + 12) 12).
  destruct (Z.eqb_spec (indexOf scale deg) (-1)) as [E | E]; [left; reflexivity |].
  destruct (indexOf_found scale deg _ eq_refl E) as [Hd Hat].
  subst scale. rewrite scale_length in *.
  set (d := indexOf (scaleOf isMinor) deg) in *.
  assert (Hrem : JS.rem (d + 2) 7 = (d + 2) mod 7)
    by (unfold JS.rem; apply Z.rem_mod_nonneg; lia).
  rewrite Hrem.
  assert (Ht : 0 <= (d + 2) mod 7 < 7) by (apply Z.mod_pos_bound; lia).
  destruct (scale_entry isMinor _ Ht) as [Hin Hiv].
  set (iv := at_ (scaleOf isMinor) ((d + 2) mod 7)) in *.
  set (third := pitch n / 12 * 12 + key + iv).
  destruct (Z.eqb_spec third (pitch n)) as [E1 | E1]; cbn [negb andb];
    [left; reflexivity |].
  destruct (Z.leb_spec 48 third) as [E2 | E2]; cbn [andb];
    [| left; reflexivity].
  destruct (Z.leb_spec third 84) as [E3 | E3]; [| left; reflexivity].
  right. eexists. split; [reflexivity |].
  cbn [id start pitch velocity duration].
  repeat split; try assumption; try reflexivity.
  - apply Math_max_le_l.
  - unfold inScale. subst third.
    replace (pitch n / 12 * 12 + key + iv - key)
      with (iv + pitch n / 12 * 12) by lia.
    rewrite Z.mod_add, Z.mod_small by lia. exact Hin.
  - exists d. cbn [pitch]. repeat split; try lia; exact Hat.
Qed.

Lemma indexed_fst_from {A} (a : nat) (l : list A) :
  map fst (combine (seq a (List.length l)) l) = seq a (List.length l).
Proof.
  revert a. induction l as [| x l IH]; intros a; [reflexivity |].
  cbn [List.length seq combine map fst]. f_equal. apply IH.
Qed.

Lemma indexed_fst {A} (l : list A) :
  map fst (indexed l) = seq 0 (List.length l).
Proof. apply indexed_fst_from. Qed.

Lemma indexed_In {A} (l : list A) (i : nat) (x : A) :
  In (i, x) (indexed l) -> In x l.
Proof. intros H. exact (in_combine_r _ _ _ _ H). Qed.

Lemma indexed_length {A} (l : list A) :
  List.length (indexed l) = List.length l.
Proof.
  unfold indexed. rewrite length_combine, length_seq. apply Nat.min_id.
Qed.

Lemma noDash_with_dash (x y : string) :
  noDash (x ++ String "-" y) = false.
Proof.
  induction x as [| c x IH]; [reflexivity |].
  cbn [String.append noDash]. rewrite IH. apply andb_false_r.
Qed.

(** The text after the last dash. *)
Lemma after_last_dash (a b s1 s2 : string) :
  noDash s1 = true -> noDash s2 = true ->
  (a ++ String "-" s1 = b ++ String "-" s2)%string -> s1 = s2.
Proof.
  intros H1 H2. revert b.
  induction a as [| c a IH]; intros [| c' b] H; cbn [String.append] in H.
  - injection H as H. exact H.
  - injection H as _ H.
    rewrite H, noDash_with_dash in H1. discriminate.
  - injection H as _ H.
    rewrite <- H, noDash_with_dash in H2. discriminate.
  - injection H as _ H. exact (IH b H).
Qed.

Lemma harmonyId_inj (now : nat -> Z) (i j : nat) :
  harmonyId now i = harmonyId now j -> i = j.
Proof.
  unfold harmonyId. intros H. cbn [String.append] in H.
  injection H as H.
  apply after_last_dash in H; try (apply toString_noDash; lia).
  apply toString_inj in H. lia.
Qed.

Lemma harmony_ids (isMinor : bool) (key pos : Z) (now : nat -> Z)
    (l : list (nat * Note)) (s : Note) :
  In s (flat_map (fun '(i, note) =>
                    harmonyOf (scaleOf isMinor) key pos now i note) l) ->
  exists i n, In (i, n) l /\ id s = harmonyId now i.
Proof.
  intros H. apply in_flat_map in H. destruct H as ([i n] & Hin & Hs).
  exists i, n. split; [exact Hin |].
  destruct (harmonyOf_cases isMinor key pos now i n) as [E | (s' & E & Hid & _)];
    rewrite E in Hs.
  - contradiction.
  - destruct Hs as [<- | []]. exact Hid.
Qed.

Lemma harmony_NoDup (isMinor : bool) (key pos : Z) (now : nat -> Z)
    (l : list (nat * Note)) :
  NoDup (map fst l) ->
  NoDup (map id (flat_map (fun '(i, note) =>
                             harmonyOf (scaleOf isMinor) key pos now i note)
                   l)).
Proof.
  induction l as [| [i n] l IH]; intros Hnd; [constructor |].
  cbn [map fst] in Hnd. inversion Hnd as [| ? ? Hnotin Hnd']; subst.
  cbn [flat_map]. rewrite map_app.
  destruct (harmonyOf_cases isMinor key pos now i n)
    as [E | (s & E & Hid & _)]; rewrite E; cbn [map app];
    [exact (IH Hnd') |].
  constructor; [| exact (IH Hnd')].
  intros Hin. apply in_map_iff in Hin. destruct Hin as (s' & Hid' & Hs').
  destruct (harmony_ids _ _ _ _ _ _ Hs') as (j & n' & Hj & Hidj).
  apply Hnotin. apply in_map_iff. exists (j, n'). split; [| exact Hj].
  cbn [fst]. apply (harmonyId_inj now). congruence.
Qed.

Lemma harmony_length (isMinor : bool) (key pos : Z) (now : nat -> Z)
    (l : list (nat * Note)) :
  (List.length (flat_map (fun '(i, note) =>
                            harmonyOf (scaleOf isMinor) key pos now i note)
                  l)
   <= List.length l)%nat.
Proof.
  induction l as [| [i n] l IH]; [apply le_n |].
  cbn [flat_map]. rewrite length_app. cbn [List.length].
  destruct (harmonyOf_cases isMinor key pos now i n)
    as [E | (s & E & _)]; rewrite E; cbn [List.length]; lia.
Qed.

Lemma harmony_notes (notes : list Note) (key : Z) (isMinor : bool)
    (pos : Z) (now : nat -> Z) :
  Forall (harmonyNote notes key isMinor pos)
    (generateHarmonyPattern notes key isMinor pos now).
Proof.
  unfold generateHarmonyPattern. apply Forall_forall. intros s Hs.
  apply in_flat_map in Hs. destruct Hs as ([i n] & Hin & Hs).
  apply indexed_In, filter_In in Hin. destruct Hin as [Hn Hsound].
  unfold soundsAt in Hsound. apply andb_true_iff in Hsound.
  destruct Hsound as [H1 H2]. apply Z.leb_le in H1. apply Z.ltb_lt in H2.
  destruct (harmonyOf_cases isMinor key pos now i n)
    as [E | (s' & E & Hid & Hstart & Hp & Hv & Hsc & Hd & Hne & Hvel & Hth)];
    rewrite E in Hs; [contradiction |].
  destruct Hs as [<- | []].
  unfold harmonyNote. repeat split; try assumption; try lia.
  exists n. repeat split; try assumption; lia.
Qed.

End Harmony.

(** X21.  Every note [generateHarmonyPattern] suggests starts at the given
    position, has a pitch in 48..84 on the scale of the key and a velocity
    of at least 50, and comes from a note that sounds at that position: it
    has that note's duration, a different pitch, and lies two scale degrees
    above that note's degree in the same octave counted from the key.  There
    is at most one suggestion per sounding note, and the ids of the
    suggestions are pairwise distinct whatever the clock reads. *)
Theorem harmony_suggestions (notes : list Suggester.Note) (key : Z)
  (isMinor : bool) (nextPosition : Z) (now : nat -> Z) :
  let hs :=
    Suggester.generateHarmonyPattern notes key isMinor nextPosition now in
  Forall (harmonyNote notes key isMinor nextPosition) hs
  /\ (List.length hs
      <= List.length (filter (Suggester.soundsAt nextPosition) notes))%nat
  /\ NoDup (map Suggester.id hs).
Proof.
  intros hs. subst hs. split; [apply harmony_notes |].
  unfold Suggester.generateHarmonyPattern. split.
  - rewrite <- (indexed_length (filter _ notes)). apply harmony_length.
  - apply harmony_NoDup. rewrite indexed_fst. apply seq_NoDup.
Qed.

(** ** The suggester: the key *)

Section KeyAnalysis.

Import Suggester.

Lemma get_set (o : Obj) (k v c : Z) :
  get (set k v o) c = if k =? c then Some v else get o c.
Proof.
  induction o as [| [k' v'] o IH]; cbn [set get]; [reflexivity |].
  destruct (Z.eqb_spec k' k) as [E | E].
  - subst k'. cbn [get]. destruct (k =? c); reflexivity.
  - destruct ((0 <=? k) && ((k' <? 0) || (k <? k'))); cbn [get].
    + reflexivity.
    + rewrite IH. destruct (Z.eqb_spec k' c) as [E1 | E1];
        destruct (Z.eqb_spec k c) as [E2 | E2]; try reflexivity.
      congruence.
Qed.

Lemma set_keys (o : Obj) (k v x : Z) :
  In x (map fst (set k v o)) -> x = k \/ In x (map fst o).
Proof.
  induction o as [| [k' v'] o IH]; cbn [set].
  - cbn. intros [E | []]. left. symmetry. exact E.
  - destruct (Z.eqb_spec k' k) as [E | E].
    + subst k'. cbn [map fst In]. tauto.
    + destruct ((0 <=? k) && ((k' <? 0) || (k <? k'))); cbn [map fst In].
      * intros [E1 | H]; [left; symmetry; exact E1 | right; exact H].
      * intros [E1 | H]; [right; left; exact E1 |].
        destruct (IH H) as [E2 | H2]; [left; exact E2 | right; right; exact H2].
Qed.

Lemma set_ordered (o : Obj) (k v : Z) : ordered o -> ordered (set k v o).
Proof.
  unfold ordered. induction o as [| [k' v'] o IH]; intros Ho; cbn [set].
  - cbn. constructor; constructor.
  - cbn [map fst] in Ho. inversion Ho as [| ? ? Hs Hall]; subst.
    destruct (Z.eqb_spec k' k) as [E | E]; [subst k'; exact Ho |].
    destruct ((0 <=? k) && ((k' <? 0) || (k <? k'))) eqn:Eb.
    + cbn [map fst]. constructor; [exact Ho |].
      apply andb_true_iff in Eb. destruct Eb as [Hk Hb].
      apply Z.leb_le in Hk. apply orb_true_iff in Hb.
      rewrite Z.ltb_lt, Z.ltb_lt in Hb.
      constructor.
      * unfold keyOrder. lia.
      * apply Forall_forall. intros x Hx.
        pose proof (proj1 (Forall_forall _ _) Hall x Hx) as [Hne Hord].
        unfold keyOrder. split; [| lia].
        intros ->. lia.
    + cbn [map fst]. constructor; [apply IH, Hs |].
      apply Forall_forall. intros x Hx.
      destruct (set_keys _ _ _ _ Hx) as [-> | Hx'].
      * apply andb_false_iff in Eb. rewrite Z.leb_gt in Eb.
        rewrite orb_false_iff, !Z.ltb_ge in Eb.
        unfold keyOrder. lia.
      * exact (proj1 (Forall_forall _ _) Hall x Hx').
Qed.

Lemma occurrences_app (c : Z) (l1 l2 : list Note) :
  occurrences c (l1 ++ l2) = occurrences c l1 + occurrences c l2.
Proof.
  unfold occurrences. rewrite filter_app, length_app. lia.
Qed.

Lemma occurrences_nonneg (c : Z) (l : list Note) : 0 <= occurrences c l.
Proof. unfold occurrences. lia. Qed.

Lemma occurrences_pos (c : Z) (l : list Note) :
  0 < occurrences c l <-> exists n, In n l /\ JS.rem (pitch n) 12 = c.
Proof.
  unfold occurrences. split.
  - intros H.
    destruct (filter (fun n => JS.rem (pitch n) 12 =? c) l) as [| n f] eqn:E;
      [cbn in H; lia |].
    assert (Hn : In n (filter (fun n => JS.rem (pitch n) 12 =? c) l))
      by (rewrite E; left; reflexivity).
    apply filter_In in Hn. exists n. rewrite Z.eqb_eq in Hn. exact Hn.
  - intros (n & Hn & Hc).
    assert (Hf : In n (filter (fun n => JS.rem (pitch n) 12 =? c) l))
      by (apply filter_In; split; [exact Hn | apply Z.eqb_eq, Hc]).
    destruct (filter _ l); [contradiction | cbn [List.length]; lia].
Qed.

Lemma countNote_counts (o : Obj) (seen : list Note) (n : Note) :
  counts o seen -> counts (countNote o n) (seen ++ [n]).
Proof.
  intros H c. unfold countNote. rewrite get_set, occurrences_app.
  rewrite (H (JS.rem (pitch n) 12)), (H c).
  pose proof (occurrences_nonneg c seen) as Hc.
  pose proof (occurrences_nonneg (JS.rem (pitch n) 12) seen) as Hp.
  change (occurrences c [n])
    with (Z.of_nat (List.length
                      (if JS.rem (pitch n) 12 =? c then [n] else []))).
  destruct (Z.eqb_spec (JS.rem (pitch n) 12) c) as [E | E].
  - subst c. cbn [List.length Z.of_nat Pos.of_succ_nat].
    destruct (Z.eqb_spec (occurrences (JS.rem (pitch n) 12) seen) 0)
      as [E0 | E0]; cbn [orZero].
    + rewrite E0. reflexivity.
    + destruct (Z.eqb_spec (occurrences (JS.rem (pitch n) 12) seen) 0);
        [contradiction |].
      destruct (Z.eqb_spec (occurrences (JS.rem (pitch n) 12) seen + 1) 0);
        [lia | reflexivity].
  - cbn [List.length Z.of_nat]. rewrite Z.add_0_r. reflexivity.
Qed.

Lemma fold_countNote (notes : list Note) (o : Obj) (seen : list Note) :
  counts o seen /\ ordered o ->
  counts (fold_left countNote notes o) (seen ++ notes)
  /\ ordered (fold_left countNote notes o).
Proof.
  revert o seen. induction notes as [| n notes IH]; intros o seen [Hc Ho].
  - rewrite app_nil_r. split; assumption.
  - cbn [fold_left].
    replace (seen ++ n :: notes) with ((seen ++ [n]) ++ notes)
      by (rewrite <- app_assoc; reflexivity).
    apply IH. split; [apply countNote_counts, Hc |].
    unfold countNote. apply set_ordered, Ho.
Qed.

Lemma noteCounts_counts (notes : list Note) :
  counts (fold_left countNote notes []) notes
  /\ ordered (fold_left countNote notes []).
Proof.
  apply (fold_countNote notes [] []). split.
  - intros c. reflexivity.
  - constructor.
Qed.

Lemma get_of_entry (o : Obj) (e : Z * Z) :
  In e o -> get o (fst e) <> None.
Proof.
  induction o as [| [k v] o IH]; intros H; [contradiction |].
  cbn [get]. destruct (Z.eqb_spec k (fst e)); [discriminate |].
  destruct H as [<- | H]; [contradiction n; reflexivity | exact (IH H)].
Qed.

Lemma entry_of_get (o : Obj) (k v : Z) :
  get o k = Some v -> exists e, In e o /\ fst e = k.
Proof.
  induction o as [| [k' v'] o IH]; cbn [get]; [discriminate |].
  destruct (Z.eqb_spec k' k) as [E | E].
  - intros _. exists (k', v'). split; [left; reflexivity | exact E].
  - intros H. destruct (IH H) as (e & He & Hk).
    exists e. split; [right; exact He | exact Hk].
Qed.

(** The reduction keeps the last of the entries of greatest weight. *)
Lemma reduce_last_max (w : Z -> Z) (rest : list (Z * Z)) (a : Z * Z) :
  let pick := fun a b : Z * Z => if w (fst b) <? w (fst a) then a else b in
  let r := fold_left pick rest a in
  In r (a :: rest)
  /\ (forall e, In e (a :: rest) -> w (fst e) <= w (fst r))
  /\ (StronglySorted Z.lt (map fst (a :: rest)) ->
      forall e, In e (a :: rest) -> w (fst e) = w (fst r) ->
                fst e <= fst r).
Proof.
  intros pick. revert a. induction rest as [| b rest IH]; intros a r.
  - subst r. cbn [fold_left]. split; [left; reflexivity |]. split.
    + intros e [<- | []]. lia.
    + intros _ e [<- | []] _. lia.
  - subst r. cbn [fold_left].
    pose proof (IH (pick a b)) as IHp. cbv zeta in IHp.
    assert (Hpick : (pick a b = a /\ w (fst b) < w (fst a))
                    \/ (pick a b = b /\ w (fst a) <= w (fst b))).
    { unfold pick. destruct (Z.ltb_spec (w (fst b)) (w (fst a)));
        [left | right]; split; (reflexivity || lia). }
    destruct Hpick as [[Ep Hw] | [Ep Hw]]; rewrite Ep in *;
      destruct IHp as (Hin & Hmax & Hties).
    + pose proof (Hmax a (or_introl eq_refl)) as Ha.
      split; [| split].
      * destruct Hin as [E | Hin]; [left; exact E | right; right; exact Hin].
      * intros e [<- | [<- | He]]; [exact Ha | lia |].
        apply Hmax. right. exact He.
      * intros Hs. cbn [map fst] in Hs.
        inversion Hs as [| ? ? Hs' Hall]; subst.
        inversion Hs' as [| ? ? Hs'' Hb]; subst.
        inversion Hall as [| ? ? Hab Ha']; subst.
        assert (Hsa : StronglySorted Z.lt (map fst (a :: rest)))
          by (constructor; assumption).
        intros e [<- | [<- | He]] Hwe.
        -- apply (Hties Hsa); [left; reflexivity | exact Hwe].
        -- lia.
        -- apply (Hties Hsa); [right; exact He | exact Hwe].
    + pose proof (Hmax b (or_introl eq_refl)) as Hb.
      split; [| split].
      * right. exact Hin.
      * intros e [<- | [<- | He]]; [lia | exact Hb |].
        apply Hmax. right. exact He.
      * intros Hs. cbn [map fst] in Hs.
        inversion Hs as [| ? ? Hs' Hall]; subst.
        inversion Hall as [| ? ? Hab Ha']; subst.
        intros e [<- | [<- | He]] Hwe.
        -- assert (fst b <= fst (fold_left pick rest b))
             by (apply (Hties Hs'); [left; reflexivity | lia]).
           lia.
        -- apply (Hties Hs'); [left; reflexivity | exact Hwe].
        -- apply (Hties Hs'); [right; exact He | exact Hwe].
Qed.

Lemma fold_left_agree {A} (P : A -> Prop) (f g : A -> A -> A)
    (rest : list A) (a : A) :
  (forall x y, P x -> P y -> f x y = g x y) ->
  (forall x y, P x -> P y -> P (g x y)) ->
  P a -> Forall P rest ->
  fold_left f rest a = fold_left g rest a.
Proof.
  intros Hfg Hg. revert a. induction rest as [| b rest IH]; intros a Ha Hr;
    [reflexivity |].
  inversion Hr as [| ? ? Hb Hr']; subst. cbn [fold_left].
  rewrite (Hfg a b Ha Hb). apply IH; [apply Hg; assumption | exact Hr'].
Qed.

Lemma ordered_nonneg_sorted (ks : list Z) :
  StronglySorted keyOrder ks -> Forall (fun k => 0 <= k) ks ->
  StronglySorted Z.lt ks.
Proof.
  induction 1 as [| k ks Hs IH Hk1]; intros Hk; constructor;
    inversion Hk as [| ? ? Hk0 Hks]; subst.
  - exact (IH Hks).
  - apply Forall_forall. intros x Hx.
    pose proof (proj1 (Forall_forall _ _) Hk1 x Hx) as [_ Hord].
    pose proof (proj1 (Forall_forall _ _) Hks x Hx) as Hx0.
    cbn beta in Hx0. lia.
Qed.

(** What [analyzeKey] answers for a store that is not empty. *)
Lemma analyzeKey_nonempty (notes : list Note) :
  notes <> [] ->
  exists key,
    analyzeKey notes
    = Some (key,
            occurrences (JS.rem (key + 4) 12) notes
            <? occurrences (JS.rem (key + 3) 12) notes)
    /\ 0 < occurrences key notes
    /\ (forall c, occurrences c notes <= occurrences key notes)
    /\ (Forall (fun n => 0 <= pitch n) notes ->
        forall c, occurrences c notes = occurrences key notes -> c <= key).
Proof.
  intros Hne. unfold analyzeKey.
  destruct (Z.eqb_spec (Z.of_nat (List.length notes)) 0) as [E | _];
    [destruct notes; [contradiction | cbn in E; lia] |].
  destruct (noteCounts_counts notes) as [Hc Ho].
  set (o := fold_left countNote notes []) in *.
  assert (Hcnt : forall k, orZero (get o k) = occurrences k notes).
  { intros k. rewrite (Hc k). pose proof (occurrences_nonneg k notes).
    destruct (Z.eqb_spec (occurrences k notes) 0) as [E | E];
      cbn [orZero]; [lia |].
    destruct (Z.eqb_spec (occurrences k notes) 0); [contradiction |].
    reflexivity. }
  assert (Hkey : forall e, In e o -> 0 < occurrences (fst e) notes
                                     /\ get o (fst e)
                                        = Some (occurrences (fst e) notes)).
  { intros e He. pose proof (get_of_entry o e He) as Hg.
    rewrite (Hc (fst e)) in *.
    pose proof (occurrences_nonneg (fst e) notes).
    destruct (Z.eqb_spec (occurrences (fst e) notes) 0);
      [contradiction Hg; reflexivity |].
    split; [lia | reflexivity]. }
  assert (Hall : forall c, 0 < occurrences c notes ->
                           exists e, In e o /\ fst e = c).
  { intros c Hpos. apply (entry_of_get o c (occurrences c notes)).
    rewrite (Hc c). destruct (Z.eqb_spec (occurrences c notes) 0); [lia |].
    reflexivity. }
  destruct o as [| a rest] eqn:Eo.
  { exfalso. destruct notes as [| n notes]; [contradiction |].
    destruct (Hall (JS.rem (pitch n) 12)) as (e & [] & _).
    apply occurrences_pos. exists n. split; [left |]; reflexivity. }
  cbn [reduce].
  set (w := fun k => occurrences k notes).
  rewrite (fold_left_agree (fun e => In e (a :: rest)) _
             (fun x y : Z * Z => if w (fst y) <? w (fst x) then x else y)).
  - destruct (reduce_last_max w rest a) as (Hin & Hmax & Hties).
    set (r := fold_left _ rest a) in *.
    exists (fst r). rewrite !Hcnt. split; [reflexivity |].
    split; [exact (proj1 (Hkey r Hin)) |]. split.
    + intros c. pose proof (occurrences_nonneg c notes) as Hn.
      destruct (Z.eq_dec (occurrences c notes) 0) as [E0 | E0].
      * rewrite E0. pose proof (proj1 (Hkey r Hin)). lia.
      * destruct (Hall c ltac:(lia)) as (e & He & <-).
        exact (Hmax e He).
    + intros Hnn c Hw.
      assert (Hsorted : StronglySorted Z.lt (map fst (a :: rest))).
      { unfold ordered in Ho.
        assert (Hk : Forall (fun k => 0 <= k) (map fst (a :: rest))).
        { apply Forall_forall. intros k Hk. apply in_map_iff in Hk.
          destruct Hk as (e & <- & He).
          destruct (proj1 (occurrences_pos _ _) (proj1 (Hkey e He)))
            as (n & Hn & Hr).
          pose proof (proj1 (Forall_forall _ _) Hnn n Hn) as Hp.
          cbn beta in Hp. rewrite <- Hr. unfold JS.rem. apply Z.rem_nonneg; lia. }
        exact (ordered_nonneg_sorted _ Ho Hk). }
      pose proof (proj1 (Hkey r Hin)) as Hr.
      destruct (Hall c ltac:(lia)) as (e & He & <-).
      exact (Hties Hsorted e He Hw).
  - intros x y Hx Hy.
    rewrite (proj2 (Hkey x Hx)), (proj2 (Hkey y Hy)). reflexivity.
  - intros x y Hx Hy. destruct (w (fst y) <? w (fst x)); assumption.
  - left. reflexivity.
  - apply Forall_forall. intros e He. right. exact He.
Qed.

End KeyAnalysis.

(** X22.  For a store that is not empty [analyzeKey] answers, and the key
    it names is a pitch class that occurs most often among the notes; with
    pitches that are not negative the key is one of 0..11, and among the
    pitch classes that occur most often it is the highest.  The mode is
    minor exactly when the minor third above the key occurs more often than
    the major third. *)
Theorem analyzeKey_most_common (notes : list Suggester.Note)
  (H : notes <> []) :
  exists key isMinor,
    Suggester.analyzeKey notes = Some (key, isMinor)
    /\ 0 < occurrences key notes
    /\ (forall c, occurrences c notes <= occurrences key notes)
    /\ isMinor = (occurrences (JS.rem (key + 4) 12) notes
                  <? occurrences (JS.rem (key + 3) 12) notes)
    /\ (Forall (fun n => 0 <= Suggester.pitch n) notes ->
        0 <= key < 12
        /\ forall c, occurrences c notes = occurrences key notes ->
                     c <= key).
Proof.
  destruct (analyzeKey_nonempty notes H) as (key & Ha & Hpos & Hmax & Hties).
  exists key, (occurrences (JS.rem (key + 4) 12) notes
               <? occurrences (JS.rem (key + 3) 12) notes).
  repeat split; try assumption.
  - apply occurrences_pos in Hpos. destruct Hpos as (n & Hn & <-).
    pose proof (proj1 (Forall_forall _ _) H0 n Hn) as Hp.
    cbn beta in Hp. unfold JS.rem. apply Z.rem_nonneg; lia.
  - apply occurrences_pos in Hpos. destruct Hpos as (n & Hn & <-).
    pose proof (proj1 (Forall_forall _ _) H0 n Hn) as Hp.
    cbn beta in Hp. unfold JS.rem. apply Z.rem_bound_pos; lia.
  - exact (Hties H0).
Qed.

Lemma analyzeKey_most_common_witness :
  exists key isMinor,
    Suggester.analyzeKey
      [Suggester.mkNote "a" 60 0 1 80; Suggester.mkNote "b" 64 1 1 80;
       Suggester.mkNote "c" 76 2 1 80; Suggester.mkNote "d" 72 3 1 80]
    = Some (key, isMinor).
Proof.
  destruct (analyzeKey_most_common
              [Suggester.mkNote "a" 60 0 1 80; Suggester.mkNote "b" 64 1 1 80;
               Suggester.mkNote "c" 76 2 1 80; Suggester.mkNote "d" 72 3 1 80]
              ltac:(discriminate))
    as (key & isMinor & Ha & _).
  exists key, isMinor. exact Ha.
Defined.

(** ** The suggester: where suggestions are placed *)

Section Suggestions.

Import Suggester.

Lemma note_insert_In (a x : Note) (l : list Note) :
  In x (insert a l) -> x = a \/ In x l.
Proof.
  induction l as [| b l IH]; cbn [insert].
  - intros [E | []]. left. symmetry. exact E.
  - destruct (start a - start b <=? 0).
    + intros [E | H]; [left; symmetry; exact E | right; exact H].
    + intros [E | H]; [right; left; exact E |].
      destruct (IH H) as [E | H']; [left; exact E | right; right; exact H'].
Qed.

Lemma note_insert_perm (a : Note) (l : list Note) :
  Permutation (a :: l) (insert a l).
Proof.
  induction l as [| b l IH]; cbn [insert]; [apply Permutation_refl |].
  destruct (start a - start b <=? 0); [apply Permutation_refl |].
  eapply perm_trans; [apply perm_swap |].
  apply perm_skip, IH.
Qed.

Lemma note_sort_perm (l : list Note) : Permutation l (sort l).
Proof.
  induction l as [| a l IH]; cbn [sort]; [constructor |].
  eapply perm_trans; [apply perm_skip, IH |].
  apply note_insert_perm.
Qed.

Lemma note_insert_sorted (a : Note) (l : list Note) :
  StronglySorted startLe l -> StronglySorted startLe (insert a l).
Proof.
  induction 1 as [| b l Hs IH Hb]; cbn [insert].
  - repeat constructor.
  - destruct (Z.leb_spec (start a - start b) 0) as [Hle | Hgt].
    + constructor; [constructor; assumption |].
      constructor; [unfold startLe; lia |].
      eapply Forall_impl; [| exact Hb]. unfold startLe. intros c Hc. lia.
    + constructor; [exact IH |].
      apply Forall_forall. intros c Hc.
      destruct (note_insert_In _ _ _ Hc) as [-> | Hl].
      * unfold startLe. lia.
      * exact (proj1 (Forall_forall _ _) Hb c Hl).
Qed.

Lemma note_sort_sorted (l : list Note) : StronglySorted startLe (sort l).
Proof.
  induction l as [| a l IH]; cbn [sort]; [constructor |].
  apply note_insert_sorted, IH.
Qed.

Lemma note_insert_stable (t : Z) (a : Note) (l : list Note) :
  filter (fun n => start n =? t) (insert a l)
  = filter (fun n => start n =? t) (a :: l).
Proof.
  induction l as [| b l IH]; cbn [insert]; [reflexivity |].
  destruct (Z.leb_spec (start a - start b) 0) as [Hle | Hgt];
    [reflexivity |].
  cbn [filter] in *. rewrite IH.
  destruct (Z.eqb_spec (start a) t) as [Ea | Ea];
    destruct (Z.eqb_spec (start b) t) as [Eb | Eb];
    try reflexivity.
  lia.
Qed.

Lemma note_sort_stable (t : Z) (l : list Note) :
  filter (fun n => start n =? t) (sort l)
  = filter (fun n => start n =? t) l.
Proof.
  induction l as [| a l IH]; cbn [sort]; [reflexivity |].
  rewrite note_insert_stable. cbn [filter]. rewrite IH. reflexivity.
Qed.

Lemma fold_max_ge (l : list Z) (a : Z) :
  a <= fold_left Z.max l a
  /\ forall x, In x l -> x <= fold_left Z.max l a.
Proof.
  revert a. induction l as [| b l IH]; intros a; cbn [fold_left].
  - split; [lia | intros x []].
  - destruct (IH (Z.max a b)) as [H1 H2]. split; [lia |].
    intros x [<- | Hx]; [lia | exact (H2 x Hx)].
Qed.

Lemma maximum_ge (l : list Z) (x : Z) : In x l -> x <= maximum l.
Proof.
  destruct l as [| a l]; [intros [] |]. cbn [maximum].
  destruct (fold_max_ge l a) as [H1 H2].
  intros [<- | Hx]; [exact H1 | exact (H2 x Hx)].
Qed.

Lemma slice_last_nonempty {A} (l : list A) :
  l <> [] -> slice (-4) l <> [].
Proof.
  intros Hne H. apply (f_equal (@List.length A)) in H.
  unfold slice in H. cbn [List.length] in H.
  rewrite length_skipn in H.
  destruct l as [| a l]; [contradiction |]. cbn [List.length] in H.
  change (-4 <? 0) with true in H. cbv iota in H. lia.
Qed.

Lemma In_firstn {A} (k : nat) (l : list A) (x : A) :
  In x (firstn k l) -> In x l.
Proof.
  intros H. rewrite <- (firstn_skipn k l). apply in_or_app. left. exact H.
Qed.

Lemma sixty_le_eighty : (60 <= 80)%Q.
Proof. apply Qle_bool_iff. reflexivity. Qed.

Lemma melody_notes (lastNotes : list Note) (key : Z) (isMinor : bool)
    (np : Z) (now : nat -> Z) (rnd : nat -> Q) :
  let ms := generateMelodyPattern lastNotes key isMinor np now rnd in
  (List.length ms <= 3)%nat
  /\ Forall (fun s => start s = np /\ duration s = 1
                      /\ (60 <= velocity s)%Q) ms
  /\ (lastNotes <> [] -> Forall (fun s => 48 <= pitch s <= 84) ms)
  /\ (lastNotes = [] ->
      ms = [mkNote ("ai-" ++ JS.toString (now 0%nat) ++ "-1") (60 + key)
              np 1 80]).
Proof.
  intros ms. subst ms. unfold generateMelodyPattern.
  destruct (rev lastNotes) as [| lastNote others] eqn:Er.
  - assert (El : lastNotes = []).
    { rewrite <- (rev_involutive lastNotes), Er. reflexivity. }
    split; [cbn; lia |]. split.
    + constructor; [| constructor]. cbn [start duration velocity].
      repeat split. exact sixty_le_eighty.
    + split; [intros H; contradiction | reflexivity].
  - assert (El : lastNotes <> []).
    { intros ->. discriminate Er. }
    split; [apply firstn_le_length |].
    assert (Hall : forall s,
               In s (firstn 3
                       (flat_map
                          (fun '(i, scaleIndex) =>
                             let interval := at_ (scaleOf isMinor) scaleIndex in
                             let newPitch :=
                               pitch lastNote / 12 * 12 + key + interval in
                             if (48 <=? newPitch) && (newPitch <=? 84) then
                               [mkNote ("ai-" ++ JS.toString (now i) ++ "-"
                                          ++ JS.toString (Z.of_nat i))
                                  newPitch np 1
                                  (Math_max 60
                                     (velocity lastNote - 10 + rnd i * 20))]
                             else [])
                          (indexed
                             (filter
                                (fun index =>
                                   (0 <=? index)
                                   && (index
                                       <? Z.of_nat
                                            (List.length (scaleOf isMinor))))
                                [indexOf (scaleOf isMinor)
                                   (JS.rem (JS.rem (pitch lastNote) 12
                                            - key + 12) 12) + 1;
                                 indexOf (scaleOf isMinor)
                                   (JS.rem (JS.rem (pitch lastNote) 12
                                            - key + 12) 12) - 1;
                                 indexOf (scaleOf isMinor)
                                   (JS.rem (JS.rem (pitch lastNote) 12
                                            - key + 12) 12) + 2;
                                 indexOf (scaleOf isMinor)
                                   (JS.rem (JS.rem (pitch lastNote) 12
                                            - key + 12) 12) - 2;
                                 0])))) ->
               start s = np /\ duration s = 1 /\ (60 <= velocity s)%Q
               /\ 48 <= pitch s <= 84).
    { intros s Hs. apply In_firstn, in_flat_map in Hs.
      destruct Hs as ([i scaleIndex] & _ & Hs). cbv zeta in Hs.
      destruct (Z.leb_spec 48
                  (pitch lastNote / 12 * 12 + key
                   + at_ (scaleOf isMinor) scaleIndex)) as [H1 | H1];
        cbn [andb] in Hs; [| contradiction].
      destruct (Z.leb_spec
                  (pitch lastNote / 12 * 12 + key
                   + at_ (scaleOf isMinor) scaleIndex) 84) as [H2 | H2];
        [| contradiction].
      destruct Hs as [<- | []]. cbn [start duration velocity pitch].
      repeat split; try assumption. apply Math_max_le_l. }
    split; [| split].
    + apply Forall_forall. intros s Hs.
      destruct (Hall s Hs) as (H1 & H2 & H3 & _). repeat split; assumption.
    + intros _. apply Forall_forall. intros s Hs.
      exact (proj2 (proj2 (proj2 (Hall s Hs)))).
    + intros H. contradiction.
Qed.

End Suggestions.

(** X23.  [generateSuggestions] always answers.  It leaves the caller's
    array sorted by start, notes of equal start in their old order.  It
    returns at most a melody suggestion (confidence 0.8) followed by at most
    a harmony suggestion (0.7), neither of them empty.  A melody suggestion
    has at most three notes, one step long, velocity at least 60, that start
    after the cursor and not before any stored note has ended; with a store
    that is not empty their pitches are in 48..84.  The notes of a harmony
    suggestion start at the cursor, under a stored note that sounds there.
    For the empty store the answer is one melody note of pitch 120. *)
Theorem suggestions_placement (notes : list Suggester.Note) (cur : Z)
  (nowM : nat -> Z) (rnd : nat -> Q) (nowH : nat -> Z) :
  exists suggestions notes',
    Suggester.generateSuggestions notes cur nowM rnd nowH
    = Some (suggestions, notes')
    /\ Permutation notes notes'
    /\ StronglySorted startLe notes'
    /\ (forall t, filter (fun n => Suggester.start n =? t) notes'
                  = filter (fun n => Suggester.start n =? t) notes)
    /\ (exists m h, suggestions = m ++ h
          /\ (m = [] \/ exists sg, m = [sg] /\ melodySuggestion notes cur sg)
          /\ (h = [] \/ exists sg, h = [sg]
                                   /\ harmonySuggestion notes cur sg))
    /\ (notes = [] -> suggestions = [firstSuggestion cur nowM]).
Proof.
  unfold Suggester.generateSuggestions, Suggester.getLastNotes.
  set (sorted := Suggester.sort notes).
  pose proof (note_sort_perm notes) as Hperm. fold sorted in Hperm.
  assert (Hkey : exists key isMinor,
             Suggester.analyzeKey sorted = Some (key, isMinor)).
  { destruct sorted as [| n l] eqn:E.
    - exists 60, false. reflexivity.
    - destruct (analyzeKey_nonempty (n :: l) ltac:(discriminate))
        as (key & Ha & _).
      exists key. eexists. exact Ha. }
  destruct Hkey as (key & isMinor & Ha). rewrite Ha.
  set (np := Z.max (cur + 1) _).
  set (ms := Suggester.generateMelodyPattern _ key isMinor np nowM rnd).
  set (hs := Suggester.generateHarmonyPattern sorted key isMinor cur nowH).
  eexists. exists sorted. split; [reflexivity |].
  split; [exact Hperm |]. split; [apply note_sort_sorted |].
  split; [intros t; apply note_sort_stable |]. split.
  - eexists. eexists. split; [reflexivity |]. split.
    + destruct ms as [| s0 ms0] eqn:Ems; [left; reflexivity |].
      right. eexists. split; [reflexivity |].
      destruct (melody_notes (Suggester.slice (- (4)) sorted) key isMinor np
                  nowM rnd) as (Hlen & Hall & Hpitch & _).
      fold ms in Hlen, Hall, Hpitch. rewrite Ems in Hlen, Hall, Hpitch.
      unfold melodySuggestion.
      cbn [Suggester.style Suggester.confidence Suggester.notes].
      split; [reflexivity |]. split; [reflexivity |].
      split; [discriminate |]. split; [exact Hlen |]. split.
      * eapply Forall_impl; [| exact Hall].
        intros s (Hs & Hd & Hv). unfold melodyNote.
        split; [subst np; lia |]. split; [| split; assumption].
        apply Forall_forall. intros n Hn. rewrite Hs.
        assert (Hn' : In n sorted) by (eapply Permutation_in; eassumption).
        subst np.
        destruct (Z.ltb_spec 0 (Z.of_nat (List.length sorted))) as [Hl | Hl];
          [| destruct sorted; [contradiction | cbn in Hl; lia]].
        pose proof (maximum_ge
                      (map (fun n => Suggester.start n + Suggester.duration n)
                         sorted)
                      (Suggester.start n + Suggester.duration n)
                      (in_map _ _ _ Hn')).
        lia.
      * intros Hne. apply Hpitch. apply slice_last_nonempty.
        intros Es. apply Hne. rewrite Es in Hperm.
        apply Permutation_nil. apply Permutation_sym. exact Hperm.
    + destruct hs as [| s0 hs0] eqn:Ehs; [left; reflexivity |].
      right. eexists. split; [reflexivity |].
      pose proof (harmony_notes sorted key isMinor cur nowH) as Hh.
      fold hs in Hh. rewrite Ehs in Hh.
      unfold harmonySuggestion.
      cbn [Suggester.style Suggester.confidence Suggester.notes].
      split; [reflexivity |]. split; [reflexivity |].
      split; [discriminate |].
      eapply Forall_impl; [| exact Hh].
      intros s (Hs & Hp & _ & _ & n & Hn & Hsound & Hd & Hne & _).
      split; [exact Hs |]. split; [exact Hp |].
      exists n. split; [| repeat split; try assumption; lia].
      eapply Permutation_in; [apply Permutation_sym; exact Hperm | exact Hn].
  - intros ->. subst ms hs np sorted. cbn in Ha. injection Ha as <- <-.
    reflexivity.
Qed.
